(** * Block-indexed storage of rosetta-cli: a shallow embedding

    The development follows [internal/storage/block_storage.go] and
    [internal/storage/coin_storage.go].  Storage is a finite map from string
    keys to encoded values, a database transaction is a private working copy
    of that map, and the Go functions become functions in a small
    state-and-error monad over the working copy. *)

From Stdlib Require Import ZArith Lia Ascii String.
From stdpp Require Import base tactics option numbers strings list gmap pretty sorting.

Open Scope Z_scope.

(** ** Identifiers, blocks, transactions and operations
    (the fields of [rosetta-sdk-go/types] that the storage code reads) *)

Record BlockIdentifier := mkBlockIdentifier {
  Hash : string;
  Index : Z
}.

Global Instance BlockIdentifier_eq_dec : EqDecision BlockIdentifier.
Proof. solve_decision. Defined.

Record TransactionIdentifier := mkTransactionIdentifier {
  TxHash : string
}.

Global Instance TransactionIdentifier_eq_dec : EqDecision TransactionIdentifier.
Proof. solve_decision. Defined.

Record AccountIdentifier := mkAccountIdentifier {
  Address : string;
  SubAccount : option string
}.

Record Amount := mkAmount {
  Value : string;
  Symbol : string
}.

(** A value of [map[string]interface{}]: the code only asks whether it is a
    string. *)
Inductive MetaValue :=
| MetaString (s : string)
| MetaOther (rendered : string).

Record Operation := mkOperation {
  OperationIndex : Z;
  Type_ : string;
  Status : string;
  Account : AccountIdentifier;
  OpAmount : option Amount;
  Metadata : gmap string MetaValue
}.

Record Transaction := mkTransaction {
  TransactionIdentifier_ : TransactionIdentifier;
  Operations : list Operation
}.

Record Block := mkBlock {
  BlockIdentifier_ : BlockIdentifier;
  ParentBlockIdentifier : BlockIdentifier;
  Timestamp : Z;
  Transactions : list Transaction
}.

(** [Coin] of coin_storage.go. *)
Record Coin := mkCoin {
  Identifier : string;
  CoinTransaction : Transaction;
  CoinOperation : Operation
}.

(** ** int64 arithmetic *)

Definition MaxInt64 : Z := 2 ^ 63 - 1.
Definition MinInt64 : Z := - 2 ^ 63.

Definition int64_range (z : Z) : Prop := MinInt64 ≤ z ≤ MaxInt64.

(** Two's complement wrap-around of a mathematical integer to int64. *)
Definition wrap64 (z : Z) : Z := (z + 2 ^ 63) `mod` 2 ^ 64 - 2 ^ 63.

Definition sub64 (a b : Z) : Z := wrap64 (a - b).

(** ** Errors

    The five sentinel errors of block_storage.go are values with identity;
    [fmt.Errorf] with a [%w] operand wraps its operand, and [fmt.Errorf]
    without one (or with a nil operand) makes a fresh error.  [ErrExternal]
    stands for errors produced outside this package (the store, the asserter,
    a commit callback). *)

Inductive error :=
| ErrHeadBlockNotFound
| ErrBlockNotFound
| ErrTransactionNotFound
| ErrDuplicateBlockHash
| ErrDuplicateTransactionHash
| Errorf (msg : string)
| Wrapf (cause : error) (msg : string)
| ErrExternal (msg : string).

Global Instance error_eq_dec : EqDecision error.
Proof. solve_decision. Defined.

(** [errors.Is err target] for a sentinel [target]: walk the chain of wrapped
    causes. *)
Fixpoint errors_Is (err target : error) : bool :=
  if decide (err = target) then true
  else match err with
       | Wrapf cause _ => errors_Is cause target
       | _ => false
       end.

(** [(T, error)] results. *)
Inductive result (A : Type) :=
| Ok (a : A)
| Err (e : error).
Arguments Ok {A} a.
Arguments Err {A} e.

(** ** Keys *)

Definition headBlockKey : string := "head-block".
Definition blockNamespace : string := "block".
Definition blockHashNamespace : string := "block-hash".
Definition transactionHashNamespace : string := "transaction-hash".
Definition coinNamespace : string := "coinNamespace".
Definition coinAccountNamespace : string := "coinAccountNamespace".
Definition coinCreated : string := "utxo_created".
Definition coinSpent : string := "utxo_spent".

Definition getHeadBlockKey : string := headBlockKey.

(** [fmt.Sprintf("%s/%s/%d", blockNamespace, Hash, Index)] *)
Definition getBlockKey (blockIdentifier : BlockIdentifier) : string :=
  blockNamespace +:+ "/" +:+ Hash blockIdentifier +:+ "/"
    +:+ pretty (Index blockIdentifier).

(** [fmt.Sprintf("%s/%s", blockHashNamespace, Hash)] *)
Definition getBlockHashKey (blockIdentifier : BlockIdentifier) : string :=
  blockHashNamespace +:+ "/" +:+ Hash blockIdentifier.

Definition getTransactionHashKey (transactionIdentifier : TransactionIdentifier)
  : string :=
  transactionHashNamespace +:+ "/" +:+ TxHash transactionIdentifier.

Definition getCoinKey (identifier : string) : string :=
  coinNamespace +:+ "/" +:+ identifier.

(** ** The codec

    [encode] and [decode] are defined elsewhere in the package. *)

(** Modelled from the spec: the codec ([encode(value) → bytes],
    [decode(bytes, dest) → error]) is deterministic and round-trips exactly;
    the byte format is an implementation detail, so the type of encoded
    values is a parameter. *)
Class Codec (bytes A : Type) := {
  encode : A → bytes;
  decode : bytes → option A;
  decode_encode : ∀ x : A, decode (encode x) = Some x
}.
Global Hint Mode Codec - ! : typeclass_instances.

(** The error of a failed [decode]. *)
Definition errDecode : error := ErrExternal "decode".

Declare Scope txn_scope.

Section Storage.
Context {bytes : Type}.
(** The empty byte string stored under a block-hash key. *)
Variable emptyBytes : bytes.
Context `{!Codec bytes Block, !Codec bytes BlockIdentifier,
          !Codec bytes (gmap string Z)}.
Context `{!Codec bytes Coin, !Codec bytes (gset string)}.

(** ** The key-value store *)

(** Modelled from the spec: the committed store is a finite map from keys
    to byte strings. *)
Local Abbreviation Database := (gmap string bytes).

(** Modelled from the spec: a transaction is a snapshot of the store that
    sees its own writes; nothing reaches the store before [Commit]. *)
Local Abbreviation DatabaseTransaction := (gmap string bytes).

(** Code running inside a transaction: it may update the working copy and
    returns a value or an error. *)
Definition M (A : Type) : Type :=
  DatabaseTransaction → DatabaseTransaction * result A.

Definition ret {A} (a : A) : M A := λ t, (t, Ok a).

Definition bind {A B} (m : M A) (k : A → M B) : M B :=
  λ t, match m t with
       | (t', Ok a) => k a t'
       | (t', Err e) => (t', Err e)
       end.

Definition fail {A} (e : error) : M A := λ t, (t, Err e).

(** [if err != nil { return fmt.Errorf("%w" ++ msg, err) }] *)
Definition wrapErr {A} (msg : string) (m : M A) : M A :=
  λ t, match m t with
       | (t', Ok a) => (t', Ok a)
       | (t', Err e) => (t', Err (Wrapf e msg))
       end.

Local Notation "x ← m ; k" := (bind m (λ x, k)) : txn_scope.
Local Notation "m ;; k" := (bind m (λ _, k)) : txn_scope.
Local Open Scope txn_scope.

(** [for _, x := range xs { if err := f(x); err != nil { return err } }] *)
Fixpoint forEach {A} (f : A → M unit) (xs : list A) : M unit :=
  match xs with
  | [] => ret ()
  | x :: xs' => f x;; forEach f xs'
  end.

(** Modelled from the spec: [NewDatabaseTransaction]. *)
Definition NewDatabaseTransaction (db : Database) (write : bool)
  : DatabaseTransaction := db.

(** Modelled from the spec: [Txn.get(key) → (exists, value)]. *)
Definition Get (key : string) : M (option bytes) :=
  λ t, (t, Ok (t !! key)).

(** Modelled from the spec: [Txn.set(key, value)]. *)
Definition Set_ (key : string) (value : bytes) : M unit :=
  λ t, (<[key := value]> t, Ok ()).

(** Modelled from the spec: [Txn.delete(key)]. *)
Definition Delete (key : string) : M unit :=
  λ t, (delete key t, Ok ()).

(** Modelled from the spec: [Txn.commit() → Error]; on failure no writes
    persist.  Whether a commit fails is decided by the store, so the fault
    is an input. *)
Definition Commit (fault : option error) (db : Database)
    (t : DatabaseTransaction) : Database * option error :=
  match fault with
  | Some e => (db, Some e)
  | None => (t, None)
  end.

(** [decode(val, &x)] inside a transaction. *)
Definition decodeM {A} `{!Codec bytes A} (val : bytes) : M A :=
  match decode val with
  | Some x => ret x
  | None => fail errDecode
  end.

(** ** Block workers *)

(** What a commit callback acts on (logs, notifications). *)
Context {World : Type}.

(** [type CommitWorker func(context.Context) error] *)
Definition CommitWorker : Type := World → World * option error.

Record BlockWorker := mkBlockWorker {
  AddingBlock : Block → M (option CommitWorker);
  RemovingBlock : Block → M (option CommitWorker)
}.

(** ** BlockStorage *)

(** [%+v] of a [*types.BlockIdentifier]: the fields in the order of the
    struct, the index before the hash. *)
Definition fmtBlockIdentifier (id : BlockIdentifier) : string :=
  "&{Index:" +:+ pretty (Index id) +:+ " Hash:" +:+ Hash id +:+ "}".

Definition GetHeadBlockIdentifier (db : Database) : result BlockIdentifier :=
  let transaction := NewDatabaseTransaction db false in
  match transaction !! getHeadBlockKey with
  | None => Err ErrHeadBlockNotFound
  | Some block =>
      match decode block with
      | None => Err errDecode
      | Some blockIdentifier => Ok blockIdentifier
      end
  end.

Definition StoreHeadBlockIdentifier (blockIdentifier : BlockIdentifier)
  : M unit :=
  let buf := encode blockIdentifier in
  Set_ getHeadBlockKey buf.

Definition GetBlock (db : Database) (blockIdentifier : BlockIdentifier)
  : result Block :=
  let transaction := NewDatabaseTransaction db false in
  match transaction !! getBlockKey blockIdentifier with
  | None =>
      Err (Wrapf ErrBlockNotFound ("%w " +:+ fmtBlockIdentifier blockIdentifier))
  | Some block =>
      match decode block with
      | None => Err errDecode
      | Some rosettaBlock => Ok rosettaBlock
      end
  end.

Definition storeBlockHash (block : BlockIdentifier) : M unit :=
  let hashKey := getBlockHashKey block in
  exists_ ← Get hashKey;
  match exists_ with
  | Some _ =>
      fail (Wrapf ErrDuplicateBlockHash
              ("%w: duplicate block hash " +:+ Hash block +:+ " found"))
  | None => Set_ hashKey emptyBytes
  end.

Definition storeTransactionHash (blockIdentifier : BlockIdentifier)
    (transactionIdentifier : TransactionIdentifier) : M unit :=
  let hashKey := getTransactionHashKey transactionIdentifier in
  exists_ ← Get hashKey;
  blocks ← match exists_ with
           | None => ret (∅ : gmap string Z)
           | Some val =>
               blocks ← wrapErr ": could not decode transaction hash contents"
                          (decodeM val);
               match (blocks : gmap string Z) !! Hash blockIdentifier with
               | Some _ =>
                   fail (Wrapf ErrDuplicateTransactionHash
                           ("%w: duplicate transaction "
                              +:+ TxHash transactionIdentifier
                              +:+ " found in block " +:+ Hash blockIdentifier
                              +:+ ":" +:+ pretty (Index blockIdentifier)))
               | None => ret blocks
               end
           end;
  let blocks := <[Hash blockIdentifier := Index blockIdentifier]> blocks in
  let encodedResult := encode blocks in
  Set_ hashKey encodedResult.

Definition removeTransactionHash (blockIdentifier : BlockIdentifier)
    (transactionIdentifier : TransactionIdentifier) : M unit :=
  let hashKey := getTransactionHashKey transactionIdentifier in
  exists_ ← Get hashKey;
  match exists_ with
  | None =>
      fail (Errorf ("could not remove transaction "
                      +:+ TxHash transactionIdentifier))
  | Some val =>
      blocks ← wrapErr ": could not decode transaction hash contents"
                 (decodeM val);
      match (blocks : gmap string Z) !! Hash blockIdentifier with
      | None =>
          fail (Errorf ("saved blocks at transaction does not contain "
                          +:+ Hash blockIdentifier))
      | Some _ =>
          let blocks := delete (Hash blockIdentifier) blocks in
          if decide (size blocks = 0%nat) then Delete hashKey
          else
            let encodedResult := encode blocks in
            Set_ hashKey encodedResult
      end
  end.

(** The first loop of [callWorkersAndCommit]: every worker runs inside the
    transaction, in registration order, and hands back its callback. *)
Fixpoint callWorkers (adding : bool) (block : Block)
    (workers : list BlockWorker) : M (list (option CommitWorker)) :=
  match workers with
  | [] => ret []
  | w :: workers' =>
      cw ← (if adding then AddingBlock w block else RemovingBlock w block);
      commitWorkers ← callWorkers adding block workers';
      ret (cw :: commitWorkers)
  end.

(** The second loop of [callWorkersAndCommit]. *)
Fixpoint runCommitWorkers (commitWorkers : list (option CommitWorker))
    (world : World) : World * option error :=
  match commitWorkers with
  | [] => (world, None)
  | None :: rest => runCommitWorkers rest world
  | Some cw :: rest =>
      match cw world with
      | (world', Some err) => (world', Some err)
      | (world', None) => runCommitWorkers rest world'
      end
  end.

Section BlockStorage.
(** [b.workers], set once by [Initialize]. *)
Variable workers : list BlockWorker.

Definition callWorkersAndCommit (fault : option error) (db : Database)
    (world : World) (block : Block) (txn : DatabaseTransaction)
    (adding : bool) : Database * World * option error :=
  match callWorkers adding block workers txn with
  | (_, Err err) => (db, world, Some err)
  | (txn', Ok commitWorkers) =>
      match Commit fault db txn' with
      | (db', Some err) => (db', world, Some err)
      | (db', None) =>
          let '(world', r) := runCommitWorkers commitWorkers world in
          (db', world', r)
      end
  end.

(** The writes of [AddBlock] that precede the workers. *)
Definition addBlockWrites (block : Block) : M unit :=
  let buf := encode block in
  Set_ (getBlockKey (BlockIdentifier_ block)) buf;;
  StoreHeadBlockIdentifier (BlockIdentifier_ block);;
  wrapErr ": unable to store block hash"
         (storeBlockHash (BlockIdentifier_ block));;
  forEach (λ txn,
      wrapErr ": unable to store transaction hash"
        (storeTransactionHash (BlockIdentifier_ block)
           (TransactionIdentifier_ txn)))
    (Transactions block).

Definition AddBlock (fault : option error) (db : Database) (world : World)
    (block : Block) : Database * World * option error :=
  let transaction := NewDatabaseTransaction db true in
  match addBlockWrites block transaction with
  | (_, Err err) => (db, world, Some err)
  | (transaction', Ok _) =>
      callWorkersAndCommit fault db world block transaction' true
  end.

(** The writes of [RemoveBlock] that precede the workers. *)
Definition removeBlockWrites (block : Block)
    (blockIdentifier : BlockIdentifier) : M unit :=
  forEach (λ txn,
           removeTransactionHash blockIdentifier
             (TransactionIdentifier_ txn))
         (Transactions block);;
  Delete (getBlockHashKey blockIdentifier);;
  Delete (getBlockKey blockIdentifier);;
  StoreHeadBlockIdentifier (ParentBlockIdentifier block).

Definition RemoveBlock (fault : option error) (db : Database)
    (world : World) (blockIdentifier : BlockIdentifier)
  : Database * World * option error :=
  match GetBlock db blockIdentifier with
  | Err err => (db, world, Some err)
  | Ok block =>
      let transaction := NewDatabaseTransaction db true in
      match removeBlockWrites block blockIdentifier transaction with
      | (_, Err err) => (db, world, Some err)
      | (transaction', Ok _) =>
          callWorkersAndCommit fault db world block transaction' false
      end
  end.

(** [len(cache) < syncer.PastBlockSize]: the constant comes from the SDK. *)
Variable PastBlockSize : nat.

(** The body of [SetNewStartIndex] after the head checks.  [faults] gives
    the outcome of the commit of each successive [RemoveBlock]; [fuel]
    bounds the number of iterations ([None]: the bound was too small). *)
Fixpoint removeBlocksLoop (fuel : nat) (faults : list (option error))
    (db : Database) (world : World) (currBlock : BlockIdentifier)
    (startIndex : Z) : option (Database * World * option error) :=
  if decide (startIndex ≤ Index currBlock) then
    match fuel with
    | O => None
    | S fuel' =>
        match GetBlock db currBlock with
        | Err err => Some (db, world, Some err)
        | Ok block =>
            match RemoveBlock (hd None faults) db world
                    (BlockIdentifier_ block) with
            | (db', world', Some err) => Some (db', world', Some err)
            | (db', world', None) =>
                removeBlocksLoop fuel' (tl faults) db' world'
                  (ParentBlockIdentifier block) startIndex
            end
        end
    end
  else Some (db, world, None).

Definition SetNewStartIndex (fuel : nat) (faults : list (option error))
    (db : Database) (world : World) (startIndex : Z)
  : option (Database * World * option error) :=
  match GetHeadBlockIdentifier db with
  | Err err =>
      if errors_Is err ErrHeadBlockNotFound then Some (db, world, None)
      else Some (db, world, Some err)
  | Ok head =>
      if decide (Index head < startIndex) then
        Some (db, world,
              Some (Errorf ("last processed block " +:+ pretty (Index head)
                              +:+ " is less than start index "
                              +:+ pretty startIndex)))
      else removeBlocksLoop fuel faults db world head startIndex
  end.

(** The loop of [CreateBlockCache]; every iteration makes [cache] one
    longer, so [PastBlockSize] iterations always suffice. *)
Fixpoint blockCacheLoop (fuel : nat) (db : Database)
    (head : BlockIdentifier) (cache : list BlockIdentifier)
  : list BlockIdentifier :=
  if decide (length cache < PastBlockSize)%nat then
    match fuel with
    | O => cache
    | S fuel' =>
        match GetBlock db head with
        | Err _ => cache
        | Ok block =>
            blockCacheLoop fuel' db (ParentBlockIdentifier block)
              ([BlockIdentifier_ block] ++ cache)
        end
    end
  else cache.

Definition CreateBlockCache (db : Database) : list BlockIdentifier :=
  let cache := [] in
  match GetHeadBlockIdentifier db with
  | Err _ => cache
  | Ok head => blockCacheLoop PastBlockSize db head cache
  end.

(** The loop of [FindTransaction] over the entries of the mapping, in the
    order [range] yields them. *)
Definition findLoop (entries : list (string * Z))
  : list BlockIdentifier * Z :=
  fold_left
    (λ '(ids, oldestBlock) '(hash, index),
       (ids ++ [mkBlockIdentifier hash index],
        if decide (index < oldestBlock) then index else oldestBlock))
    entries ([], MaxInt64).

(** A nil slice is [None]. *)
Definition FindTransaction (db : Database)
    (transactionIdentifier : TransactionIdentifier)
  : option (list BlockIdentifier) * Z * option error :=
  let txn := NewDatabaseTransaction db false in
  match txn !! getTransactionHashKey transactionIdentifier with
  | None => (None, -1, None)
  | Some tx =>
      match decode tx with
      | None =>
          (None, -1,
           Some (Wrapf errDecode
                   ": unable to decode block data for transaction"))
      | Some blocks =>
          match txn !! getHeadBlockKey with
          | None => (None, -1, Some ErrHeadBlockNotFound)
          | Some block =>
              match decode block with
              | None =>
                  (None, -1,
                   Some (Wrapf errDecode ": could not decode head block"))
              | Some head =>
                  let '(ids, oldestBlock) :=
                    findLoop (map_to_list (blocks : gmap string Z)) in
                  (Some ids, sub64 (Index head) oldestBlock, None)
              end
          end
      end
  end.

End BlockStorage.

(** ** CoinStorage *)

(** [types.Hash] and [types.PrettyPrintStruct] of the SDK. *)
Variable typesHash : AccountIdentifier → string.
Variable PrettyPrintStruct : AccountIdentifier → string.

(** [CoinStorage]: its asserter answers [OperationSuccessful]. *)
Record CoinStorage := mkCoinStorage {
  OperationSuccessful : Operation → result bool
}.

Definition getCoinAccountKey (accountIdentifier : AccountIdentifier)
  : string :=
  coinAccountNamespace +:+ "/" +:+ typesHash accountIdentifier.

Definition getAndDecodeCoin (coinIdentifier : string) : M (option Coin) :=
  exists_ ← wrapErr ": unable to query for coin"
              (Get (getCoinKey coinIdentifier));
  match exists_ with
  | None => ret None
  | Some val =>
      coin ← wrapErr ": unable to decode coin" (decodeM val);
      ret (Some (coin : Coin))
  end.

Definition encodeAndSetCoins (accountIdentifier : AccountIdentifier)
    (coins : gset string) : M unit :=
  let encodedResult := encode coins in
  wrapErr ": unable to set coin account"
    (Set_ (getCoinAccountKey accountIdentifier) encodedResult).

Definition getAndDecodeCoins (accountIdentifier : AccountIdentifier)
  : M (option (gset string)) :=
  accountExists ← wrapErr ": unable to query coin account"
                    (Get (getCoinAccountKey accountIdentifier));
  match accountExists with
  | None => ret None
  | Some val =>
      coins ← wrapErr ": unable to decode coin account" (decodeM val);
      ret (Some (coins : gset string))
  end.

Definition tryAddingCoin (blockTransaction : Transaction)
    (operation : Operation) (identiferKey : string) : M unit :=
  match Metadata operation !! identiferKey with
  | None => ret ()
  | Some (MetaOther rawIdentifier) =>
      fail (Errorf ("unable to parse created coin " +:+ rawIdentifier))
  | Some (MetaString coinIdentifier) =>
      let newCoin := mkCoin coinIdentifier blockTransaction operation in
      let encodedResult := encode newCoin in
      wrapErr ": unable to store coin"
        (Set_ (getCoinKey coinIdentifier) encodedResult);;
      r ← wrapErr ": unable to query coin account"
            (getAndDecodeCoins (Account operation));
      let coins := match r with
                   | None => ∅
                   | Some coins => coins
                   end in
      if decide (coinIdentifier ∈ coins) then
        fail (Errorf ("coin " +:+ coinIdentifier
                        +:+ " already exists in account "
                        +:+ PrettyPrintStruct (Account operation)))
      else
        let coins := {[coinIdentifier]} ∪ coins in
        wrapErr ": unable to set coin account"
          (encodeAndSetCoins (Account operation) coins)
  end.

Definition tryRemovingCoin (operation : Operation) (identiferKey : string)
  : M unit :=
  match Metadata operation !! identiferKey with
  | None => ret ()
  | Some (MetaOther rawIdentifier) =>
      fail (Errorf ("unable to parse spent coin " +:+ rawIdentifier))
  | Some (MetaString coinIdentifier) =>
      exists_ ← wrapErr ": unable to query for coin"
                  (Get (getCoinKey coinIdentifier));
      match exists_ with
      | None => ret ()
      | Some _ =>
          wrapErr ": unable to delete coin"
            (Delete (getCoinKey coinIdentifier));;
          r ← wrapErr ": unable to query coin account"
                (getAndDecodeCoins (Account operation));
          match r with
          | None =>
              (* [%w] of a nil error wraps nothing *)
              fail (Errorf "%!w(<nil>): unable to find owner of coin")
          | Some coins =>
              if decide (coinIdentifier ∈ coins) then
                let coins := coins ∖ {[coinIdentifier]} in
                wrapErr ": unable to set coin account"
                  (encodeAndSetCoins (Account operation) coins)
              else
                fail (Errorf ("unable to find coin " +:+ coinIdentifier
                                +:+ " in account "
                                +:+ PrettyPrintStruct (Account operation)))
          end
      end
  end.

(** The body of the inner loop of [AddingBlock]. *)
Definition addingOperation (c : CoinStorage) (txn : Transaction)
    (operation : Operation) : M unit :=
  match OperationSuccessful c operation with
  | Err err => fail (Wrapf err ": unable to parse operation success")
  | Ok success =>
      if negb success then ret ()
      else
        match OpAmount operation with
        | None => ret ()
        | Some _ =>
            wrapErr ": unable to add coin"
              (tryAddingCoin txn operation coinCreated);;
            wrapErr ": unable to remove coin"
              (tryRemovingCoin operation coinSpent)
        end
  end.

Definition CoinAddingBlock (c : CoinStorage) (block : Block)
  : M (option CommitWorker) :=
  forEach (λ txn, forEach (addingOperation c txn) (Operations txn))
    (Transactions block);;
  ret None.

(** The body of the inner loop of [RemovingBlock]: spent coins come back,
    created coins go. *)
Definition removingOperation (c : CoinStorage) (txn : Transaction)
    (operation : Operation) : M unit :=
  match OperationSuccessful c operation with
  | Err err => fail (Wrapf err ": unable to parse operation success")
  | Ok success =>
      if negb success then ret ()
      else
        match OpAmount operation with
        | None => ret ()
        | Some _ =>
            wrapErr ": unable to add coin"
              (tryAddingCoin txn operation coinSpent);;
            wrapErr ": unable to remove coin"
              (tryRemovingCoin operation coinCreated)
        end
  end.

Definition CoinRemovingBlock (c : CoinStorage) (block : Block)
  : M (option CommitWorker) :=
  forEach (λ txn, forEach (removingOperation c txn) (Operations txn))
    (Transactions block);;
  ret None.

(** [CoinStorage] implements the [BlockWorker] interface. *)
Definition CoinStorage_BlockWorker (c : CoinStorage) : BlockWorker :=
  mkBlockWorker (CoinAddingBlock c) (CoinRemovingBlock c).

(** The loop of [GetCoins] over the coin identifiers, in the order [range]
    yields them. *)
Fixpoint getCoinsLoop (transaction : DatabaseTransaction)
    (coinIdentifiers : list string) (coinArr : list Coin)
  : option (list Coin) * option error :=
  match coinIdentifiers with
  | [] => (Some coinArr, None)
  | coinIdentifier :: rest =>
      match getAndDecodeCoin coinIdentifier transaction with
      | (_, Err err) => (None, Some (Wrapf err ": unable to query coin"))
      | (_, Ok None) =>
          (* [%w] of a nil error wraps nothing *)
          (None,
           Some (Errorf ("%!w(<nil>): unable to get coin "
                           +:+ coinIdentifier)))
      | (_, Ok (Some coin)) =>
          getCoinsLoop transaction rest (coinArr ++ [coin])
      end
  end.

Definition GetCoins (db : Database) (accountIdentifier : AccountIdentifier)
  : option (list Coin) * option error :=
  let transaction := NewDatabaseTransaction db false in
  match getAndDecodeCoins accountIdentifier transaction with
  | (_, Err err) =>
      (None, Some (Wrapf err ": unable to query account identifier"))
  | (_, Ok None) => (Some [], None)
  | (_, Ok (Some coins)) =>
      getCoinsLoop transaction (elements coins) []
  end.

End Storage.

(** ** Vocabulary of the statements *)

Section Vocabulary.
Context {bytes World : Type}.

(** What worker [w] does for a block that is being added or removed. *)
Definition workOn (adding : bool) (w : @BlockWorker bytes World)
    (block : Block) : M (option CommitWorker) :=
  if adding then AddingBlock w block else RemovingBlock w block.

(** The callbacks that are not nil, in registration order. *)
Definition nonNil (cws : list (option (@CommitWorker World)))
  : list (@CommitWorker World) := omap id cws.

(** Every callback of the list returns nil when they run one after the
    other from [world]. *)
Fixpoint allSucceed (cbs : list (@CommitWorker World)) (world : World)
  : Prop :=
  match cbs with
  | [] => True
  | cb :: rest => (cb world).2 = None ∧ allSucceed rest (cb world).1
  end.

(** The world after running all callbacks of the list. *)
Definition worldAfter (cbs : list (@CommitWorker World)) (world : World)
  : World := foldl (λ w cb, (cb w).1) world cbs.

(** What the callback loop may do: run every non-nil callback in order, or
    run them in order up to the first that fails and return its error. *)
Definition callbacksRun (cbs : list (@CommitWorker World)) (world : World)
    (world' : World) (r : option error) : Prop :=
  (r = None ∧ allSucceed cbs world ∧ world' = worldAfter cbs world)
  ∨ (∃ pre cb post e,
       cbs = pre ++ cb :: post ∧ allSucceed pre world
       ∧ cb (worldAfter pre world) = (world', Some e) ∧ r = Some e).

(** What [callWorkersAndCommit] may return for the transaction [txn]:
    without a successful commit, the store and the world are as before;
    after a successful commit, the store is the transaction's working copy
    and the callbacks have run as [callbacksRun] says. *)
Definition commitOutcome (workers : list (@BlockWorker bytes World))
    (fault : option error) (db : gmap string bytes) (world : World)
    (block : Block) (txn : gmap string bytes) (adding : bool)
    (res : gmap string bytes * World * option error) : Prop :=
  match callWorkers adding block workers txn with
  | (_, Err e) => res = (db, world, Some e)
  | (txn', Ok cws) =>
      match fault with
      | Some e => res = (db, world, Some e)
      | None =>
          res.1.1 = txn' ∧ callbacksRun (nonNil cws) world res.1.2 res.2
      end
  end.

End Vocabulary.

Section IndexVocabulary.
Context {bytes : Type} (emptyBytes : bytes).
Context `{!Codec bytes Block, !Codec bytes BlockIdentifier,
          !Codec bytes (gmap string Z)}.
Context {World : Type}.

(** The hashes of the transactions of a block, in order. *)
Definition txHashes (block : Block) : list string :=
  (λ txn, TxHash (TransactionIdentifier_ txn)) <$> Transactions block.

(** [strings.HasPrefix s p] *)
Fixpoint hasPrefix (p s : string) : bool :=
  match p with
  | EmptyString => true
  | String a p' =>
      match s with
      | EmptyString => false
      | String b s' => if Ascii.eqb a b then hasPrefix p' s' else false
      end
  end.

(** The keys of the four namespaces of [BlockStorage]. *)
Definition isIndexKey (key : string) : bool :=
  String.eqb key headBlockKey
  || hasPrefix "block/" key
  || hasPrefix "block-hash/" key
  || hasPrefix "transaction-hash/" key.

(** Code in a transaction that leaves the keys of [BlockStorage] alone,
    whatever it returns. *)
Definition leavesIndex {A} (m : @M bytes A) : Prop :=
  ∀ (t t' : gmap string bytes) r,
    m t = (t', r) → ∀ key, isIndexKey key = true → t' !! key = t !! key.

(** A worker that leaves the keys of [BlockStorage] alone. *)
Definition keepsIndex (w : @BlockWorker bytes World) : Prop :=
  ∀ adding block (t t' : gmap string bytes) cw,
    workOn adding w block t = (t', Ok cw) →
    ∀ key, isIndexKey key = true → t' !! key = t !! key.

(** The reverse-index key of a transaction of a block. *)
Definition txKey (txn : Transaction) : string :=
  getTransactionHashKey (TransactionIdentifier_ txn).

(** The two writes of [AddBlock] before the block-hash guard. *)
Definition blockAndHead (block : Block) (t : gmap string bytes)
  : gmap string bytes :=
  <[getHeadBlockKey := encode (BlockIdentifier_ block)]>
    (<[getBlockKey (BlockIdentifier_ block) := encode block]> t).

(** The sightings that [storeTransactionHash] starts from: the decoded
    mapping, or the empty one when the key is absent. *)
Definition sightings (t : gmap string bytes)
    (transactionIdentifier : TransactionIdentifier)
  : option (gmap string Z) :=
  match t !! getTransactionHashKey transactionIdentifier with
  | None => Some ∅
  | Some val => decode val
  end.

(** Stores that are built from the empty store by [AddBlock] and
    [RemoveBlock], whatever each call returned. *)
Inductive reachable (workers : list (@BlockWorker bytes World))
  : gmap string bytes → Prop :=
| reachable_empty : reachable workers ∅
| reachable_AddBlock db fault world block :
    reachable workers db →
    reachable workers
      (AddBlock emptyBytes workers fault db world block).1.1
| reachable_RemoveBlock db fault world blockIdentifier :
    reachable workers db →
    reachable workers
      (RemoveBlock workers fault db world blockIdentifier).1.1.

(** Every stored block record sits under the key of its own identifier,
    has a block-hash marker, and is the only record with its hash. *)
Definition blocksOk (t : gmap string bytes) : Prop :=
  ∀ id v, t !! getBlockKey id = Some v →
    (∃ b, v = encode b ∧ BlockIdentifier_ b = id ∧ NoDup (txHashes b))
    ∧ is_Some (t !! getBlockHashKey id)
    ∧ (∀ id', Hash id' = Hash id → is_Some (t !! getBlockKey id') →
         id' = id).

(** Every stored reverse-index value encodes a non-empty mapping. *)
Definition txIndexOk (t : gmap string bytes) : Prop :=
  ∀ T v, t !! getTransactionHashKey T = Some v →
    ∃ m : gmap string Z, v = encode m ∧ m ≠ ∅.

(** The blocks met by walking parent pointers from [head], at most [n] of
    them, the most recent first; the walk ends at the first identifier that
    has no stored block. *)
Fixpoint walk (n : nat) (db : gmap string bytes) (head : BlockIdentifier)
  : list Block :=
  match n with
  | O => []
  | S n' =>
      match GetBlock db head with
      | Err _ => []
      | Ok block => block :: walk n' db (ParentBlockIdentifier block)
      end
  end.


(** Every block read under an identifier carries that identifier. *)
Definition keyedById (db : gmap string bytes) : Prop :=
  ∀ id block, GetBlock db id = Ok block → BlockIdentifier_ block = id.


(** Every block read under an identifier carries that identifier, and the
    index of its parent is smaller than its own (the index is a height). *)
Definition chainOk (db : gmap string bytes) : Prop :=
  ∀ id block, GetBlock db id = Ok block →
    BlockIdentifier_ block = id
    ∧ Index (ParentBlockIdentifier block) < Index id.

End IndexVocabulary.

(** ** More vocabulary: what the block index keeps true *)

Section InvariantVocabulary.
Context {bytes : Type}.
Context `{!Codec bytes Block, !Codec bytes BlockIdentifier,
          !Codec bytes (gmap string Z)}.

(** The identifiers of the transactions of a block. *)
Definition txIds (block : Block) : list TransactionIdentifier :=
  TransactionIdentifier_ <$> Transactions block.

(** The reverse index is exact: the mapping of a transaction hash has the
    entry (hash, index) exactly when the block stored under that identifier
    contains the transaction. *)
Definition revIndexOk (db : gmap string bytes) : Prop :=
  ∀ T h i,
    (∃ m : gmap string Z,
        db !! getTransactionHashKey T = Some (encode m) ∧ m !! h = Some i)
    ↔ (∃ b, db !! getBlockKey (mkBlockIdentifier h i) = Some (encode b)
            ∧ T ∈ txIds b).

(** The head key holds an encoded block identifier. *)
Definition headOk (db : gmap string bytes) : Prop :=
  ∀ v, db !! getHeadBlockKey = Some v →
       ∃ id : BlockIdentifier, v = encode id.

(** A store without a head has no key of the block index at all. *)
Definition emptyWithoutHead (db : gmap string bytes) : Prop :=
  db !! getHeadBlockKey = None →
  ∀ key, isIndexKey key = true → db !! key = None.

(** Every block-hash marker holds the empty byte string. *)
Definition markersOk (emptyBytes : bytes) (db : gmap string bytes) : Prop :=
  ∀ id v, db !! getBlockHashKey id = Some v → v = emptyBytes.

(** Everything the block index keeps true. *)
Definition indexInv (emptyBytes : bytes) (db : gmap string bytes) : Prop :=
  blocksOk db ∧ txIndexOk db ∧ revIndexOk db ∧ headOk db
  ∧ emptyWithoutHead db ∧ markersOk emptyBytes db.

(** [ids], the most recent first, are the blocks met from [head] along
    parent pointers, each stored under the identifier it carries. *)
Fixpoint chainFrom (db : gmap string bytes) (head : BlockIdentifier)
    (ids : list BlockIdentifier) : Prop :=
  match ids with
  | [] => True
  | id :: rest =>
      id = head
      ∧ ∃ block, GetBlock db id = Ok block
                 ∧ chainFrom db (ParentBlockIdentifier block) rest
  end.

End InvariantVocabulary.

Section CoinVocabulary.
Context {bytes : Type} `{!Codec bytes (gset string)}.
Variable typesHash : AccountIdentifier → string.

(** The coins [CoinStorage] takes an account to hold in a store: the stored
    set, and no coin when no set is stored. *)
Definition heldCoins (t : gmap string bytes)
    (accountIdentifier : AccountIdentifier) (coins : gset string) : Prop :=
  match t !! getCoinAccountKey typesHash accountIdentifier with
  | None => coins = ∅
  | Some val => decode val = Some coins
  end.

End CoinVocabulary.

(** ** A concrete store for examples

    Encoded values are kept as tagged values, which makes a codec that
    round-trips; the blocks are those of block_storage_test.go. *)

Module Sample.

Inductive Stored :=
| SBlock (b : Block)
| SBlockIdentifier (id : BlockIdentifier)
| SBlocks (m : gmap string Z)
| SCoin (c : Coin)
| SCoins (s : gset string)
| SEmpty.

#[export] Instance codec_Block : Codec Stored Block :=
  {| encode := SBlock;
     decode := λ v, match v with SBlock b => Some b | _ => None end;
     decode_encode := λ _, eq_refl |}.

#[export] Instance codec_BlockIdentifier : Codec Stored BlockIdentifier :=
  {| encode := SBlockIdentifier;
     decode := λ v, match v with SBlockIdentifier b => Some b | _ => None end;
     decode_encode := λ _, eq_refl |}.

#[export] Instance codec_blocks : Codec Stored (gmap string Z) :=
  {| encode := SBlocks;
     decode := λ v, match v with SBlocks b => Some b | _ => None end;
     decode_encode := λ _, eq_refl |}.

#[export] Instance codec_Coin : Codec Stored Coin :=
  {| encode := SCoin;
     decode := λ v, match v with SCoin b => Some b | _ => None end;
     decode_encode := λ _, eq_refl |}.

#[export] Instance codec_coins : Codec Stored (gset string) :=
  {| encode := SCoins;
     decode := λ v, match v with SCoins b => Some b | _ => None end;
     decode_encode := λ _, eq_refl |}.

(** Commit callbacks append a line to a log. *)
Definition World : Type := list string.

Definition logLine (line : string) : @CommitWorker World :=
  λ world, (world ++ [line], None).

Definition failingCallback (line : string) : @CommitWorker World :=
  λ world, (world ++ [line], Some (ErrExternal line)).

Definition simpleTransactionFactory (hash address value : string)
    (currency : string) : Transaction :=
  mkTransaction (mkTransactionIdentifier hash)
    [mkOperation 0 "Transfer" "Success" (mkAccountIdentifier address None)
       (Some (mkAmount value currency)) ∅].

Definition newBlock : Block :=
  mkBlock (mkBlockIdentifier "blah 1" 1) (mkBlockIdentifier "blah 0" 0) 1
    [simpleTransactionFactory "blahTx" "addr1" "100" "hello"].

Definition newBlock2 : Block :=
  mkBlock (mkBlockIdentifier "blah 2" 2) (mkBlockIdentifier "blah 1" 1) 1
    [simpleTransactionFactory "blahTx" "addr1" "100" "hello"].

Definition duplicateTxBlock : Block :=
  mkBlock (mkBlockIdentifier "blah 4" 4) (mkBlockIdentifier "blah 3" 3) 1
    [simpleTransactionFactory "blahTx3" "addr2" "200" "hello";
     simpleTransactionFactory "blahTx3" "addr2" "200" "hello"].

(** A worker that writes a key of its own and logs after commit. *)
Definition loggingWorker (line : string) : @BlockWorker Stored World :=
  mkBlockWorker
    (λ block, bind (Set_ ("aux/" +:+ line) SEmpty)
                (λ _, ret (Some (logLine line))))
    (λ block, bind (Delete ("aux/" +:+ line))
                (λ _, ret (Some (logLine line)))).

(** A worker whose [AddingBlock] writes and then fails. *)
Definition failingWorker (msg : string) : @BlockWorker Stored World :=
  mkBlockWorker
    (λ block, bind (Set_ ("aux/" +:+ msg) SEmpty)
                (λ _, fail (ErrExternal msg)))
    (λ block, ret None).

(** A worker that hands back no callback. *)
Definition nilWorker : @BlockWorker Stored World :=
  mkBlockWorker (λ block, ret None) (λ block, ret None).

(** A worker whose callback fails after logging. *)
Definition failingCallbackWorker (line : string)
  : @BlockWorker Stored World :=
  mkBlockWorker (λ block, ret (Some (failingCallback line)))
    (λ block, ret (Some (failingCallback line))).

Definition emptyDb : gmap string Stored := ∅.

(** The store after [AddBlock newBlock] on the empty store. *)
Definition db1 : gmap string Stored :=
  (AddBlock SEmpty [] None emptyDb ([] : World) newBlock).1.1.

(** Stand-ins for [types.Hash] and [types.PrettyPrintStruct]. *)
Definition sampleHash (account : AccountIdentifier) : string :=
  Address account +:+ "|" +:+ default "" (SubAccount account).

Definition samplePretty (account : AccountIdentifier) : string :=
  "{address: " +:+ Address account +:+ "}".

(** An asserter in the manner of coin_storage_test.go: the statuses of the
    test blocks are known, any other is an error. *)
Definition sampleCoinStorage : CoinStorage :=
  mkCoinStorage (λ operation,
    if String.eqb (Status operation) "success" then Ok true
    else if String.eqb (Status operation) "Success" then Ok true
    else if String.eqb (Status operation) "failure" then Ok false
    else Err (Errorf (Status operation +:+ " not found"))).

Definition account : AccountIdentifier := mkAccountIdentifier "blah" None.
Definition account2 : AccountIdentifier := mkAccountIdentifier "blah2" None.

(** The third operation of [coinBlock] in coin_storage_test.go: it failed,
    and its metadata names a spent coin. *)
Definition failedOperation : Operation :=
  mkOperation 0 "" "failure" account2 (Some (mkAmount "20" ""))
    (<[coinSpent := MetaString "coin2"]> ∅).

Definition coinBlock : Block :=
  mkBlock (mkBlockIdentifier "" 0) (mkBlockIdentifier "" 0) 0
    [mkTransaction (mkTransactionIdentifier "")
       [mkOperation 0 "" "success" account (Some (mkAmount "10" ""))
          (<[coinCreated := MetaString "coin1"]> ∅);
        mkOperation 0 "" "success" account2 (Some (mkAmount "15" ""))
          (<[coinSpent := MetaString "coin2"]> ∅);
        failedOperation]].

(** The coin index as a block worker. *)
Definition coinWorker : @BlockWorker Stored World :=
  CoinStorage_BlockWorker sampleHash samplePretty sampleCoinStorage.

(** A block whose only transaction creates coin1 for [account]. *)
Definition utxoBlock : Block :=
  mkBlock (mkBlockIdentifier "utxo 1" 1) (mkBlockIdentifier "utxo 0" 0) 1
    [mkTransaction (mkTransactionIdentifier "utxoTx")
       [mkOperation 0 "Transfer" "success" account (Some (mkAmount "10" ""))
          (<[coinCreated := MetaString "coin1"]> ∅)]].

(** The store after [AddBlock utxoBlock] on the empty store, with the coin
    index registered. *)
Definition dbCoins : gmap string Stored :=
  (AddBlock SEmpty [coinWorker] None emptyDb ([] : World) utxoBlock).1.1.

(** A store in which the coin set of [account] names a coin that has no
    record. *)
Definition danglingDb : gmap string Stored :=
  <[getCoinAccountKey sampleHash account := SCoins {["coin9"]}]> ∅.

(** The store after [AddBlock newBlock2] on [db1]. *)
Definition db2 : gmap string Stored :=
  (AddBlock SEmpty [] None db1 ([] : World) newBlock2).1.1.

(** The sightings of transaction blahTx in [db2]. *)
Definition blahTxSightings : gmap string Z :=
  <["blah 2" := 2]> (<["blah 1" := 1]> ∅).

(** The operation of [utxoBlock], which creates coin1 for [account], and its
    transaction. *)
Definition utxoOperation : Operation :=
  mkOperation 0 "Transfer" "success" account (Some (mkAmount "10" ""))
    (<[coinCreated := MetaString "coin1"]> ∅).

Definition utxoTransaction : Transaction :=
  mkTransaction (mkTransactionIdentifier "utxoTx") [utxoOperation].

(** An operation of [account] that spends coin1, and its transaction. *)
Definition spendOperation : Operation :=
  mkOperation 0 "Transfer" "success" account (Some (mkAmount "-10" ""))
    (<[coinSpent := MetaString "coin1"]> ∅).

Definition spendTransaction : Transaction :=
  mkTransaction (mkTransactionIdentifier "spendTx") [spendOperation].



(** A worker whose [RemovingBlock] writes and then fails. *)
Definition failingRemover (msg : string) : @BlockWorker Stored World :=
  mkBlockWorker
    (λ block, ret None)
    (λ block, bind (Set_ ("aux/" +:+ msg) SEmpty)
                (λ _, fail (ErrExternal msg))).

End Sample.

(** ** Facts about keys: the namespaces are disjoint and every key function is
    injective. *)

Lemma append_nil_l (s : string) : "" +:+ s = s.
Proof. reflexivity. Qed.

Lemma append_cons (c : ascii) (r s : string) :
  String c r +:+ s = String c (r +:+ s).
Proof. reflexivity. Qed.

(** [String.append] is kept folded by stdpp; unfold it on literal prefixes. *)
Ltac str_simpl := rewrite ?append_cons, ?append_nil_l.
Ltac str_simpl_in H := rewrite ?append_cons, ?append_nil_l in H.

Fixpoint has_slash (s : string) : bool :=
  match s with
  | EmptyString => false
  | String c r => if decide (c = "/"%char) then true else has_slash r
  end.

Lemma has_slash_app s1 s2 :
  has_slash (s1 +:+ s2) = has_slash s1 || has_slash s2.
Proof.
  induction s1 as [|c r IH]; str_simpl; simpl; [done|].
  by case_decide.
Qed.

Lemma append_slash_inj h h' s s' :
  has_slash s = false → has_slash s' = false →
  h +:+ "/" +:+ s = h' +:+ "/" +:+ s' → h = h' ∧ s = s'.
Proof.
  intros Hs Hs'. revert h'.
  induction h as [|c r IH]; intros [|c' r']; str_simpl; intros Heq.
  - by simplify_eq.
  - injection Heq as <- ->.
    rewrite has_slash_app in Hs. str_simpl_in Hs. simpl in Hs.
    by rewrite orb_true_r in Hs.
  - injection Heq as -> <-.
    rewrite has_slash_app in Hs'. str_simpl_in Hs'. simpl in Hs'.
    by rewrite orb_true_r in Hs'.
  - injection Heq as -> Heq.
    destruct (IH _ Heq) as [-> ->]. done.
Qed.

Lemma pretty_N_char_no_slash x : pretty_N_char x ≠ "/"%char.
Proof. unfold pretty_N_char. by repeat case_match. Qed.

Lemma pretty_N_go_no_slash x s :
  has_slash s = false → has_slash (pretty_N_go x s) = false.
Proof.
  revert s. induction (N.lt_wf_0 x) as [x _ IH]; intros s Hs.
  assert (x = 0 ∨ 0 < x)%N as [->|Hx] by lia.
  - by rewrite pretty_N_go_0.
  - rewrite pretty_N_go_step by done.
    apply IH; [by apply N.div_lt|].
    simpl. case_decide as Hc; [|done].
    by apply pretty_N_char_no_slash in Hc.
Qed.

Lemma pretty_N_no_slash (x : N) : has_slash (pretty x) = false.
Proof.
  unfold pretty, pretty_N. case_decide; [done|].
  by apply pretty_N_go_no_slash.
Qed.

Lemma pretty_Z_no_slash (z : Z) : has_slash (pretty z) = false.
Proof.
  destruct z as [|p|p]; [done|apply pretty_N_no_slash|].
  change (pretty (Z.neg p)) with ("-" +:+ pretty (N.pos p)).
  rewrite has_slash_app, pretty_N_no_slash. done.
Qed.

Lemma getBlockKey_inj id1 id2 : getBlockKey id1 = getBlockKey id2 → id1 = id2.
Proof.
  destruct id1 as [h1 i1], id2 as [h2 i2]. unfold getBlockKey. simpl.
  intros Heq. simplify_eq.
  apply append_slash_inj in Heq as [-> Hi]; [|apply pretty_Z_no_slash..].
  by apply (inj pretty) in Hi as ->.
Qed.

Lemma getBlockHashKey_eq id1 id2 :
  getBlockHashKey id1 = getBlockHashKey id2 ↔ Hash id1 = Hash id2.
Proof.
  unfold getBlockHashKey. simpl. split; [|by intros ->].
  intros Heq. by simplify_eq.
Qed.

Lemma getTransactionHashKey_inj t1 t2 :
  getTransactionHashKey t1 = getTransactionHashKey t2 → t1 = t2.
Proof.
  destruct t1, t2. unfold getTransactionHashKey. simpl.
  intros Heq. by simplify_eq.
Qed.

Lemma getCoinKey_inj c1 c2 : getCoinKey c1 = getCoinKey c2 → c1 = c2.
Proof. unfold getCoinKey. simpl. intros Heq. by simplify_eq. Qed.

Lemma head_ne_block id : getHeadBlockKey ≠ getBlockKey id.
Proof. done. Qed.
Lemma head_ne_blockHash id : getHeadBlockKey ≠ getBlockHashKey id.
Proof. done. Qed.
Lemma head_ne_txHash t : getHeadBlockKey ≠ getTransactionHashKey t.
Proof. done. Qed.
Lemma block_ne_blockHash id id' : getBlockKey id ≠ getBlockHashKey id'.
Proof. done. Qed.
Lemma block_ne_txHash id t : getBlockKey id ≠ getTransactionHashKey t.
Proof. done. Qed.
Lemma blockHash_ne_txHash id t : getBlockHashKey id ≠ getTransactionHashKey t.
Proof. done. Qed.




(** ** Running code in a transaction *)

Section MonadFacts.
Context {bytes : Type}.
Implicit Types t : gmap string bytes.

Lemma bind_Ok {A B} (m : M A) (k : A → M B) t t' a :
  m t = (t', Ok a) → bind m k t = k a t'.
Proof. unfold bind. by intros ->. Qed.

Lemma bind_Err {A B} (m : M A) (k : A → M B) t t' e :
  m t = (t', Err e) → bind m k t = (t', Err e).
Proof. unfold bind. by intros ->. Qed.

Lemma bind_inv_Ok {A B} (m : M A) (k : A → M B) t t' (b : B) :
  bind m k t = (t', Ok b) →
  ∃ t1 a, m t = (t1, Ok a) ∧ k a t1 = (t', Ok b).
Proof.
  unfold bind. destruct (m t) as [t1 [a|e]]; [|done]. eauto.
Qed.

Lemma bind_inv_Err {A B} (m : M A) (k : A → M B) t t' e :
  bind m k t = (t', Err e) →
  m t = (t', Err e) ∨ ∃ t1 a, m t = (t1, Ok a) ∧ k a t1 = (t', Err e).
Proof.
  unfold bind. destruct (m t) as [t1 [a|e1]]; [by eauto|].
  intros [= -> ->]. by left.
Qed.

Lemma wrapErr_inv_Ok {A} msg (m : M A) t t' (a : A) :
  wrapErr msg m t = (t', Ok a) → m t = (t', Ok a).
Proof.
  unfold wrapErr. destruct (m t) as [t1 [a'|e]]; [|done]. by intros [= -> ->].
Qed.

Lemma wrapErr_Ok {A} msg (m : M A) t t' (a : A) :
  m t = (t', Ok a) → wrapErr msg m t = (t', Ok a).
Proof. unfold wrapErr. by intros ->. Qed.

Lemma wrapErr_Err {A} msg (m : M A) t t' e :
  m t = (t', Err e) → wrapErr msg m t = (t', Err (Wrapf e msg)).
Proof. unfold wrapErr. by intros ->. Qed.

Lemma errors_Is_unfold err target :
  errors_Is err target =
    if decide (err = target) then true
    else match err with
         | Wrapf cause _ => errors_Is cause target
         | _ => false
         end.
Proof. by destruct err. Qed.

Lemma errors_Is_refl e : errors_Is e e = true.
Proof. rewrite errors_Is_unfold. by rewrite decide_True. Qed.

Lemma errors_Is_Wrapf e msg target :
  errors_Is e target = true → errors_Is (Wrapf e msg) target = true.
Proof. intros He. rewrite errors_Is_unfold. by case_decide. Qed.

Lemma forEach_app {A} (f : A → M unit) xs ys t :
  forEach f (xs ++ ys) t =
    match forEach f xs t with
    | (t', Ok _) => forEach f ys t'
    | (t', Err e) => (t', Err e)
    end.
Proof.
  revert t. induction xs as [|x xs IH]; intros t; simpl; [done|].
  unfold bind. destruct (f x t) as [t1 [[]|e]]; [apply IH|done].
Qed.

End MonadFacts.

(** ** Workers, commit and callbacks *)

Section Workers.
Context {bytes World : Type}.
Implicit Types (t txn db : gmap string bytes) (world : World).
Implicit Types (workers : list (@BlockWorker bytes World)).
Implicit Types (cw : @CommitWorker World).

Lemma callWorkers_app_Err adding block workers1 w workers2 t t1 cws t2 e :
  callWorkers adding block workers1 t = (t1, Ok cws) →
  workOn adding w block t1 = (t2, Err e) →
  callWorkers adding block (workers1 ++ w :: workers2) t = (t2, Err e).
Proof.
  revert t cws. induction workers1 as [|w1 ws IH]; intros t cws; simpl.
  - intros [= -> <-] Hw. unfold workOn in Hw. unfold bind. by rewrite Hw.
  - intros Hrun Hw. apply bind_inv_Ok in Hrun as (ta & cw & Hw1 & Hrun).
    apply bind_inv_Ok in Hrun as (tb & cws' & Hrest & Hret).
    injection Hret as -> <-.
    rewrite (bind_Ok _ _ _ _ _ Hw1).
    by rewrite (bind_Err _ _ _ _ _ (IH _ _ Hrest Hw)).
Qed.

Lemma runCommitWorkers_spec cws world :
  callbacksRun (nonNil cws) world
    (runCommitWorkers cws world).1 (runCommitWorkers cws world).2.
Proof.
  revert world. induction cws as [|[cb|] cws IH]; intros world; simpl.
  - left. done.
  - destruct (cb world) as [world1 [e|]] eqn:Hcb; simpl.
    + right. exists [], cb, (nonNil cws), e. simpl. by rewrite Hcb.
    + destruct (IH world1) as [(Hr & Hall & Hw)|(pre & cb' & post & e & Hc)].
      * left. unfold worldAfter. simpl. rewrite Hcb. done.
      * destruct Hc as (Hcbs & Hall & Hrun & Hr).
        right. exists (cb :: pre), cb', post, e.
        unfold worldAfter. simpl. rewrite Hcb. simpl.
        split_and!; [by rewrite Hcbs|done..].
  - apply IH.
Qed.

End Workers.

(** ** AddBlock and RemoveBlock: workers and callbacks *)

Section Atomicity.
Context {bytes : Type} (emptyBytes : bytes).
Context `{!Codec bytes Block, !Codec bytes BlockIdentifier,
          !Codec bytes (gmap string Z)}.
Context {World : Type}.
Implicit Types (t txn db : gmap string bytes) (world : World).
Implicit Types (workers : list (@BlockWorker bytes World)).

Lemma callWorkersAndCommit_outcome workers fault db world block txn adding :
  commitOutcome workers fault db world block txn adding
    (callWorkersAndCommit workers fault db world block txn adding).
Proof.
  unfold commitOutcome, callWorkersAndCommit.
  destruct (callWorkers adding block workers txn) as [txn' [cws|e]]; [|done].
  destruct fault as [e|]; simpl; [done|].
  pose proof (runCommitWorkers_spec cws world) as Hrun.
  destruct (runCommitWorkers cws world) as [world' r]. done.
Qed.


End Atomicity.

(** ** What the index writes do to the working copy *)

Section IndexWrites.
Context {bytes : Type} (emptyBytes : bytes).
Context `{!Codec bytes Block, !Codec bytes BlockIdentifier,
          !Codec bytes (gmap string Z)}.
Context {World : Type}.
Implicit Types (t db : gmap string bytes) (world : World).
Implicit Types (txn : Transaction) (txs : list Transaction).
Implicit Types (workers : list (@BlockWorker bytes World)).
Implicit Types (id : BlockIdentifier) (T : TransactionIdentifier).
Implicit Types (m : gmap string Z).

Lemma encode_inj {A} `{!Codec bytes A} (x y : A) :
  encode x = encode y → x = y.
Proof.
  intros Heq. apply (f_equal (@decode bytes A _)) in Heq.
  rewrite !decode_encode in Heq. by simplify_eq.
Qed.

Lemma isIndexKey_head : isIndexKey getHeadBlockKey = true.
Proof. reflexivity. Qed.
Lemma isIndexKey_block id : isIndexKey (getBlockKey id) = true.
Proof. reflexivity. Qed.
Lemma isIndexKey_blockHash id : isIndexKey (getBlockHashKey id) = true.
Proof. reflexivity. Qed.
Lemma isIndexKey_txHash T : isIndexKey (getTransactionHashKey T) = true.
Proof. reflexivity. Qed.

Lemma storeBlockHash_run id t :
  storeBlockHash emptyBytes id t =
    match t !! getBlockHashKey id with
    | Some _ =>
        (t, Err (Wrapf ErrDuplicateBlockHash
                   ("%w: duplicate block hash " +:+ Hash id +:+ " found")))
    | None => (<[getBlockHashKey id := emptyBytes]> t, Ok ())
    end.
Proof.
  unfold storeBlockHash, bind, Get, fail, Set_.
  by destruct (t !! getBlockHashKey id).
Qed.

Lemma storeTransactionHash_run id T t :
  ∃ e1 e2,
  storeTransactionHash id T t =
    match sightings t T with
    | None => (t, Err e1)
    | Some m =>
        match m !! Hash id with
        | Some _ => (t, Err (Wrapf ErrDuplicateTransactionHash e2))
        | None =>
            (<[getTransactionHashKey T :=
                 encode (<[Hash id := Index id]> m)]> t, Ok ())
        end
    end.
Proof.
  unfold storeTransactionHash, sightings, bind, Get, fail, Set_, ret,
    wrapErr, decodeM.
  do 2 eexists.
  destruct (t !! getTransactionHashKey T) as [v|]; [|by rewrite lookup_empty].
  destruct (decode v) as [m|]; simpl; [|done].
  by destruct (m !! Hash id).
Qed.

Lemma removeTransactionHash_run id T t :
  ∃ e1 e2 e3,
  removeTransactionHash id T t =
    match t !! getTransactionHashKey T with
    | None => (t, Err e1)
    | Some v =>
        match decode v : option (gmap string Z) with
        | None => (t, Err e2)
        | Some m =>
            match m !! Hash id with
            | None => (t, Err e3)
            | Some _ =>
                if decide (delete (Hash id) m = ∅)
                then (delete (getTransactionHashKey T) t, Ok ())
                else (<[getTransactionHashKey T :=
                          encode (delete (Hash id) m)]> t, Ok ())
            end
        end
    end.
Proof.
  unfold removeTransactionHash, bind, Get, fail, Set_, Delete, ret,
    wrapErr, decodeM.
  do 3 eexists.
  destruct (t !! getTransactionHashKey T) as [v|]; [|done].
  destruct (decode v) as [m|]; simpl; [|done].
  destruct (m !! Hash id); [|done].
  destruct (decide (size (delete (Hash id) m) = 0%nat)) as [Hs|Hs].
  - apply map_size_empty_inv in Hs. by rewrite decide_True.
  - rewrite decide_False; [done|]. intros Hm. by rewrite Hm in Hs.
Qed.

(** The body of the loop of [AddBlock] over the transactions. *)
Local Abbreviation storeStep id :=
  (λ txn : Transaction,
     wrapErr ": unable to store transaction hash"
       (storeTransactionHash id (TransactionIdentifier_ txn))).

(** The body of the loop of [RemoveBlock] over the transactions. *)
Local Abbreviation removeStep id :=
  (λ txn : Transaction,
     removeTransactionHash id (TransactionIdentifier_ txn)).

Lemma txKey_inj txn1 txn2 :
  txKey txn1 = txKey txn2 →
  TransactionIdentifier_ txn1 = TransactionIdentifier_ txn2.
Proof. apply getTransactionHashKey_inj. Qed.

Lemma txHash_eq_txKey txn1 txn2 :
  TxHash (TransactionIdentifier_ txn1) = TxHash (TransactionIdentifier_ txn2)
  ↔ txKey txn1 = txKey txn2.
Proof.
  split.
  - unfold txKey, getTransactionHashKey. by intros ->.
  - intros Heq. by rewrite (txKey_inj _ _ Heq).
Qed.

Lemma sightings_insert_eq t T m :
  sightings (<[getTransactionHashKey T := encode m]> t) T = Some m.
Proof.
  unfold sightings. rewrite lookup_insert_eq. apply decode_encode.
Qed.

Lemma sightings_frame t t' T :
  t' !! getTransactionHashKey T = t !! getTransactionHashKey T →
  sightings t' T = sightings t T.
Proof. unfold sightings. by intros ->. Qed.

Lemma storeStep_inv_Ok id txn t t' :
  storeStep id txn t = (t', Ok ()) →
  ∃ m, sightings t (TransactionIdentifier_ txn) = Some m
       ∧ m !! Hash id = None
       ∧ t' = <[txKey txn := encode (<[Hash id := Index id]> m)]> t.
Proof.
  intros Hstep. apply wrapErr_inv_Ok in Hstep.
  destruct (storeTransactionHash_run id (TransactionIdentifier_ txn) t)
    as (e1 & e2 & Hrun).
  rewrite Hrun in Hstep.
  destruct (sightings t (TransactionIdentifier_ txn)) as [m|]; [|done].
  destruct (m !! Hash id) eqn:Hm; [done|].
  injection Hstep as <-. by exists m.
Qed.

Lemma storeLoop_Ok id txs t t' :
  forEach (storeStep id) txs t = (t', Ok ()) →
  NoDup ((λ txn, TxHash (TransactionIdentifier_ txn)) <$> txs)
  ∧ (∀ k, (∀ txn, txn ∈ txs → k ≠ txKey txn) → t' !! k = t !! k)
  ∧ (∀ txn, txn ∈ txs →
       ∃ m, sightings t (TransactionIdentifier_ txn) = Some m
            ∧ m !! Hash id = None
            ∧ t' !! txKey txn
              = Some (encode (<[Hash id := Index id]> m))).
Proof.
  revert t. induction txs as [|txn txs IH]; intros t; simpl.
  - intros [= <-]. split_and!; [constructor|done|].
    intros txn Hin. by apply elem_of_nil in Hin.
  - intros Hrun. apply bind_inv_Ok in Hrun as (t1 & [] & Hstep & Hrest).
    apply storeStep_inv_Ok in Hstep as (m & Hm & Hfresh & ->).
    destruct (IH _ Hrest) as (Hnodup & Hframe & Htxs).
    assert (∀ txn', txn' ∈ txs → txKey txn' ≠ txKey txn) as Hne.
    { intros txn' Hin Heq.
      destruct (Htxs _ Hin) as (m' & Hm' & Hfresh' & _).
      apply txKey_inj in Heq. rewrite Heq in Hm'.
      unfold txKey in Hm'. rewrite sightings_insert_eq in Hm'.
      injection Hm' as <-. by rewrite lookup_insert_eq in Hfresh'. }
    split_and!.
    + apply NoDup_cons. split; [|done].
      intros Hin. apply list_elem_of_fmap in Hin as (txn' & Heq & Hin).
      apply txHash_eq_txKey in Heq. by destruct (Hne _ Hin).
    + intros k Hk. rewrite Hframe.
      * rewrite lookup_insert_ne; [done|].
        intros Heq. apply (Hk txn); [by left|done].
      * intros txn' Hin. apply Hk. by right.
    + intros txn' [->|Hin]%elem_of_cons.
      * exists m. split_and!; [done..|].
        rewrite Hframe; [by rewrite lookup_insert_eq|].
        intros txn' Hin Heq. by destruct (Hne _ Hin).
      * destruct (Htxs _ Hin) as (m' & Hm' & Hfresh' & Hval).
        exists m'. split_and!; [|done..].
        rewrite <-Hm'. symmetry. apply sightings_frame.
        rewrite lookup_insert_ne; [done|]. intros Heq. by destruct (Hne _ Hin).
Qed.

Lemma storeStep_inv_Err id txn t t' e :
  storeStep id txn t = (t', Err e) →
  sightings t (TransactionIdentifier_ txn) ≠ None →
  errors_Is e ErrDuplicateTransactionHash = true.
Proof.
  intros Hstep Hdec. unfold wrapErr in Hstep.
  destruct (storeTransactionHash_run id (TransactionIdentifier_ txn) t)
    as (e1 & e2 & Hrun).
  rewrite Hrun in Hstep.
  destruct (sightings t (TransactionIdentifier_ txn)) as [m|]; [|done].
  destruct (m !! Hash id); [|done].
  injection Hstep as _ <-.
  do 2 apply errors_Is_Wrapf. apply errors_Is_refl.
Qed.

Lemma storeLoop_Err id txs t t' e :
  forEach (storeStep id) txs t = (t', Err e) →
  (∀ txn, txn ∈ txs → sightings t (TransactionIdentifier_ txn) ≠ None) →
  errors_Is e ErrDuplicateTransactionHash = true.
Proof.
  revert t. induction txs as [|txn txs IH]; intros t; simpl; [done|].
  intros Hrun Hdec.
  apply bind_inv_Err in Hrun as [Hstep|(t1 & [] & Hstep & Hrun)]; last first.
  - apply (IH _ Hrun). intros txn' Hin.
    apply storeStep_inv_Ok in Hstep as (m & _ & _ & ->).
    destruct (decide (txKey txn' = txKey txn)) as [Heq|Hne].
    + apply txKey_inj in Heq. rewrite Heq. unfold txKey.
      by rewrite sightings_insert_eq.
    + rewrite (sightings_frame t); [apply Hdec; by right|].
      by rewrite lookup_insert_ne.
  - eapply storeStep_inv_Err; [done|]. apply Hdec. by left.
Qed.

Lemma storeLoop_dup_fails id txs t :
  ¬ NoDup ((λ txn, TxHash (TransactionIdentifier_ txn)) <$> txs) →
  ∃ t' e, forEach (storeStep id) txs t = (t', Err e).
Proof.
  intros Hdup.
  destruct (forEach (storeStep id) txs t) as [t' [[]|e]] eqn:Hrun; [|by eauto].
  by apply storeLoop_Ok in Hrun as [? _].
Qed.

Lemma addBlockWrites_run block t :
  addBlockWrites emptyBytes block t =
    match t !! getBlockHashKey (BlockIdentifier_ block) with
    | Some _ =>
        (blockAndHead block t,
         Err (Wrapf (Wrapf ErrDuplicateBlockHash
                       ("%w: duplicate block hash "
                          +:+ Hash (BlockIdentifier_ block) +:+ " found"))
                ": unable to store block hash"))
    | None =>
        forEach (storeStep (BlockIdentifier_ block)) (Transactions block)
          (<[getBlockHashKey (BlockIdentifier_ block) := emptyBytes]>
             (blockAndHead block t))
    end.
Proof.
  unfold addBlockWrites, StoreHeadBlockIdentifier, bind at 1 2 3, Set_ at 1 2,
    wrapErr at 1.
  rewrite storeBlockHash_run. fold (blockAndHead block t).
  replace (blockAndHead block t !! getBlockHashKey (BlockIdentifier_ block))
    with (t !! getBlockHashKey (BlockIdentifier_ block)).
  - by destruct (t !! getBlockHashKey (BlockIdentifier_ block)).
  - unfold blockAndHead.
    rewrite lookup_insert_ne by apply head_ne_blockHash.
    by rewrite lookup_insert_ne by apply block_ne_blockHash.
Qed.

Lemma addBlockWrites_inv_Ok block db t :
  addBlockWrites emptyBytes block db = (t, Ok ()) →
  let id := BlockIdentifier_ block in
  db !! getBlockHashKey id = None
  ∧ NoDup (txHashes block)
  ∧ t !! getBlockKey id = Some (encode block)
  ∧ t !! getHeadBlockKey = Some (encode id)
  ∧ t !! getBlockHashKey id = Some emptyBytes
  ∧ (∀ txn, txn ∈ Transactions block →
       ∃ m, sightings db (TransactionIdentifier_ txn) = Some m
            ∧ m !! Hash id = None
            ∧ t !! txKey txn = Some (encode (<[Hash id := Index id]> m)))
  ∧ (∀ k, k ≠ getBlockKey id → k ≠ getHeadBlockKey →
          k ≠ getBlockHashKey id →
          (∀ txn, txn ∈ Transactions block → k ≠ txKey txn) →
          t !! k = db !! k).
Proof.
  rewrite addBlockWrites_run. intros Hrun id. subst id.
  destruct (db !! getBlockHashKey _) eqn:Hfresh; [done|].
  apply storeLoop_Ok in Hrun as (Hnodup & Hframe & Htxs).
  split_and!; [done|done|..].
  - rewrite Hframe; [|intros; apply block_ne_txHash].
    rewrite lookup_insert_ne by (symmetry; apply block_ne_blockHash).
    unfold blockAndHead.
    rewrite lookup_insert_ne by apply head_ne_block.
    by rewrite lookup_insert_eq.
  - rewrite Hframe; [|intros; apply head_ne_txHash].
    rewrite lookup_insert_ne by (symmetry; apply head_ne_blockHash).
    unfold blockAndHead. by rewrite lookup_insert_eq.
  - rewrite Hframe; [|intros; apply blockHash_ne_txHash].
    by rewrite lookup_insert_eq.
  - intros txn Hin. destruct (Htxs _ Hin) as (m & Hm & Hm' & Hval).
    exists m. split_and!; [|done..].
    rewrite <-Hm. symmetry. apply sightings_frame.
    rewrite lookup_insert_ne by apply blockHash_ne_txHash.
    unfold blockAndHead.
    rewrite lookup_insert_ne by apply head_ne_txHash.
    by rewrite lookup_insert_ne by apply block_ne_txHash.
  - intros k Hk1 Hk2 Hk3 Hk4. rewrite (Hframe _ Hk4).
    rewrite lookup_insert_ne by done. unfold blockAndHead.
    rewrite lookup_insert_ne by done. by rewrite lookup_insert_ne.
Qed.

Lemma removeStep_inv_Ok id txn t t' :
  removeStep id txn t = (t', Ok ()) →
  ∃ v m, t !! txKey txn = Some v ∧ decode v = Some m
         ∧ is_Some (m !! Hash id)
         ∧ t' = if decide (delete (Hash id) m = ∅)
                then delete (txKey txn) t
                else <[txKey txn := encode (delete (Hash id) m)]> t.
Proof.
  intros Hstep.
  destruct (removeTransactionHash_run id (TransactionIdentifier_ txn) t)
    as (e1 & e2 & e3 & Hrun).
  cbv beta in Hstep. rewrite Hrun in Hstep. unfold txKey.
  destruct (t !! getTransactionHashKey (TransactionIdentifier_ txn))
    as [v|]; [|done].
  destruct (decode v) as [m|] eqn:Hdec; [|done].
  destruct (m !! Hash id) as [i|] eqn:Hm; [|done].
  exists v, m. split_and!; [done|done|by eauto|].
  by case_decide; injection Hstep as <-.
Qed.

Lemma removeLoop_Ok id txs t t' :
  forEach (removeStep id) txs t = (t', Ok ()) →
  (∀ k, (∀ txn, txn ∈ txs → k ≠ txKey txn) → t' !! k = t !! k)
  ∧ (∀ txn, txn ∈ txs →
       ∃ v m, t !! txKey txn = Some v ∧ decode v = Some m
              ∧ is_Some (m !! Hash id)
              ∧ t' !! txKey txn
                = if decide (delete (Hash id) m = ∅) then None
                  else Some (encode (delete (Hash id) m))).
Proof.
  revert t. induction txs as [|txn txs IH]; intros t; simpl.
  - intros [= <-]. split; [done|].
    intros txn Hin. by apply elem_of_nil in Hin.
  - intros Hrun. apply bind_inv_Ok in Hrun as (t1 & [] & Hstep & Hrest).
    apply removeStep_inv_Ok in Hstep as (v & m & Hv & Hm & Hin & Ht1).
    destruct (IH _ Hrest) as (Hframe & Htxs).
    assert (t1 !! txKey txn
            = if decide (delete (Hash id) m = ∅) then None
              else Some (encode (delete (Hash id) m))) as Hkey.
    { rewrite Ht1. case_decide; [by rewrite lookup_delete_eq|].
      by rewrite lookup_insert_eq. }
    assert (∀ k, k ≠ txKey txn → t1 !! k = t !! k) as Hother.
    { intros k Hk. rewrite Ht1.
      case_decide; [by rewrite lookup_delete_ne|by rewrite lookup_insert_ne]. }
    assert (∀ txn', txn' ∈ txs → txKey txn' ≠ txKey txn) as Hne.
    { intros txn' Hin' Heq.
      destruct (Htxs _ Hin') as (v' & m' & Hv' & Hm' & [i Hi] & _).
      rewrite Heq, Hkey in Hv'. case_decide; [done|].
      injection Hv' as <-. rewrite decode_encode in Hm'.
      injection Hm' as <-. by rewrite lookup_delete_eq in Hi. }
    split.
    + intros k Hk. rewrite Hframe; [|intros; apply Hk; by right].
      apply Hother. apply Hk. by left.
    + intros txn' [->|Hin']%elem_of_cons.
      * exists v, m. split_and!; [done..|].
        rewrite Hframe; [done|].
        intros txn' Hin' Heq. by destruct (Hne _ Hin').
      * destruct (Htxs _ Hin') as (v' & m' & Hv' & Hrest').
        exists v', m'. split; [|done].
        rewrite <-Hv'. symmetry. apply Hother. by apply Hne.
Qed.

Lemma removeLoop_total id txs t :
  NoDup (txKey <$> txs) →
  (∀ txn, txn ∈ txs →
     ∃ v m, t !! txKey txn = Some v ∧ decode v = Some m
            ∧ is_Some (m !! Hash id)) →
  ∃ t', forEach (removeStep id) txs t = (t', Ok ()).
Proof.
  revert t. induction txs as [|txn txs IH]; intros t; simpl; [by eauto|].
  intros [Hnotin Hnodup]%NoDup_cons Htxs.
  destruct (Htxs txn) as (v & m & Hv & Hm & [i Hi]); [by left|].
  destruct (removeTransactionHash_run id (TransactionIdentifier_ txn) t)
    as (e1 & e2 & e3 & Hrun).
  fold (txKey txn) in Hrun. rewrite Hv, Hm, Hi in Hrun.
  set (t1 := if decide (delete (Hash id) m = ∅)
             then delete (txKey txn) t
             else <[txKey txn := encode (delete (Hash id) m)]> t).
  assert (removeStep id txn t = (t1, Ok ())) as Hstep.
  { rewrite Hrun. unfold t1. by case_decide. }
  destruct (IH t1 Hnodup) as [t' Hrest].
  { intros txn' Hin'.
    destruct (Htxs txn') as (v' & m' & Hv' & Hrest'); [by right|].
    exists v', m'. split; [|done]. rewrite <-Hv'.
    assert (txKey txn' ≠ txKey txn) as Hne.
    { intros Heq. apply Hnotin. rewrite <-Heq.
      apply list_elem_of_fmap. by exists txn'. }
    unfold t1.
    case_decide; [by rewrite lookup_delete_ne|by rewrite lookup_insert_ne]. }
  exists t'. by rewrite (bind_Ok _ _ _ _ _ Hstep).
Qed.

Lemma removeBlockWrites_run block id t :
  removeBlockWrites block id t =
    match forEach (removeStep id) (Transactions block) t with
    | (t1, Ok _) =>
        (<[getHeadBlockKey := encode (ParentBlockIdentifier block)]>
           (delete (getBlockKey id) (delete (getBlockHashKey id) t1)),
         Ok ())
    | (t1, Err e) => (t1, Err e)
    end.
Proof.
  unfold removeBlockWrites, bind at 1.
  by destruct (forEach _ _ t) as [t1 [[]|e]].
Qed.

Lemma removeBlockWrites_inv_Ok block id db t :
  removeBlockWrites block id db = (t, Ok ()) →
  t !! getHeadBlockKey = Some (encode (ParentBlockIdentifier block))
  ∧ t !! getBlockKey id = None
  ∧ t !! getBlockHashKey id = None
  ∧ (∀ txn, txn ∈ Transactions block →
       ∃ v m, db !! txKey txn = Some v ∧ decode v = Some m
              ∧ is_Some (m !! Hash id)
              ∧ t !! txKey txn
                = if decide (delete (Hash id) m = ∅) then None
                  else Some (encode (delete (Hash id) m)))
  ∧ (∀ k, k ≠ getBlockKey id → k ≠ getHeadBlockKey →
          k ≠ getBlockHashKey id →
          (∀ txn, txn ∈ Transactions block → k ≠ txKey txn) →
          t !! k = db !! k).
Proof.
  rewrite removeBlockWrites_run.
  destruct (forEach _ _ db) as [t1 [[]|e]] eqn:Hloop; [|done].
  intros [= <-]. apply removeLoop_Ok in Hloop as (Hframe & Htxs).
  split_and!.
  - by rewrite lookup_insert_eq.
  - rewrite lookup_insert_ne by apply head_ne_block.
    by rewrite lookup_delete_eq.
  - rewrite lookup_insert_ne by apply head_ne_blockHash.
    rewrite lookup_delete_ne by apply block_ne_blockHash.
    by rewrite lookup_delete_eq.
  - intros txn Hin. destruct (Htxs _ Hin) as (v & m & Hv & Hm & Hi & Hval).
    exists v, m. split_and!; [done..|]. rewrite <-Hval.
    rewrite lookup_insert_ne by apply head_ne_txHash.
    rewrite lookup_delete_ne by apply block_ne_txHash.
    by rewrite lookup_delete_ne by apply blockHash_ne_txHash.
  - intros k Hk1 Hk2 Hk3 Hk4.
    rewrite lookup_insert_ne by done. rewrite lookup_delete_ne by done.
    rewrite lookup_delete_ne by done. by apply Hframe.
Qed.

Lemma GetBlock_inv_Ok db id block :
  GetBlock db id = Ok block →
  ∃ v, db !! getBlockKey id = Some v ∧ decode v = Some block.
Proof.
  unfold GetBlock, NewDatabaseTransaction.
  destruct (db !! getBlockKey id) as [v|]; [|done].
  destruct (decode v) as [b|] eqn:Hdec; [|done].
  intros [= <-]. by exists v.
Qed.

Lemma GetBlock_Ok db id block :
  db !! getBlockKey id = Some (encode block) → GetBlock db id = Ok block.
Proof.
  unfold GetBlock, NewDatabaseTransaction. intros ->.
  by rewrite decode_encode.
Qed.

(** *** The invariant of the block index *)

Lemma blocksOk_ext t t' :
  (∀ k, isIndexKey k = true → t' !! k = t !! k) →
  blocksOk t → blocksOk t'.
Proof.
  intros Hext Hok id v Hv.
  rewrite Hext in Hv by apply isIndexKey_block.
  destruct (Hok _ _ Hv) as (Hb & Hmark & Huniq).
  split_and!; [done| |].
  - by rewrite Hext by apply isIndexKey_blockHash.
  - intros id' Hh Hin. rewrite Hext in Hin by apply isIndexKey_block.
    by apply Huniq.
Qed.

Lemma txIndexOk_ext t t' :
  (∀ k, isIndexKey k = true → t' !! k = t !! k) →
  txIndexOk t → txIndexOk t'.
Proof.
  intros Hext Hok T v Hv. rewrite Hext in Hv by apply isIndexKey_txHash.
  by apply (Hok T).
Qed.

Lemma callWorkers_keepsIndex adding block workers t t' cws :
  Forall keepsIndex workers →
  callWorkers adding block workers t = (t', Ok cws) →
  ∀ k, isIndexKey k = true → t' !! k = t !! k.
Proof.
  intros Hkeep. revert t cws.
  induction Hkeep as [|w workers Hw _ IH]; intros t cws; simpl.
  - by intros [= <-].
  - intros Hrun k Hk.
    apply bind_inv_Ok in Hrun as (t1 & cw & Hw1 & Hrun).
    apply bind_inv_Ok in Hrun as (t2 & cws' & Hrest & Hret).
    injection Hret as <- _.
    rewrite (IH _ _ Hrest k Hk). by apply (Hw adding block t t1 cw).
Qed.

Lemma addBlockWrites_blocksOk block db t :
  addBlockWrites emptyBytes block db = (t, Ok ()) →
  blocksOk db → blocksOk t.
Proof.
  intros Hrun Hok.
  apply addBlockWrites_inv_Ok in Hrun
    as (Hfresh & Hnodup & Hbk & _ & Hhk & _ & Hframe).
  set (id := BlockIdentifier_ block) in *.
  assert (∀ id', id' ≠ id → t !! getBlockKey id' = db !! getBlockKey id')
    as Hblocks.
  { intros id' Hne. apply Hframe.
    - intros Heq. by apply getBlockKey_inj in Heq.
    - apply not_eq_sym, head_ne_block.
    - apply block_ne_blockHash.
    - intros; apply block_ne_txHash. }
  assert (∀ id', is_Some (db !! getBlockHashKey id') →
                 is_Some (t !! getBlockHashKey id')) as Hmarks.
  { intros id' Hin.
    destruct (decide (getBlockHashKey id' = getBlockHashKey id)) as [->|Hne].
    - by rewrite Hhk.
    - rewrite Hframe; [done|apply not_eq_sym, block_ne_blockHash| |done|].
      + apply not_eq_sym, head_ne_blockHash.
      + intros; apply blockHash_ne_txHash. }
  assert (∀ id', Hash id' = Hash id → db !! getBlockKey id' = None)
    as Hnone.
  { intros id' Hh. destruct (db !! getBlockKey id') as [v|] eqn:Hv; [|done].
    destruct (Hok _ _ Hv) as (_ & [x Hx] & _).
    apply getBlockHashKey_eq in Hh. rewrite Hh in Hx. congruence. }
  intros id' v Hv. destruct (decide (id' = id)) as [->|Hne].
  - rewrite Hbk in Hv. injection Hv as <-. split_and!.
    + by exists block.
    + by rewrite Hhk.
    + intros id' Hh Hin. destruct (decide (id' = id)) as [|Hne]; [done|].
      rewrite Hblocks, (Hnone _ Hh) in Hin by done. by destruct Hin.
  - rewrite Hblocks in Hv by done.
    destruct (Hok _ _ Hv) as (Hb & Hmark & Huniq). split_and!; [done|auto|].
    intros id'' Hh Hin. destruct (decide (id'' = id)) as [->|Hne'].
    + symmetry in Hh. by rewrite (Hnone _ Hh) in Hv.
    + rewrite Hblocks in Hin by done. by apply Huniq.
Qed.

Lemma addBlockWrites_txIndexOk block db t :
  addBlockWrites emptyBytes block db = (t, Ok ()) →
  txIndexOk db → txIndexOk t.
Proof.
  intros Hrun Hok T v Hv.
  apply addBlockWrites_inv_Ok in Hrun as (_ & _ & _ & _ & _ & Htxs & Hframe).
  destruct (decide (getTransactionHashKey T ∈ txKey <$> Transactions block))
    as [Hin|Hnotin].
  - apply list_elem_of_fmap in Hin as (txn & Heq & Hin).
    destruct (Htxs _ Hin) as (m & _ & _ & Hval).
    rewrite Heq, Hval in Hv. injection Hv as <-.
    eexists. split; [done|]. apply insert_non_empty.
  - rewrite Hframe in Hv; [by apply (Hok T)|..].
    + apply not_eq_sym, block_ne_txHash.
    + apply not_eq_sym, head_ne_txHash.
    + apply not_eq_sym, blockHash_ne_txHash.
    + intros txn Hin Heq. apply Hnotin. rewrite Heq.
      apply list_elem_of_fmap. by exists txn.
Qed.

Lemma removeBlockWrites_blocksOk block id db t :
  is_Some (db !! getBlockKey id) →
  removeBlockWrites block id db = (t, Ok ()) →
  blocksOk db → blocksOk t.
Proof.
  intros Hstored Hrun Hok.
  apply removeBlockWrites_inv_Ok in Hrun as (_ & Hbk & Hhk & _ & Hframe).
  assert (∀ id', id' ≠ id → t !! getBlockKey id' = db !! getBlockKey id')
    as Hblocks.
  { intros id' Hne. apply Hframe.
    - intros Heq. by apply getBlockKey_inj in Heq.
    - apply not_eq_sym, head_ne_block.
    - apply block_ne_blockHash.
    - intros; apply block_ne_txHash. }
  intros id' v Hv. destruct (decide (id' = id)) as [->|Hne]; [congruence|].
  rewrite Hblocks in Hv by done.
  destruct (Hok _ _ Hv) as (Hb & Hmark & Huniq). split_and!; [done| |].
  - rewrite Hframe; [done|apply not_eq_sym, block_ne_blockHash| | |].
    + apply not_eq_sym, head_ne_blockHash.
    + intros Heq%getBlockHashKey_eq. apply Hne. symmetry. by apply Huniq.
    + intros; apply blockHash_ne_txHash.
  - intros id'' Hh Hin. destruct (decide (id'' = id)) as [->|Hne'].
    + rewrite Hbk in Hin. by destruct Hin.
    + rewrite Hblocks in Hin by done. by apply Huniq.
Qed.

Lemma removeBlockWrites_txIndexOk block id db t :
  removeBlockWrites block id db = (t, Ok ()) →
  txIndexOk db → txIndexOk t.
Proof.
  intros Hrun Hok T v Hv.
  apply removeBlockWrites_inv_Ok in Hrun as (_ & _ & _ & Htxs & Hframe).
  destruct (decide (getTransactionHashKey T ∈ txKey <$> Transactions block))
    as [Hin|Hnotin].
  - apply list_elem_of_fmap in Hin as (txn & Heq & Hin).
    destruct (Htxs _ Hin) as (v' & m & _ & _ & _ & Hval).
    rewrite Heq, Hval in Hv. case_decide; [done|].
    injection Hv as <-. by eexists.
  - rewrite Hframe in Hv; [by apply (Hok T)|..].
    + apply not_eq_sym, block_ne_txHash.
    + apply not_eq_sym, head_ne_txHash.
    + apply not_eq_sym, blockHash_ne_txHash.
    + intros txn Hin Heq. apply Hnotin. rewrite Heq.
      apply list_elem_of_fmap. by exists txn.
Qed.

Lemma AddBlock_inv workers fault db world block db' world' r :
  AddBlock emptyBytes workers fault db world block = (db', world', r) →
  (db' = db ∧ world' = world ∧ is_Some r)
  ∨ (∃ t cws,
       addBlockWrites emptyBytes block db = (t, Ok ())
       ∧ callWorkers true block workers t = (db', Ok cws)
       ∧ fault = None
       ∧ callbacksRun (nonNil cws) world world' r).
Proof.
  unfold AddBlock, NewDatabaseTransaction.
  destruct (addBlockWrites emptyBytes block db) as [t [[]|e]] eqn:Hw;
    [|intros ?; simplify_eq; by eauto].
  intros Hres.
  pose proof (callWorkersAndCommit_outcome workers fault db world block t
                true) as Hout.
  rewrite Hres in Hout. unfold commitOutcome in Hout.
  destruct (callWorkers true block workers t) as [t' [cws|e]] eqn:Hcall;
    [|simplify_eq; by eauto].
  destruct fault as [e|]; [simplify_eq; by eauto|].
  simpl in Hout. destruct Hout as [-> Hcb]. right. by exists t, cws.
Qed.

Lemma RemoveBlock_inv workers fault db world id db' world' r :
  RemoveBlock workers fault db world id = (db', world', r) →
  (db' = db ∧ world' = world ∧ is_Some r)
  ∨ (∃ block t cws,
       GetBlock db id = Ok block
       ∧ removeBlockWrites block id db = (t, Ok ())
       ∧ callWorkers false block workers t = (db', Ok cws)
       ∧ fault = None
       ∧ callbacksRun (nonNil cws) world world' r).
Proof.
  unfold RemoveBlock, NewDatabaseTransaction.
  destruct (GetBlock db id) as [block|e] eqn:Hget;
    [|intros ?; simplify_eq; by eauto].
  destruct (removeBlockWrites block id db) as [t [[]|e]] eqn:Hw;
    [|intros ?; simplify_eq; by eauto].
  intros Hres.
  pose proof (callWorkersAndCommit_outcome workers fault db world block t
                false) as Hout.
  rewrite Hres in Hout. unfold commitOutcome in Hout.
  destruct (callWorkers false block workers t) as [t' [cws|e]] eqn:Hcall;
    [|simplify_eq; by eauto].
  destruct fault as [e|]; [simplify_eq; by eauto|].
  simpl in Hout. destruct Hout as [-> Hcb]. right. by exists block, t, cws.
Qed.

Lemma reachable_storeInv workers db :
  Forall keepsIndex workers →
  reachable emptyBytes workers db → blocksOk db ∧ txIndexOk db.
Proof.
  intros Hkeep. induction 1 as [|db fault world block _ [IHb IHt]
                                 |db fault world id _ [IHb IHt]].
  - split; [intros id v Hv|intros T v Hv]; by rewrite lookup_empty in Hv.
  - destruct (AddBlock _ _ _ _ _ _) as [[db' world'] r] eqn:Hadd. simpl.
    apply AddBlock_inv in Hadd
      as [(-> & _)|(t & cws & Hw & Hcall & _)]; [done|].
    pose proof (callWorkers_keepsIndex _ _ _ _ _ _ Hkeep Hcall) as Hext.
    split.
    + eapply blocksOk_ext, addBlockWrites_blocksOk; done.
    + eapply txIndexOk_ext, addBlockWrites_txIndexOk; done.
  - destruct (RemoveBlock _ _ _ _ _) as [[db' world'] r] eqn:Hrem. simpl.
    apply RemoveBlock_inv in Hrem
      as [(-> & _)|(block & t & cws & Hget & Hw & Hcall & _)]; [done|].
    pose proof (callWorkers_keepsIndex _ _ _ _ _ _ Hkeep Hcall) as Hext.
    apply GetBlock_inv_Ok in Hget as (v & Hv & _).
    split.
    + eapply blocksOk_ext, removeBlockWrites_blocksOk; by eauto.
    + eapply txIndexOk_ext, removeBlockWrites_txIndexOk; done.
Qed.

End IndexWrites.

(** ** Duplicate guards *)

Section Guards.
Context {bytes : Type} (emptyBytes : bytes).
Context `{!Codec bytes Block, !Codec bytes BlockIdentifier,
          !Codec bytes (gmap string Z)}.
Context {World : Type}.
Implicit Types (t db : gmap string bytes) (world : World).
Implicit Types (workers : list (@BlockWorker bytes World)).
Implicit Types (id : BlockIdentifier).

Lemma AddBlock_marked workers fault db world block :
  is_Some (db !! getBlockHashKey (BlockIdentifier_ block)) →
  ∃ e, AddBlock emptyBytes workers fault db world block
         = (db, world, Some e)
       ∧ errors_Is e ErrDuplicateBlockHash = true.
Proof.
  intros [v Hv]. unfold AddBlock, NewDatabaseTransaction.
  rewrite addBlockWrites_run, Hv. eexists. split; [done|].
  do 2 apply errors_Is_Wrapf. apply errors_Is_refl.
Qed.

(** C2: when a registered worker's [AddingBlock] returns an error, [AddBlock]
    returns exactly that error, the store is the one before the call and the
    world the callbacks act on is untouched, although the block record, the
    head, the block-hash marker and the reverse-index entries had been
    written in the transaction handed to the workers. *)
Theorem AddBlock_worker_error_atomic
    workers1 w workers2 fault db world block t t1 cws t2 e :
  addBlockWrites emptyBytes block (NewDatabaseTransaction db true)
    = (t, Ok ()) →
  callWorkers true block workers1 t = (t1, Ok cws) →
  AddingBlock w block t1 = (t2, Err e) →
  AddBlock emptyBytes (workers1 ++ w :: workers2) fault db world block
    = (db, world, Some e)
  ∧ db !! getBlockHashKey (BlockIdentifier_ block) = None
  ∧ t !! getBlockKey (BlockIdentifier_ block) = Some (encode block)
  ∧ t !! getHeadBlockKey = Some (encode (BlockIdentifier_ block))
  ∧ t !! getBlockHashKey (BlockIdentifier_ block) = Some emptyBytes
  ∧ (∀ txn, txn ∈ Transactions block → is_Some (t !! txKey txn)).
Proof.
  intros Hwrites Hpre Hw. split.
  - unfold AddBlock. rewrite Hwrites. unfold callWorkersAndCommit.
    by rewrite (callWorkers_app_Err true block _ _ _ _ _ _ _ _ Hpre Hw).
  - apply addBlockWrites_inv_Ok in Hwrites
      as (Hfresh & _ & Hbk & Hhead & Hhk & Htxs & _).
    split_and!; [done..|].
    intros txn Hin. destruct (Htxs _ Hin) as (m & _ & _ & ->). by eexists.
Qed.

(** C3: in a store built by [AddBlock] and [RemoveBlock] (with workers that
    leave the block index alone), adding a block whose hash is that of a
    stored block fails with [ErrDuplicateBlockHash] and changes neither the
    store nor the world; and no two stored blocks have the same hash. *)
Theorem duplicate_block_hash_guard workers db :
  Forall keepsIndex workers →
  reachable emptyBytes workers db →
  (∀ block id fault world,
      is_Some (db !! getBlockKey id) →
      Hash (BlockIdentifier_ block) = Hash id →
      ∃ e, AddBlock emptyBytes workers fault db world block
             = (db, world, Some e)
           ∧ errors_Is e ErrDuplicateBlockHash = true)
  ∧ (∀ id id',
       is_Some (db !! getBlockKey id) → is_Some (db !! getBlockKey id') →
       Hash id = Hash id' → id = id').
Proof.
  intros Hkeep Hreach.
  destruct (reachable_storeInv emptyBytes _ _ Hkeep Hreach) as [Hok _].
  split.
  - intros block id fault world [v Hv] Hh.
    apply AddBlock_marked.
    destruct (Hok _ _ Hv) as (_ & Hmark & _).
    apply getBlockHashKey_eq in Hh. by rewrite Hh.
  - intros id id' [v Hv] Hin' Hh.
    destruct (Hok _ _ Hv) as (_ & _ & Huniq). symmetry. by apply Huniq.
Qed.

(** C6 (amended): a block with two transactions of the same hash is never
    added: [AddBlock] returns an error and changes neither the store
    (the head pointer included) nor the world.  The error is
    [ErrDuplicateBlockHash] when the block's hash is already marked, and
    [ErrDuplicateTransactionHash] when it is not and the reverse-index
    values of the block's transactions decode.  Hence every block of a
    store built by [AddBlock] and [RemoveBlock] has pairwise distinct
    transaction hashes. *)
Theorem duplicate_transaction_hash_guard workers :
  (∀ fault db world block,
      ¬ NoDup (txHashes block) →
      ∃ e, AddBlock emptyBytes workers fault db world block
             = (db, world, Some e)
           ∧ (is_Some (db !! getBlockHashKey (BlockIdentifier_ block)) →
              errors_Is e ErrDuplicateBlockHash = true)
           ∧ (db !! getBlockHashKey (BlockIdentifier_ block) = None →
              (∀ txn, txn ∈ Transactions block →
                      sightings db (TransactionIdentifier_ txn) ≠ None) →
              errors_Is e ErrDuplicateTransactionHash = true))
  ∧ (Forall keepsIndex workers →
     ∀ db, reachable emptyBytes workers db →
           ∀ id v, db !! getBlockKey id = Some v →
                   ∃ b, decode v = Some b ∧ NoDup (txHashes b)).
Proof.
  split.
  - intros fault db world block Hdup.
    unfold AddBlock, NewDatabaseTransaction. rewrite addBlockWrites_run.
    destruct (db !! getBlockHashKey (BlockIdentifier_ block)) as [v|] eqn:Hm.
    + eexists. split_and!; [done| |done].
      intros _. do 2 apply errors_Is_Wrapf. apply errors_Is_refl.
    + destruct (storeLoop_dup_fails (BlockIdentifier_ block)
                  (Transactions block)
                  (<[getBlockHashKey (BlockIdentifier_ block) := emptyBytes]>
                     (blockAndHead block db)) Hdup) as (t' & e & Hrun).
      rewrite Hrun. exists e. split_and!; [done|by intros [??]|].
      intros _ Hdec. eapply storeLoop_Err; [done|].
      intros txn Hin. rewrite (sightings_frame db); [by apply Hdec|].
      rewrite lookup_insert_ne by apply blockHash_ne_txHash.
      unfold blockAndHead.
      rewrite lookup_insert_ne by apply head_ne_txHash.
      by rewrite lookup_insert_ne by apply block_ne_txHash.
  - intros Hkeep db Hreach id v Hv.
    destruct (reachable_storeInv emptyBytes _ _ Hkeep Hreach) as [Hok _].
    destruct (Hok _ _ Hv) as ((b & -> & _ & Hnodup) & _).
    exists b. by rewrite decode_encode.
Qed.

End Guards.

(** ** Adding a block and removing it again *)

Section Involution.
Context {bytes : Type} (emptyBytes : bytes).
Context `{!Codec bytes Block, !Codec bytes BlockIdentifier,
          !Codec bytes (gmap string Z)}.
Context {World : Type}.
Implicit Types (t db : gmap string bytes) (world : World).
Implicit Types (workers : list (@BlockWorker bytes World)).
Implicit Types (id : BlockIdentifier) (txn : Transaction).

Lemma NoDup_txKeys (txs : list Transaction) :
  NoDup ((λ txn, TxHash (TransactionIdentifier_ txn)) <$> txs) →
  NoDup (txKey <$> txs).
Proof.
  induction txs as [|txn txs IH]; simpl; [constructor|].
  intros [Hnotin Hnodup]%NoDup_cons. apply NoDup_cons. split; [|auto].
  intros (txn' & Heq & Hin)%list_elem_of_fmap. apply Hnotin.
  apply list_elem_of_fmap. exists txn'. split; [|done].
  by apply txHash_eq_txKey.
Qed.

(** The working copy after the index writes of [AddBlock], and any store
    that agrees with it on the index keys, lets the index writes of
    [RemoveBlock] go through and puts every index key except the head back
    to its value in [db]. *)
Lemma remove_after_add block db t db1 :
  blocksOk db → txIndexOk db →
  addBlockWrites emptyBytes block db = (t, Ok ()) →
  (∀ k, isIndexKey k = true → db1 !! k = t !! k) →
  let id := BlockIdentifier_ block in
  GetBlock db1 id = Ok block
  ∧ ∃ t2, removeBlockWrites block id db1 = (t2, Ok ())
          ∧ t2 !! getHeadBlockKey
            = Some (encode (ParentBlockIdentifier block))
          ∧ (∀ k, isIndexKey k = true → k ≠ getHeadBlockKey →
                  t2 !! k = db !! k)
          ∧ (∀ k, isIndexKey k = false → t2 !! k = db1 !! k).
Proof.
  intros Hbok Htok Hadd Hagree id.
  apply addBlockWrites_inv_Ok in Hadd
    as (Hfresh & Hnodup & Hbk & Hhead & Hhk & Htxs & Hframe).
  fold id in Hfresh, Hbk, Hhead, Hhk, Htxs, Hframe.
  assert (db !! getBlockKey id = None) as Hnoblock.
  { destruct (db !! getBlockKey id) as [v|] eqn:Hv; [|done].
    destruct (Hbok _ _ Hv) as (_ & [x Hx] & _). congruence. }
  split.
  { apply GetBlock_Ok. by rewrite Hagree by apply isIndexKey_block. }
  destruct (removeLoop_total id (Transactions block) db1) as [t1 Hloop].
  { by apply NoDup_txKeys. }
  { intros txn Hin. destruct (Htxs _ Hin) as (m & _ & _ & Hval).
    exists (encode (<[Hash id := Index id]> m)), (<[Hash id := Index id]> m).
    split_and!.
    - by rewrite Hagree by apply isIndexKey_txHash.
    - apply decode_encode.
    - by rewrite lookup_insert_eq. }
  eexists. rewrite removeBlockWrites_run, Hloop. split; [done|].
  assert (removeBlockWrites block id db1
          = (<[getHeadBlockKey := encode (ParentBlockIdentifier block)]>
               (delete (getBlockKey id) (delete (getBlockHashKey id) t1)),
             Ok ())) as Hrem.
  { by rewrite removeBlockWrites_run, Hloop. }
  apply removeBlockWrites_inv_Ok in Hrem
    as (Hhead2 & Hbk2 & Hhk2 & Htxs2 & Hframe2).
  split_and!; [done| |].
  - intros k Hk Hnothead.
    destruct (decide (k = getBlockKey id)) as [->|Hk1]; [congruence|].
    destruct (decide (k = getBlockHashKey id)) as [->|Hk2]; [congruence|].
    destruct (decide (k ∈ txKey <$> Transactions block)) as [Hin|Hnotin].
    + apply list_elem_of_fmap in Hin as (txn & -> & Hin).
      destruct (Htxs _ Hin) as (m & Hm & Hmfresh & Hval).
      destruct (Htxs2 _ Hin) as (v' & m' & Hv' & Hm' & _ & Hval2).
      rewrite Hagree, Hval in Hv' by apply isIndexKey_txHash.
      injection Hv' as <-. rewrite decode_encode in Hm'.
      injection Hm' as <-. rewrite Hval2.
      rewrite delete_insert_id by done.
      unfold sightings in Hm. fold (txKey txn) in Hm.
      destruct (db !! txKey txn) as [v|] eqn:Hv.
      * destruct (Htok _ _ Hv) as (m0 & -> & Hne).
        rewrite decode_encode in Hm. injection Hm as ->.
        by rewrite decide_False.
      * injection Hm as <-. by rewrite decide_True.
    + assert (∀ txn, txn ∈ Transactions block → k ≠ txKey txn) as Hk4.
      { intros txn Hin ->. apply Hnotin.
        apply list_elem_of_fmap. by exists txn. }
      rewrite Hframe2, Hagree, Hframe by done. done.
  - intros k Hk. apply Hframe2.
    + intros ->. by rewrite isIndexKey_block in Hk.
    + intros ->. by rewrite isIndexKey_head in Hk.
    + intros ->. by rewrite isIndexKey_blockHash in Hk.
    + intros txn _ ->. unfold txKey in Hk.
      by rewrite isIndexKey_txHash in Hk.
Qed.

(** C1 (amended): from a store built by [AddBlock] and [RemoveBlock] with
    workers that leave the block index alone, after a successful
    [AddBlock block] the index writes of [RemoveBlock] cannot fail, and a
    successful [RemoveBlock] gives every block, block-hash and
    transaction-hash key its value from before the [AddBlock]; the head is
    then the parent of [block], whatever it was before.  With no workers and
    a head that was that parent, [RemoveBlock] succeeds and the store is
    again the one before the [AddBlock]. *)
Theorem add_remove_restores_index workers fault db world block db1 world1 :
  Forall keepsIndex workers →
  reachable emptyBytes workers db →
  AddBlock emptyBytes workers fault db world block = (db1, world1, None) →
  let id := BlockIdentifier_ block in
  GetBlock db1 id = Ok block
  ∧ (∃ t2, removeBlockWrites block id db1 = (t2, Ok ()))
  ∧ (∀ fault2 db2 world2,
       RemoveBlock workers fault2 db1 world1 id = (db2, world2, None) →
       db2 !! getHeadBlockKey = Some (encode (ParentBlockIdentifier block))
       ∧ ∀ k, isIndexKey k = true → k ≠ getHeadBlockKey →
              db2 !! k = db !! k)
  ∧ (workers = [] →
     db !! getHeadBlockKey = Some (encode (ParentBlockIdentifier block)) →
     RemoveBlock workers None db1 world1 id = (db, world1, None)).
Proof.
  intros Hkeep Hreach Hadd id.
  destruct (reachable_storeInv emptyBytes _ _ Hkeep Hreach) as [Hbok Htok].
  apply AddBlock_inv in Hadd
    as [(_ & _ & [? [=]])|(t & cws & Hw & Hcall & _ & Hcb)].
  pose proof (callWorkers_keepsIndex _ _ _ _ _ _ Hkeep Hcall) as Hagree.
  destruct (remove_after_add block db t db1 Hbok Htok Hw Hagree)
    as (Hget & t2 & Hrem & Hhead2 & Hindex & Hother).
  fold id in Hget, Hrem.
  split_and!; [done|by eauto| |].
  - intros fault2 db2 world2 Hremove.
    apply RemoveBlock_inv in Hremove
      as [(_ & _ & [? [=]])|(b & t2' & cws2 & Hget' & Hw2 & Hcall2 & _)].
    rewrite Hget in Hget'. injection Hget' as <-.
    rewrite Hrem in Hw2. injection Hw2 as <-.
    pose proof (callWorkers_keepsIndex _ _ _ _ _ _ Hkeep Hcall2) as Hagree2.
    split.
    + by rewrite Hagree2 by apply isIndexKey_head.
    + intros k Hk Hnothead. rewrite Hagree2 by done. by apply Hindex.
  - intros -> Hparent. simpl in Hcall. injection Hcall as <- <-.
    unfold RemoveBlock, NewDatabaseTransaction.
    rewrite Hget, Hrem. unfold callWorkersAndCommit. simpl.
    f_equal. f_equal.
    apply map_eq. intros k.
    destruct (isIndexKey k) eqn:Hk.
    + destruct (decide (k = getHeadBlockKey)) as [->|Hne]; [congruence|].
      by apply Hindex.
    + rewrite Hother by done.
      apply addBlockWrites_inv_Ok in Hw as (_ & _ & _ & _ & _ & _ & Hframe).
      apply Hframe.
      * intros ->. by rewrite isIndexKey_block in Hk.
      * intros ->. by rewrite isIndexKey_head in Hk.
      * intros ->. by rewrite isIndexKey_blockHash in Hk.
      * intros txn _ ->. unfold txKey in Hk.
        by rewrite isIndexKey_txHash in Hk.
Qed.

End Involution.

(** ** FindTransaction *)

Section Find.
Context {bytes : Type}.
Context `{!Codec bytes BlockIdentifier, !Codec bytes (gmap string Z)}.
Implicit Types (db : gmap string bytes) (m : gmap string Z).
Implicit Types (entries : list (string * Z)).

Lemma wrap64_small z : int64_range z → wrap64 z = z.
Proof.
  unfold int64_range, MinInt64, MaxInt64, wrap64. intros Hz.
  rewrite Z.mod_small by lia. lia.
Qed.

Lemma findLoop_fold entries ids oldest :
  fold_left
    (λ '(ids, oldestBlock) '(hash, index),
       (ids ++ [mkBlockIdentifier hash index],
        if decide (index < oldestBlock) then index else oldestBlock))
    entries (ids, oldest)
  = (ids ++ ((λ e, mkBlockIdentifier e.1 e.2) <$> entries),
     foldl Z.min oldest (entries.*2)).
Proof.
  revert ids oldest. induction entries as [|[h i] entries IH];
    intros ids oldest; simpl.
  - by rewrite app_nil_r.
  - rewrite IH, <-app_assoc. simpl. do 2 f_equal.
    case_decide; lia.
Qed.

Lemma findLoop_eq entries :
  findLoop entries
  = ((λ e, mkBlockIdentifier e.1 e.2) <$> entries,
     foldl Z.min MaxInt64 (entries.*2)).
Proof. unfold findLoop. by rewrite findLoop_fold. Qed.

Lemma foldl_min_spec (a : Z) (l : list Z) :
  let r := foldl Z.min a l in
  (r = a ∨ r ∈ l) ∧ r ≤ a ∧ ∀ x, x ∈ l → r ≤ x.
Proof.
  revert a. induction l as [|y l IH]; intros a; simpl.
  - split_and!; [by left|lia|]. intros x Hx. by apply elem_of_nil in Hx.
  - pose proof (IH (Z.min a y)) as IH'. simpl in IH'.
    set (r := foldl Z.min (Z.min a y) l) in *.
    destruct IH' as ([Hr|Hr] & Hle & Hall); split_and!.
    + destruct (Z.min_spec a y) as [[_ Hm]|[_ Hm]].
      * left. lia.
      * right. apply elem_of_cons. left. lia.
    + lia.
    + intros x [->|Hx]%elem_of_cons; [lia|by apply Hall].
    + right. by right.
    + lia.
    + intros x [->|Hx]%elem_of_cons; [lia|by apply Hall].
Qed.

(** The loop finds the same oldest index in whatever order [range] yields
    the entries, and the same identifiers up to their order. *)
Lemma findLoop_Permutation entries1 entries2 :
  entries1 ≡ₚ entries2 →
  (findLoop entries1).1 ≡ₚ (findLoop entries2).1
  ∧ (findLoop entries1).2 = (findLoop entries2).2.
Proof.
  intros Hperm. rewrite !findLoop_eq. simpl. split; [by rewrite Hperm|].
  assert (entries1.*2 ≡ₚ entries2.*2) as Hp2 by by rewrite Hperm.
  destruct (foldl_min_spec MaxInt64 (entries1.*2)) as (Hin1 & Hle1 & Hall1).
  destruct (foldl_min_spec MaxInt64 (entries2.*2)) as (Hin2 & Hle2 & Hall2).
  simpl in *.
  assert (foldl Z.min MaxInt64 (entries1.*2)
          ≤ foldl Z.min MaxInt64 (entries2.*2)) as H12.
  { destruct Hin2 as [->|Hin2]; [done|]. apply Hall1. by rewrite Hp2. }
  assert (foldl Z.min MaxInt64 (entries2.*2)
          ≤ foldl Z.min MaxInt64 (entries1.*2)) as H21.
  { destruct Hin1 as [->|Hin1]; [done|]. apply Hall2. by rewrite <-Hp2. }
  lia.
Qed.

(** C5: [FindTransaction] returns [(nil, -1, nil)] when the reverse-index key
    is absent; when the key holds a mapping and the head key is absent it
    fails with [ErrHeadBlockNotFound]; otherwise it returns the identifiers
    of all sightings of the mapping, each once, and the head index minus
    the least index of the sightings (the int64 difference, which is the
    exact difference whenever that fits int64). *)
Theorem FindTransaction_spec db T :
  (db !! getTransactionHashKey T = None →
   FindTransaction db T = (None, -1, None))
  ∧ (∀ v m,
       db !! getTransactionHashKey T = Some v → decode v = Some m →
       (db !! getHeadBlockKey = None →
        FindTransaction db T = (None, -1, Some ErrHeadBlockNotFound))
       ∧ (∀ hv head,
            db !! getHeadBlockKey = Some hv → decode hv = Some head →
            ∃ ids oldest,
              FindTransaction db T
                = (Some ids, sub64 (Index head) oldest, None)
              ∧ NoDup ids
              ∧ (∀ id, id ∈ ids ↔ m !! Hash id = Some (Index id))
              ∧ (m ≠ ∅ →
                 (∀ h i, m !! h = Some i → int64_range i) →
                 (∃ h, m !! h = Some oldest)
                 ∧ (∀ h i, m !! h = Some i → oldest ≤ i)
                 ∧ (int64_range (Index head - oldest) →
                    sub64 (Index head) oldest = Index head - oldest)))).
Proof.
  unfold FindTransaction, NewDatabaseTransaction. split; [by intros ->|].
  intros v m -> ->. split; [by intros ->|].
  intros hv head -> ->. rewrite findLoop_eq.
  eexists _, _. split; [done|]. split_and!.
  - apply NoDup_fmap_2_strong; [|apply NoDup_map_to_list].
    intros [h1 i1] [h2 i2] _ _ [= -> ->]. done.
  - intros [h i]. simpl. rewrite list_elem_of_fmap. split.
    + intros ([h' i'] & [= -> ->] & Hin). by apply elem_of_map_to_list.
    + intros Hm. exists (h, i). split; [done|]. by apply elem_of_map_to_list.
  - intros Hne Hrange.
    destruct (foldl_min_spec MaxInt64 ((map_to_list m).*2))
      as (Hin & Hle & Hall). simpl in Hin, Hle, Hall.
    assert (∀ h i, m !! h = Some i → i ∈ (map_to_list m).*2) as Hval.
    { intros h i Hm. apply list_elem_of_fmap. exists (h, i).
      split; [done|]. by apply elem_of_map_to_list. }
    split_and!.
    + destruct Hin as [Heq|Hin].
      * destruct (map_choose m Hne) as (h & i & Hm). exists h.
        rewrite Hm. f_equal. rewrite Heq.
        pose proof (Hall _ (Hval _ _ Hm)) as Hle'.
        destruct (Hrange _ _ Hm) as [_ Hmax]. lia.
      * apply list_elem_of_fmap in Hin as ([h i] & Heq & Hin).
        exists h. rewrite Heq. by apply elem_of_map_to_list.
    + intros h i Hm. apply Hall. by eapply Hval.
    + intros Hfit. by apply wrap64_small.
Qed.

End Find.

(** ** CreateBlockCache *)

Section Cache.
Context {bytes : Type}.
Context `{!Codec bytes Block, !Codec bytes BlockIdentifier}.
Variable PastBlockSize : nat.
Implicit Types (db : gmap string bytes) (head : BlockIdentifier).
Implicit Types (cache : list BlockIdentifier).



Lemma blockCacheLoop_walk fuel db head cache :
  (PastBlockSize - length cache ≤ fuel)%nat →
  blockCacheLoop PastBlockSize fuel db head cache
  = rev (BlockIdentifier_ <$> walk (PastBlockSize - length cache) db head)
      ++ cache.
Proof.
  revert head cache. induction fuel as [|fuel IH]; intros head cache Hfuel;
    simpl.
  - case_decide; [lia|].
    by replace (PastBlockSize - length cache)%nat with 0%nat by lia.
  - case_decide as Hlt.
    + destruct (PastBlockSize - length cache)%nat as [|k] eqn:Hk; [lia|].
      simpl. destruct (GetBlock db head) as [block|]; [|done].
      rewrite IH by (simpl; lia). simpl.
      replace (PastBlockSize - S (length cache))%nat with k by lia.
      by rewrite <-app_assoc.
    + by replace (PastBlockSize - length cache)%nat with 0%nat by lia.
Qed.



End Cache.

(** ** CoinStorage *)

Section Coins.
Context {bytes : Type}.
Context `{!Codec bytes Coin, !Codec bytes (gset string)}.
Context {World : Type}.
Variable typesHash : AccountIdentifier → string.
Variable PrettyPrintStruct : AccountIdentifier → string.
Implicit Types (t db : gmap string bytes) (c : CoinStorage).
Implicit Types (txn : Transaction) (operation : Operation).

Lemma getAndDecodeCoin_run coinIdentifier t :
  ∃ e,
  getAndDecodeCoin coinIdentifier t =
    match t !! getCoinKey coinIdentifier with
    | None => (t, Ok None)
    | Some val =>
        match decode val with
        | Some coin => (t, Ok (Some coin))
        | None => (t, Err e)
        end
    end.
Proof.
  unfold getAndDecodeCoin, bind, wrapErr, Get, decodeM, ret, fail.
  eexists. destruct (t !! getCoinKey coinIdentifier) as [val|]; [|done].
  by destruct (decode val).
Qed.

Lemma getAndDecodeCoins_run accountIdentifier t :
  ∃ e,
  getAndDecodeCoins typesHash accountIdentifier t =
    match t !! getCoinAccountKey typesHash accountIdentifier with
    | None => (t, Ok None)
    | Some val =>
        match decode val with
        | Some coins => (t, Ok (Some coins))
        | None => (t, Err e)
        end
    end.
Proof.
  unfold getAndDecodeCoins, bind, wrapErr, Get, decodeM, ret, fail.
  eexists.
  destruct (t !! getCoinAccountKey typesHash accountIdentifier) as [val|];
    [|done].
  by destruct (decode val).
Qed.

(** In whatever order [range] yields the identifiers, one without a record
    makes the loop return an error and no list. *)
Lemma getCoinsLoop_dangling t coinIdentifiers coinArr coinIdentifier :
  coinIdentifier ∈ coinIdentifiers →
  t !! getCoinKey coinIdentifier = None →
  ∃ e, getCoinsLoop t coinIdentifiers coinArr = (None, Some e).
Proof.
  intros Hin Hnone. revert coinArr.
  induction coinIdentifiers as [|x rest IH]; intros coinArr.
  { by apply elem_of_nil in Hin. }
  simpl. destruct (getAndDecodeCoin_run x t) as [e Hrun]. rewrite Hrun.
  apply elem_of_cons in Hin as [<-|Hin].
  - rewrite Hnone. by eexists.
  - destruct (t !! getCoinKey x) as [val|]; [|by eexists].
    destruct (decode val) as [coin|]; [|by eexists].
    by apply IH.
Qed.

(** When the loop returns a list, there was no error and every identifier
    had a record. *)
Lemma getCoinsLoop_complete t coinIdentifiers coinArr coins r :
  getCoinsLoop t coinIdentifiers coinArr = (Some coins, r) →
  r = None
  ∧ length coins = (length coinArr + length coinIdentifiers)%nat
  ∧ ∀ x, x ∈ coinIdentifiers → is_Some (t !! getCoinKey x).
Proof.
  revert coinArr. induction coinIdentifiers as [|x rest IH]; intros coinArr;
    simpl.
  - intros [= <- <-]. split_and!; [done|lia|].
    intros x Hx. by apply elem_of_nil in Hx.
  - destruct (getAndDecodeCoin_run x t) as [e Hrun]. rewrite Hrun.
    destruct (t !! getCoinKey x) as [val|] eqn:Hval; [|done].
    destruct (decode val) as [coin|]; [|done].
    intros Hloop. destruct (IH _ Hloop) as (-> & Hlen & Hall).
    rewrite length_app in Hlen. simpl in Hlen. split_and!; [done|lia|].
    intros y [->|Hy]%elem_of_cons; [by rewrite Hval|by apply Hall].
Qed.

(** C10: when the coin set of an account names a coin without a record,
    [GetCoins] returns an error and no list; and whenever [GetCoins] returns
    a list, it returns no error and every coin of the account's set has a
    record, so the list is never partial. *)
Theorem GetCoins_dangling_coin db accountIdentifier :
  (∀ val (coins : gset string) coinIdentifier,
      db !! getCoinAccountKey typesHash accountIdentifier = Some val →
      decode val = Some coins →
      coinIdentifier ∈ coins →
      db !! getCoinKey coinIdentifier = None →
      ∃ e, GetCoins typesHash db accountIdentifier = (None, Some e))
  ∧ (∀ coinArr r,
       GetCoins typesHash db accountIdentifier = (Some coinArr, r) →
       r = None
       ∧ ∀ val (coins : gset string),
           db !! getCoinAccountKey typesHash accountIdentifier = Some val →
           decode val = Some coins →
           length coinArr = size coins
           ∧ ∀ x, x ∈ coins → is_Some (db !! getCoinKey x)).
Proof.
  unfold GetCoins, NewDatabaseTransaction.
  destruct (getAndDecodeCoins_run accountIdentifier db) as [e Hrun].
  rewrite Hrun. split.
  - intros val coins coinIdentifier -> -> Hin Hnone.
    apply getCoinsLoop_dangling with coinIdentifier; [|done].
    by apply elem_of_elements.
  - intros coinArr r.
    destruct (db !! getCoinAccountKey typesHash accountIdentifier)
      as [val|]; [|by intros [= <- <-]].
    destruct (decode val) as [coins|] eqn:Hdec; [|done].
    intros Hloop. apply getCoinsLoop_complete in Hloop as (-> & Hlen & Hall).
    split; [done|]. intros ? coins' [= <-] Hdec'.
    rewrite Hdec in Hdec'. injection Hdec' as <-. split; [done|].
    intros x Hx. apply Hall. by apply elem_of_elements.
Qed.

(** *** The coin index keeps to its own namespaces *)

Lemma leavesIndex_ret {A} (a : A) : leavesIndex (@ret bytes A a).
Proof. by intros t t' r [= <- _] key _. Qed.

Lemma leavesIndex_fail {A} e : leavesIndex (@fail bytes A e).
Proof. by intros t t' r [= <- _] key _. Qed.

Lemma leavesIndex_Get key : leavesIndex (@Get bytes key).
Proof. by intros t t' r [= <- _] k _. Qed.

Lemma leavesIndex_Set key val :
  isIndexKey key = false → leavesIndex (@Set_ bytes key val).
Proof.
  intros Hkey t t' r [= <- _] k Hk. apply lookup_insert_ne. congruence.
Qed.

Lemma leavesIndex_Delete key :
  isIndexKey key = false → leavesIndex (@Delete bytes key).
Proof.
  intros Hkey t t' r [= <- _] k Hk. apply lookup_delete_ne. congruence.
Qed.

Lemma leavesIndex_bind {A B} (m : @M bytes A) (k : A → @M bytes B) :
  leavesIndex m → (∀ a, leavesIndex (k a)) → leavesIndex (bind m k).
Proof.
  intros Hm Hk t t' r Hrun key Hkey. unfold bind in Hrun.
  destruct (m t) as [t1 [a|e]] eqn:Hmt.
  - rewrite (Hk a _ _ _ Hrun key Hkey). by apply (Hm _ _ _ Hmt).
  - injection Hrun as <- _. by apply (Hm _ _ _ Hmt).
Qed.

Lemma leavesIndex_wrapErr {A} msg (m : @M bytes A) :
  leavesIndex m → leavesIndex (wrapErr msg m).
Proof.
  intros Hm t t' r Hrun key Hkey. unfold wrapErr in Hrun.
  destruct (m t) as [t1 [a|e]] eqn:Hmt; injection Hrun as <- _;
    by apply (Hm _ _ _ Hmt).
Qed.

Lemma leavesIndex_decodeM {A} `{!Codec bytes A} val :
  leavesIndex (@decodeM bytes A _ val).
Proof.
  unfold decodeM.
  destruct (decode val); [apply leavesIndex_ret|apply leavesIndex_fail].
Qed.

Lemma leavesIndex_forEach {A} (f : A → @M bytes unit) xs :
  (∀ x, leavesIndex (f x)) → leavesIndex (forEach f xs).
Proof.
  intros Hf. induction xs as [|x xs IH]; simpl.
  - apply leavesIndex_ret.
  - apply leavesIndex_bind; [apply Hf|by intros _].
Qed.

Lemma isIndexKey_coin coinIdentifier :
  isIndexKey (getCoinKey coinIdentifier) = false.
Proof. reflexivity. Qed.

Lemma isIndexKey_coinAccount accountIdentifier :
  isIndexKey (getCoinAccountKey typesHash accountIdentifier) = false.
Proof. reflexivity. Qed.

Create HintDb leaves discriminated.
Hint Resolve leavesIndex_ret leavesIndex_fail leavesIndex_Get
  leavesIndex_Set leavesIndex_Delete leavesIndex_wrapErr
  leavesIndex_decodeM isIndexKey_coin isIndexKey_coinAccount : leaves.

Lemma leavesIndex_getAndDecodeCoins accountIdentifier :
  leavesIndex (getAndDecodeCoins typesHash accountIdentifier).
Proof.
  unfold getAndDecodeCoins. apply leavesIndex_bind; [auto with leaves|].
  intros [val|]; [|auto with leaves].
  apply leavesIndex_bind; auto with leaves.
Qed.

Lemma leavesIndex_encodeAndSetCoins accountIdentifier coins :
  leavesIndex (encodeAndSetCoins typesHash accountIdentifier coins).
Proof. unfold encodeAndSetCoins. auto with leaves. Qed.

Lemma leavesIndex_tryAddingCoin txn operation identiferKey :
  leavesIndex
    (tryAddingCoin typesHash PrettyPrintStruct txn operation identiferKey).
Proof.
  unfold tryAddingCoin.
  destruct (Metadata operation !! identiferKey) as [[coinIdentifier|raw]|];
    [|auto with leaves..].
  apply leavesIndex_bind; [auto with leaves|]. intros _.
  apply leavesIndex_bind.
  { apply leavesIndex_wrapErr, leavesIndex_getAndDecodeCoins. }
  intros r. case_decide; [auto with leaves|].
  apply leavesIndex_wrapErr, leavesIndex_encodeAndSetCoins.
Qed.

Lemma leavesIndex_tryRemovingCoin operation identiferKey :
  leavesIndex
    (tryRemovingCoin typesHash PrettyPrintStruct operation identiferKey).
Proof.
  unfold tryRemovingCoin.
  destruct (Metadata operation !! identiferKey) as [[coinIdentifier|raw]|];
    [|auto with leaves..].
  apply leavesIndex_bind; [auto with leaves|].
  intros [val|]; [|auto with leaves].
  apply leavesIndex_bind; [auto with leaves|]. intros _.
  apply leavesIndex_bind.
  { apply leavesIndex_wrapErr, leavesIndex_getAndDecodeCoins. }
  intros [coins|]; [|auto with leaves].
  case_decide; [|auto with leaves].
  apply leavesIndex_wrapErr, leavesIndex_encodeAndSetCoins.
Qed.

Lemma leavesIndex_addingOperation c txn operation :
  leavesIndex (addingOperation typesHash PrettyPrintStruct c txn operation).
Proof.
  unfold addingOperation.
  destruct (OperationSuccessful c operation) as [[]|e]; simpl;
    [|auto with leaves..].
  destruct (OpAmount operation); [|auto with leaves].
  apply leavesIndex_bind; [|intros _]; apply leavesIndex_wrapErr.
  - apply leavesIndex_tryAddingCoin.
  - apply leavesIndex_tryRemovingCoin.
Qed.

Lemma leavesIndex_removingOperation c txn operation :
  leavesIndex (removingOperation typesHash PrettyPrintStruct c txn operation).
Proof.
  unfold removingOperation.
  destruct (OperationSuccessful c operation) as [[]|e]; simpl;
    [|auto with leaves..].
  destruct (OpAmount operation); [|auto with leaves].
  apply leavesIndex_bind; [|intros _]; apply leavesIndex_wrapErr.
  - apply leavesIndex_tryAddingCoin.
  - apply leavesIndex_tryRemovingCoin.
Qed.

(** [CoinStorage] is a worker of the kind the statements about the block
    index ask for. *)
Lemma CoinStorage_keepsIndex c :
  keepsIndex
    (@CoinStorage_BlockWorker bytes _ _ World typesHash PrettyPrintStruct c).
Proof.
  intros adding block t t' cw Hrun. destruct adding; simpl in Hrun.
  - revert Hrun. apply leavesIndex_bind; [|intros _; apply leavesIndex_ret].
    apply leavesIndex_forEach. intros txn.
    apply leavesIndex_forEach. intros operation.
    apply leavesIndex_addingOperation.
  - revert Hrun. apply leavesIndex_bind; [|intros _; apply leavesIndex_ret].
    apply leavesIndex_forEach. intros txn.
    apply leavesIndex_forEach. intros operation.
    apply leavesIndex_removingOperation.
Qed.

(** C8: an operation that the asserter reports as not successful, or that
    has no amount, leaves the transaction as it is, whatever its metadata:
    no coin record and no coin set is written or deleted.  When the asserter
    answers, the operation is skipped without error, and the loop over the
    operations of a transaction runs as if the operation were not there. *)
Theorem AddingBlock_skips_operation c txn operation :
  OperationSuccessful c operation = Ok false ∨ OpAmount operation = None →
  (∀ t, (addingOperation typesHash PrettyPrintStruct c txn operation t).1 = t)
  ∧ (∀ success,
       OperationSuccessful c operation = Ok success →
       (∀ t, addingOperation typesHash PrettyPrintStruct c txn operation t
             = (t, Ok ()))
       ∧ (∀ operations1 operations2 t,
            forEach (addingOperation typesHash PrettyPrintStruct c txn)
              (operations1 ++ operation :: operations2) t
            = forEach (addingOperation typesHash PrettyPrintStruct c txn)
                (operations1 ++ operations2) t)).
Proof.
  intros Hskip.
  assert (∀ success t,
            OperationSuccessful c operation = Ok success →
            addingOperation typesHash PrettyPrintStruct c txn operation t
            = (t, Ok ())) as Hok.
  { intros success t Hs. unfold addingOperation. rewrite Hs.
    destruct Hskip as [Hfalse|Hnil].
    - rewrite Hs in Hfalse. by injection Hfalse as ->.
    - rewrite Hnil. by destruct success. }
  split.
  - intros t.
    destruct (OperationSuccessful c operation) as [success|e] eqn:Hs.
    + by rewrite (Hok success).
    + unfold addingOperation. by rewrite Hs.
  - intros success Hs. split; [intros t; by apply (Hok success)|].
    intros operations1 operations2 t. rewrite !forEach_app.
    destruct (forEach _ operations1 t) as [t1 [[]|e]]; [|done].
    simpl. unfold bind. by rewrite (Hok success).
Qed.

End Coins.

(** ** SetNewStartIndex *)

Section StartIndex.
Context {bytes : Type}.
Context `{!Codec bytes Block, !Codec bytes BlockIdentifier,
          !Codec bytes (gmap string Z)}.
Context {World : Type}.
Variable workers : list (@BlockWorker bytes World).
Hypothesis workers_keep : Forall keepsIndex workers.
Implicit Types (t db : gmap string bytes) (world : World).
Implicit Types (id curr : BlockIdentifier) (faults : list (option error)).









End StartIndex.

(** ** Runs on the sample store *)

Import Sample.

Lemma reachable_db1 : reachable SEmpty ([] : list (@BlockWorker Stored World)) db1.
Proof.
  apply (reachable_AddBlock SEmpty [] emptyDb None [] newBlock).
  apply reachable_empty.
Qed.

(** C1, as stated, fails on the empty store: after [AddBlock newBlock] and
    [RemoveBlock] of its identifier, both successful, the head key holds the
    parent of [newBlock], while the store had no head before. *)
Lemma add_remove_leaves_parent_head :
  ∃ dbAdded,
    AddBlock SEmpty [] None emptyDb ([] : World) newBlock
      = (dbAdded, [], None)
    ∧ ∃ dbRemoved,
        RemoveBlock [] None dbAdded ([] : World) (BlockIdentifier_ newBlock)
          = (dbRemoved, [], None)
        ∧ emptyDb !! getHeadBlockKey = None
        ∧ dbRemoved !! getHeadBlockKey
          = Some (SBlockIdentifier (mkBlockIdentifier "blah 0" 0))
        ∧ dbRemoved ≠ emptyDb.
Proof.
  eexists. split; [vm_compute; reflexivity|].
  eexists. split; [vm_compute; reflexivity|].
  split_and!; [reflexivity|vm_compute; reflexivity|].
  intros Heq. apply (f_equal (λ m : gmap string Stored, m !! getHeadBlockKey)) in Heq.
  vm_compute in Heq. discriminate.
Qed.

Lemma add_remove_restores_index_witness :
  RemoveBlock [] None
    (AddBlock SEmpty [] None db1 ([] : World) newBlock2).1.1 ([] : World)
    (BlockIdentifier_ newBlock2)
  = (db1, [], None).
Proof.
  refine (proj2 (proj2 (proj2
    (add_remove_restores_index SEmpty [] None db1 [] newBlock2
       (AddBlock SEmpty [] None db1 ([] : World) newBlock2).1.1 []
       _ reachable_db1 _))) eq_refl _).
  - constructor.
  - vm_compute. reflexivity.
  - vm_compute. reflexivity.
Defined.


Lemma AddBlock_worker_error_atomic_witness :
  AddBlock SEmpty [loggingWorker "a"; failingWorker "boom"; loggingWorker "b"]
    None emptyDb ([] : World) newBlock
  = (emptyDb, [], Some (ErrExternal "boom")).
Proof.
  refine (proj1 (AddBlock_worker_error_atomic SEmpty
                   [loggingWorker "a"] (failingWorker "boom")
                   [loggingWorker "b"] None emptyDb [] newBlock
                   _ _ _ _ _ _ _ _)).
  - vm_compute. reflexivity.
  - vm_compute. reflexivity.
  - vm_compute. reflexivity.
Defined.

Lemma duplicate_block_hash_guard_witness :
  (is_Some (dbCoins !! getCoinKey "coin1")
   ∧ is_Some (dbCoins !! getBlockKey (BlockIdentifier_ utxoBlock)))
  ∧ (∀ block id fault (world : World),
       is_Some (dbCoins !! getBlockKey id) →
       Hash (BlockIdentifier_ block) = Hash id →
       ∃ e, AddBlock SEmpty [coinWorker] fault dbCoins world block
              = (dbCoins, world, Some e)
            ∧ errors_Is e ErrDuplicateBlockHash = true)
  ∧ (∀ id id',
       is_Some (dbCoins !! getBlockKey id) →
       is_Some (dbCoins !! getBlockKey id') →
       Hash id = Hash id' → id = id').
Proof.
  split; [split; vm_compute; by eexists|].
  apply (duplicate_block_hash_guard SEmpty [coinWorker] dbCoins).
  - constructor; [apply CoinStorage_keepsIndex|constructor].
  - apply (reachable_AddBlock SEmpty [coinWorker] emptyDb None [] utxoBlock).
    apply reachable_empty.
Defined.

(** C6, as stated, fails on the store that holds [newBlock]: a block with
    the hash of [newBlock] and two transactions of equal hash is refused with
    [ErrDuplicateBlockHash], not [ErrDuplicateTransactionHash]. *)
Lemma duplicate_transactions_other_error :
  let block :=
    mkBlock (BlockIdentifier_ newBlock) (ParentBlockIdentifier newBlock) 1
      (Transactions duplicateTxBlock) in
  ¬ NoDup (txHashes block)
  ∧ ∃ e, AddBlock SEmpty [] None db1 ([] : World) block = (db1, [], Some e)
         ∧ errors_Is e ErrDuplicateTransactionHash = false
         ∧ errors_Is e ErrDuplicateBlockHash = true.
Proof.
  split.
  - intros Hnodup. vm_compute in Hnodup.
    apply NoDup_cons in Hnodup as [Hnotin _]. apply Hnotin. by left.
  - eexists. split; [vm_compute; reflexivity|]. by vm_compute.
Qed.

Lemma duplicate_transaction_hash_guard_witness :
  ∃ e, AddBlock SEmpty [] None emptyDb ([] : World) duplicateTxBlock
         = (emptyDb, [], Some e)
       ∧ errors_Is e ErrDuplicateTransactionHash = true.
Proof.
  destruct (proj1 (duplicate_transaction_hash_guard SEmpty [])
              None emptyDb ([] : World) duplicateTxBlock)
    as (e & Hadd & _ & Hkind).
  - intros Hnodup. vm_compute in Hnodup.
    apply NoDup_cons in Hnodup as [Hnotin _]. apply Hnotin. by left.
  - exists e. split; [done|]. apply Hkind; [reflexivity|].
    intros txn Hin. by vm_compute.
Defined.


Lemma FindTransaction_spec_witness :
  ∃ ids oldest,
    FindTransaction db2 (mkTransactionIdentifier "blahTx")
      = (Some ids, sub64 2 oldest, None)
    ∧ NoDup ids
    ∧ (∀ id, id ∈ ids ↔ blahTxSightings !! Hash id = Some (Index id))
    ∧ (blahTxSightings ≠ ∅ →
       (∀ h i, blahTxSightings !! h = Some i → int64_range i) →
       (∃ h, blahTxSightings !! h = Some oldest)
       ∧ (∀ h i, blahTxSightings !! h = Some i → oldest ≤ i)
       ∧ (int64_range (2 - oldest) → sub64 2 oldest = 2 - oldest)).
Proof.
  refine (proj2 (proj2 (FindTransaction_spec db2
                          (mkTransactionIdentifier "blahTx"))
                   (SBlocks blahTxSightings) blahTxSightings _ _)
            (SBlockIdentifier (mkBlockIdentifier "blah 2" 2))
            (mkBlockIdentifier "blah 2" 2) _ _).
  - vm_compute. reflexivity.
  - reflexivity.
  - vm_compute. reflexivity.
  - reflexivity.
Defined.

Lemma chainOk_db2 : chainOk db2.
Proof.
  intros id block Hget.
  apply GetBlock_inv_Ok in Hget as (v & Hv & Hdec).
  apply elem_of_map_to_list in Hv. vm_compute map_to_list in Hv.
  repeat (apply elem_of_cons in Hv as [Hv|Hv]);
    try (by apply elem_of_nil in Hv);
    pose proof (f_equal fst Hv) as Hkey; apply (f_equal snd) in Hv;
    simpl in Hkey, Hv; subst v; try discriminate Hdec;
    injection Hdec as <-.
  - apply (getBlockKey_inj id (mkBlockIdentifier "blah 1" 1)) in Hkey as ->.
    by vm_compute.
  - apply (getBlockKey_inj id (mkBlockIdentifier "blah 2" 2)) in Hkey as ->.
    by vm_compute.
Qed.




Lemma GetCoins_dangling_coin_witness :
  ∃ e, GetCoins sampleHash danglingDb account = (None, Some e).
Proof.
  apply (proj1 (GetCoins_dangling_coin sampleHash danglingDb account)
           (SCoins {["coin9"]}) {["coin9"]} "coin9").
  - vm_compute. reflexivity.
  - reflexivity.
  - by apply elem_of_singleton.
  - vm_compute. reflexivity.
Defined.

Lemma AddingBlock_skips_operation_witness :
  addingOperation sampleHash samplePretty sampleCoinStorage
    (mkTransaction (mkTransactionIdentifier "") [failedOperation])
    failedOperation danglingDb
  = (danglingDb, Ok ()).
Proof.
  apply (proj2 (AddingBlock_skips_operation sampleHash samplePretty
                  sampleCoinStorage
                  (mkTransaction (mkTransactionIdentifier "")
                     [failedOperation])
                  failedOperation (or_introl eq_refl)) false eq_refl).
Defined.



(** A run of [AddBlock] with four workers: the callbacks run after the commit
    in registration order, the nil callback is skipped, the failing callback
    stops the loop and its error is returned, and the block stays stored.
    With a failing commit nothing runs and nothing is stored. *)
Example callbacks_run_in_order :
  let workers := [loggingWorker "a"; nilWorker; failingCallbackWorker "fail";
                  loggingWorker "b"] in
  (∃ db',
      AddBlock SEmpty workers None emptyDb ([] : World) newBlock
      = (db', ["a"; "fail"], Some (ErrExternal "fail"))
      ∧ GetBlock db' (BlockIdentifier_ newBlock) = Ok newBlock
      ∧ GetHeadBlockIdentifier db' = Ok (BlockIdentifier_ newBlock))
  ∧ AddBlock SEmpty workers (Some (ErrExternal "commit")) emptyDb
      ([] : World) newBlock
    = (emptyDb, [], Some (ErrExternal "commit")).
Proof.
  split; [|vm_compute; reflexivity].
  eexists. split_and!; vm_compute; reflexivity.
Qed.


(** ** Invariants of stores built by AddBlock and RemoveBlock *)

Section Invariants.
Context {bytes : Type} (emptyBytes : bytes).
Context `{!Codec bytes Block, !Codec bytes BlockIdentifier,
          !Codec bytes (gmap string Z)}.
Context {World : Type}.
Implicit Types (t db : gmap string bytes) (world : World).
Implicit Types (workers : list (@BlockWorker bytes World)).
Implicit Types (id : BlockIdentifier) (T : TransactionIdentifier).
Implicit Types (m : gmap string Z).

Lemma txIds_elem_of T block :
  T ∈ txIds block ↔
  ∃ txn, txn ∈ Transactions block ∧ txKey txn = getTransactionHashKey T.
Proof.
  unfold txIds. rewrite list_elem_of_fmap. split.
  - intros (txn & -> & Hin). by exists txn.
  - intros (txn & Hin & Hkey). exists txn. split; [|done].
    symmetry. by apply getTransactionHashKey_inj.
Qed.

Lemma revIndexOk_ext t t' :
  (∀ k, isIndexKey k = true → t' !! k = t !! k) →
  revIndexOk t → revIndexOk t'.
Proof.
  intros Hext Hok T h i.
  rewrite !Hext by (apply isIndexKey_txHash || apply isIndexKey_block).
  apply Hok.
Qed.

Lemma headOk_ext t t' :
  (∀ k, isIndexKey k = true → t' !! k = t !! k) → headOk t → headOk t'.
Proof.
  intros Hext Hok v. rewrite Hext by apply isIndexKey_head. apply Hok.
Qed.

Lemma sightings_encode db T m :
  db !! getTransactionHashKey T = Some (encode m) → sightings db T = Some m.
Proof. unfold sightings. intros ->. apply decode_encode. Qed.

Lemma sightings_stored db T m h i :
  txIndexOk db → sightings db T = Some m → m !! h = Some i →
  db !! getTransactionHashKey T = Some (encode m).
Proof.
  unfold sightings. intros Htok Hm Hmh.
  destruct (db !! getTransactionHashKey T) as [v|] eqn:Hv.
  - destruct (Htok _ _ Hv) as (m1 & -> & _).
    rewrite decode_encode in Hm. by injection Hm as ->.
  - injection Hm as <-. by rewrite lookup_empty in Hmh.
Qed.

Lemma addBlockWrites_revIndexOk block db t :
  addBlockWrites emptyBytes block db = (t, Ok ()) →
  blocksOk db → txIndexOk db → revIndexOk db → revIndexOk t.
Proof.
  intros Hrun Hbok Htok Hrev.
  apply addBlockWrites_inv_Ok in Hrun
    as (Hfresh & _ & Hbk & _ & _ & Htxs & Hframe).
  destruct (BlockIdentifier_ block) as [h0 i0] eqn:Hid. simpl in *.
  assert (∀ i, db !! getBlockKey (mkBlockIdentifier h0 i) = None) as Hnone.
  { intros i. destruct (db !! getBlockKey _) as [v|] eqn:Hv; [|done].
    destruct (Hbok _ _ Hv) as (_ & [x Hx] & _).
    unfold getBlockHashKey in Hx, Hfresh. simpl in Hx, Hfresh. congruence. }
  assert (∀ id', id' ≠ mkBlockIdentifier h0 i0 →
                 t !! getBlockKey id' = db !! getBlockKey id') as Hblocks.
  { intros id' Hne. apply Hframe.
    - intros Heq. by apply getBlockKey_inj in Heq.
    - apply not_eq_sym, head_ne_block.
    - apply block_ne_blockHash.
    - intros; apply block_ne_txHash. }
  assert (∀ T, T ∉ txIds block →
               t !! getTransactionHashKey T = db !! getTransactionHashKey T)
    as Hother.
  { intros T Hnotin. apply Hframe.
    - apply not_eq_sym, block_ne_txHash.
    - apply not_eq_sym, head_ne_txHash.
    - apply not_eq_sym, blockHash_ne_txHash.
    - intros txn Hin Heq. apply Hnotin. apply txIds_elem_of. by exists txn. }
  assert (∀ T, T ∈ txIds block →
            ∃ m, t !! getTransactionHashKey T
                 = Some (encode (<[h0 := i0]> m))
                 ∧ m !! h0 = None ∧ sightings db T = Some m) as Hin.
  { intros T (txn & Hin & Hkey)%txIds_elem_of.
    destruct (Htxs _ Hin) as (m & Hm & Hm0 & Hval).
    exists m. rewrite <-Hkey. split_and!; [done..|].
    apply getTransactionHashKey_inj in Hkey. by rewrite <-Hkey. }
  intros T h i. split.
  - intros (m' & Hval & Hm').
    destruct (decide (T ∈ txIds block)) as [HT|HT].
    + destruct (Hin _ HT) as (m & Hval' & Hm0 & Hdb).
      rewrite Hval in Hval'. injection Hval' as Heq%encode_inj. subst m'.
      destruct (decide (h = h0)) as [->|Hne].
      * rewrite lookup_insert_eq in Hm'. injection Hm' as <-.
        exists block. by rewrite Hbk.
      * rewrite lookup_insert_ne in Hm' by done.
        pose proof (sightings_stored _ _ _ _ _ Htok Hdb Hm') as Hstored.
        destruct (proj1 (Hrev T h i)) as (b & Hb & HTb); [by eauto|].
        exists b. split; [|done]. rewrite Hblocks; [done|].
        intros [= ? ?]. done.
    + rewrite Hother in Hval by done.
      destruct (proj1 (Hrev T h i)) as (b & Hb & HTb); [by eauto|].
      exists b. split; [|done]. rewrite Hblocks; [done|].
      intros [= -> ->]. by rewrite Hnone in Hb.
  - intros (b & Hb & HTb).
    destruct (decide (mkBlockIdentifier h i = mkBlockIdentifier h0 i0))
      as [Heq|Hne].
    + injection Heq as -> ->. rewrite Hbk in Hb.
      injection Hb as <-%encode_inj.
      destruct (Hin _ HTb) as (m & Hval & _). exists (<[h0 := i0]> m).
      by rewrite lookup_insert_eq.
    + rewrite Hblocks in Hb by done.
      destruct (proj2 (Hrev T h i)) as (m & Hm & Hmh); [by eauto|].
      assert (h ≠ h0) as Hh.
      { intros ->. by rewrite Hnone in Hb. }
      destruct (decide (T ∈ txIds block)) as [HT|HT].
      * destruct (Hin _ HT) as (m2 & Hval & _ & Hdb).
        rewrite (sightings_encode _ _ _ Hm) in Hdb. injection Hdb as <-.
        exists (<[h0 := i0]> m). split; [done|].
        by rewrite lookup_insert_ne.
      * exists m. by rewrite Hother.
Qed.

Lemma removeBlockWrites_revIndexOk block id db t :
  GetBlock db id = Ok block →
  removeBlockWrites block id db = (t, Ok ()) →
  blocksOk db → txIndexOk db → revIndexOk db → revIndexOk t.
Proof.
  intros Hget Hrun Hbok Htok Hrev.
  apply GetBlock_inv_Ok in Hget as (v & Hv & Hdec).
  destruct (Hbok _ _ Hv) as ((b0 & -> & Hid0 & _) & _ & Huniq).
  rewrite decode_encode in Hdec. injection Hdec as ->.
  apply removeBlockWrites_inv_Ok in Hrun as (_ & Hbk & _ & Htxs & Hframe).
  destruct id as [h0 i0]. simpl in *.
  assert (∀ id', id' ≠ mkBlockIdentifier h0 i0 →
                 t !! getBlockKey id' = db !! getBlockKey id') as Hblocks.
  { intros id' Hne. apply Hframe.
    - intros Heq. by apply getBlockKey_inj in Heq.
    - apply not_eq_sym, head_ne_block.
    - apply block_ne_blockHash.
    - intros; apply block_ne_txHash. }
  assert (∀ T, T ∉ txIds block →
               t !! getTransactionHashKey T = db !! getTransactionHashKey T)
    as Hother.
  { intros T Hnotin. apply Hframe.
    - apply not_eq_sym, block_ne_txHash.
    - apply not_eq_sym, head_ne_txHash.
    - apply not_eq_sym, blockHash_ne_txHash.
    - intros txn Hin Heq. apply Hnotin. apply txIds_elem_of. by exists txn. }
  assert (∀ T, T ∈ txIds block →
            ∃ m, db !! getTransactionHashKey T = Some (encode m)
                 ∧ t !! getTransactionHashKey T
                   = if decide (delete h0 m = ∅) then None
                     else Some (encode (delete h0 m))) as Hin.
  { intros T (txn & Hin & Hkey)%txIds_elem_of.
    destruct (Htxs _ Hin) as (v' & m & Hv' & Hm & _ & Hval).
    destruct (Htok (TransactionIdentifier_ txn) _ Hv') as (m1 & -> & _).
    rewrite decode_encode in Hm. injection Hm as ->.
    exists m. by rewrite <-Hkey. }
  assert (∀ h i b, db !! getBlockKey (mkBlockIdentifier h i) = Some b →
                   mkBlockIdentifier h i ≠ mkBlockIdentifier h0 i0 → h ≠ h0)
    as Hhash.
  { intros h i b Hb Hne ->. apply Hne. apply Huniq; [done|by eexists]. }
  intros T h i. split.
  - intros (m' & Hval & Hm').
    destruct (decide (T ∈ txIds block)) as [HT|HT].
    + destruct (Hin _ HT) as (m & Hdb & Hval').
      rewrite Hval in Hval'. case_decide; [done|].
      injection Hval' as ->%encode_inj.
      apply lookup_delete_Some in Hm' as [Hne Hm'].
      destruct (proj1 (Hrev T h i)) as (b & Hb & HTb); [by eauto|].
      exists b. split; [|done]. rewrite Hblocks; [done|].
      intros [= ? ?]. done.
    + rewrite Hother in Hval by done.
      destruct (proj1 (Hrev T h i)) as (b & Hb & HTb); [by eauto|].
      exists b. split; [|done]. rewrite Hblocks; [done|].
      intros [= -> ->]. rewrite Hv in Hb.
      injection Hb as <-%encode_inj. done.
  - intros (b & Hb & HTb).
    destruct (decide (mkBlockIdentifier h i = mkBlockIdentifier h0 i0))
      as [Heq|Hne].
    { rewrite Heq, Hbk in Hb. done. }
    rewrite Hblocks in Hb by done.
    pose proof (Hhash _ _ _ Hb Hne) as Hh.
    destruct (proj2 (Hrev T h i)) as (m & Hm & Hmh); [by eauto|].
    destruct (decide (T ∈ txIds block)) as [HT|HT].
    + destruct (Hin _ HT) as (m2 & Hdb & Hval).
      rewrite Hm in Hdb. injection Hdb as <-%encode_inj.
      assert (delete h0 m !! h = Some i) as Hdel.
      { by rewrite lookup_delete_ne. }
      exists (delete h0 m). split; [|done]. rewrite Hval.
      rewrite decide_False; [done|]. intros Hempty.
      by rewrite Hempty, lookup_empty in Hdel.
    + exists m. by rewrite Hother.
Qed.

Lemma reachable_indexInv workers db :
  Forall keepsIndex workers →
  reachable emptyBytes workers db → indexInv emptyBytes db.
Proof.
  intros Hkeep Hreach.
  destruct (reachable_storeInv emptyBytes _ _ Hkeep Hreach) as [Hb Ht].
  split_and!; [done|done|..];
    clear Hb Ht;
    induction Hreach as [|db fault world block Hreach IH
                         |db fault world id Hreach IH].
  - intros T h i. split.
    + intros (m & Hm & _). by rewrite lookup_empty in Hm.
    + intros (b & Hb & _). by rewrite lookup_empty in Hb.
  - destruct (reachable_storeInv emptyBytes _ _ Hkeep Hreach) as [Hb Ht].
    destruct (AddBlock _ _ _ _ _ _) as [[db' world'] r] eqn:Hadd. simpl.
    apply AddBlock_inv in Hadd
      as [(-> & _)|(t & cws & Hw & Hcall & _)]; [done|].
    pose proof (callWorkers_keepsIndex _ _ _ _ _ _ Hkeep Hcall) as Hext.
    eapply revIndexOk_ext, addBlockWrites_revIndexOk; done.
  - destruct (reachable_storeInv emptyBytes _ _ Hkeep Hreach) as [Hb Ht].
    destruct (RemoveBlock _ _ _ _ _) as [[db' world'] r] eqn:Hrem. simpl.
    apply RemoveBlock_inv in Hrem
      as [(-> & _)|(block & t & cws & Hget & Hw & Hcall & _)]; [done|].
    pose proof (callWorkers_keepsIndex _ _ _ _ _ _ Hkeep Hcall) as Hext.
    eapply revIndexOk_ext, removeBlockWrites_revIndexOk; done.
  - intros v Hv. by rewrite lookup_empty in Hv.
  - destruct (AddBlock _ _ _ _ _ _) as [[db' world'] r] eqn:Hadd. simpl.
    apply AddBlock_inv in Hadd
      as [(-> & _)|(t & cws & Hw & Hcall & _)]; [done|].
    pose proof (callWorkers_keepsIndex _ _ _ _ _ _ Hkeep Hcall) as Hext.
    apply addBlockWrites_inv_Ok in Hw as (_ & _ & _ & Hhead & _).
    intros v. rewrite Hext, Hhead by apply isIndexKey_head.
    intros [= <-]. by eexists.
  - destruct (RemoveBlock _ _ _ _ _) as [[db' world'] r] eqn:Hrem. simpl.
    apply RemoveBlock_inv in Hrem
      as [(-> & _)|(block & t & cws & Hget & Hw & Hcall & _)]; [done|].
    pose proof (callWorkers_keepsIndex _ _ _ _ _ _ Hkeep Hcall) as Hext.
    apply removeBlockWrites_inv_Ok in Hw as (Hhead & _).
    intros v. rewrite Hext, Hhead by apply isIndexKey_head.
    intros [= <-]. by eexists.
  - intros _ key _. apply lookup_empty.
  - destruct (AddBlock _ _ _ _ _ _) as [[db' world'] r] eqn:Hadd. simpl.
    apply AddBlock_inv in Hadd
      as [(-> & _)|(t & cws & Hw & Hcall & _)]; [done|].
    pose proof (callWorkers_keepsIndex _ _ _ _ _ _ Hkeep Hcall) as Hext.
    apply addBlockWrites_inv_Ok in Hw as (_ & _ & _ & Hhead & _).
    intros Hnone. rewrite Hext, Hhead in Hnone by apply isIndexKey_head. done.
  - destruct (RemoveBlock _ _ _ _ _) as [[db' world'] r] eqn:Hrem. simpl.
    apply RemoveBlock_inv in Hrem
      as [(-> & _)|(block & t & cws & Hget & Hw & Hcall & _)]; [done|].
    pose proof (callWorkers_keepsIndex _ _ _ _ _ _ Hkeep Hcall) as Hext.
    apply removeBlockWrites_inv_Ok in Hw as (Hhead & _).
    intros Hnone. rewrite Hext, Hhead in Hnone by apply isIndexKey_head. done.
  - intros id v Hv. by rewrite lookup_empty in Hv.
  - destruct (AddBlock _ _ _ _ _ _) as [[db' world'] r] eqn:Hadd. simpl.
    apply AddBlock_inv in Hadd
      as [(-> & _)|(t & cws & Hw & Hcall & _)]; [done|].
    pose proof (callWorkers_keepsIndex _ _ _ _ _ _ Hkeep Hcall) as Hext.
    apply addBlockWrites_inv_Ok in Hw as (_ & _ & _ & _ & Hhk & _ & Hframe).
    intros id v. rewrite Hext by apply isIndexKey_blockHash.
    destruct (decide (getBlockHashKey id
                      = getBlockHashKey (BlockIdentifier_ block)))
      as [->|Hne].
    + rewrite Hhk. by intros [= <-].
    + rewrite Hframe; [apply IH|apply not_eq_sym, block_ne_blockHash| |done|].
      * apply not_eq_sym, head_ne_blockHash.
      * intros; apply blockHash_ne_txHash.
  - destruct (RemoveBlock _ _ _ _ _) as [[db' world'] r] eqn:Hrem. simpl.
    apply RemoveBlock_inv in Hrem
      as [(-> & _)|(block & t & cws & Hget & Hw & Hcall & _)]; [done|].
    pose proof (callWorkers_keepsIndex _ _ _ _ _ _ Hkeep Hcall) as Hext.
    apply removeBlockWrites_inv_Ok in Hw as (_ & _ & Hhk & _ & Hframe).
    intros id' v. rewrite Hext by apply isIndexKey_blockHash.
    destruct (decide (getBlockHashKey id' = getBlockHashKey id))
      as [->|Hne].
    + by rewrite Hhk.
    + rewrite Hframe; [apply IH|apply not_eq_sym, block_ne_blockHash| |done|].
      * apply not_eq_sym, head_ne_blockHash.
      * intros; apply blockHash_ne_txHash.
Qed.

End Invariants.

(** ** More about the block index *)

Section BlockIndexProperties.
Context {bytes : Type} (emptyBytes : bytes).
Context `{!Codec bytes Block, !Codec bytes BlockIdentifier,
          !Codec bytes (gmap string Z)}.
Context {World : Type}.
Implicit Types (t db : gmap string bytes) (world : World).
Implicit Types (workers : list (@BlockWorker bytes World)).
Implicit Types (id : BlockIdentifier) (T : TransactionIdentifier).
Implicit Types (m : gmap string Z).

Lemma GetHeadBlockIdentifier_Ok db id :
  db !! getHeadBlockKey = Some (encode id) →
  GetHeadBlockIdentifier db = Ok id.
Proof.
  unfold GetHeadBlockIdentifier, NewDatabaseTransaction. intros ->.
  by rewrite decode_encode.
Qed.

Lemma GetBlock_missing db id :
  db !! getBlockKey id = None →
  ∃ e, GetBlock db id = Err e ∧ errors_Is e ErrBlockNotFound = true.
Proof.
  unfold GetBlock, NewDatabaseTransaction. intros ->. eexists. split; [done|].
  apply errors_Is_Wrapf, errors_Is_refl.
Qed.

Lemma FindTransaction_stored db T m (head : BlockIdentifier) :
  db !! getTransactionHashKey T = Some (encode m) →
  db !! getHeadBlockKey = Some (encode head) →
  ∃ ids distance,
    FindTransaction db T = (Some ids, distance, None)
    ∧ ∀ id, id ∈ ids ↔ m !! Hash id = Some (Index id).
Proof.
  intros Hm Hhead. unfold FindTransaction, NewDatabaseTransaction.
  rewrite Hm, Hhead, !decode_encode, findLoop_eq.
  eexists _, _. split; [done|].
  intros [h i]. simpl. rewrite list_elem_of_fmap. split.
  - intros ([h' i'] & [= -> ->] & Hin). by apply elem_of_map_to_list.
  - intros Hmh. exists (h, i). split; [done|]. by apply elem_of_map_to_list.
Qed.

(** X1: After an [AddBlock] that returned no error (with workers that leave the
    block index alone) the store reads back what was added: the head is the
    block's identifier, [GetBlock] returns the block, the block-hash marker
    is set, and [FindTransaction] finds the block under each of its
    transactions. *)
Theorem AddBlock_success_reads workers fault db world block db' world' :
  Forall keepsIndex workers →
  AddBlock emptyBytes workers fault db world block = (db', world', None) →
  let id := BlockIdentifier_ block in
  GetHeadBlockIdentifier db' = Ok id
  ∧ GetBlock db' id = Ok block
  ∧ db' !! getBlockHashKey id = Some emptyBytes
  ∧ ∀ txn, txn ∈ Transactions block →
      ∃ ids distance,
        FindTransaction db' (TransactionIdentifier_ txn)
          = (Some ids, distance, None)
        ∧ id ∈ ids.
Proof.
  intros Hkeep Hadd id.
  apply AddBlock_inv in Hadd
    as [(_ & _ & [? [=]])|(t & cws & Hw & Hcall & _)].
  pose proof (callWorkers_keepsIndex _ _ _ _ _ _ Hkeep Hcall) as Hext.
  apply addBlockWrites_inv_Ok in Hw
    as (_ & _ & Hbk & Hhead & Hhk & Htxs & _).
  fold id in Hbk, Hhead, Hhk, Htxs.
  split_and!.
  - apply GetHeadBlockIdentifier_Ok.
    by rewrite Hext by apply isIndexKey_head.
  - apply GetBlock_Ok. by rewrite Hext by apply isIndexKey_block.
  - by rewrite Hext by apply isIndexKey_blockHash.
  - intros txn Hin. destruct (Htxs _ Hin) as (m & _ & _ & Hval).
    destruct (FindTransaction_stored db' (TransactionIdentifier_ txn)
                (<[Hash id := Index id]> m) id)
      as (ids & distance & Hfind & Hids).
    + by rewrite Hext by apply isIndexKey_txHash.
    + by rewrite Hext by apply isIndexKey_head.
    + exists ids, distance. split; [done|].
      apply Hids. by rewrite lookup_insert_eq.
Qed.

(** X2: [GetBlock] of an identifier without a record fails with
    [ErrBlockNotFound], and [RemoveBlock] of it fails with that error and
    changes neither the store nor the world. *)
Theorem RemoveBlock_missing_block workers fault db world id :
  db !! getBlockKey id = None →
  ∃ e, GetBlock db id = Err e
       ∧ RemoveBlock workers fault db world id = (db, world, Some e)
       ∧ errors_Is e ErrBlockNotFound = true.
Proof.
  intros Hnone. destruct (GetBlock_missing db id Hnone) as (e & Hget & His).
  exists e. unfold RemoveBlock. by rewrite Hget.
Qed.

(** X3: After a [RemoveBlock] that returned no error (with workers that leave the
    block index alone) the head is the parent of the removed block, the
    block is gone ([GetBlock] fails with [ErrBlockNotFound]) and so is its
    block-hash marker, and every other block record is as before. *)
Theorem RemoveBlock_success_effects workers fault db world id db' world' :
  Forall keepsIndex workers →
  RemoveBlock workers fault db world id = (db', world', None) →
  ∃ block,
    GetBlock db id = Ok block
    ∧ GetHeadBlockIdentifier db' = Ok (ParentBlockIdentifier block)
    ∧ (∃ e, GetBlock db' id = Err e ∧ errors_Is e ErrBlockNotFound = true)
    ∧ db' !! getBlockHashKey id = None
    ∧ ∀ id', id' ≠ id → GetBlock db' id' = GetBlock db id'.
Proof.
  intros Hkeep Hrem.
  apply RemoveBlock_inv in Hrem
    as [(_ & _ & [? [=]])|(block & t & cws & Hget & Hw & Hcall & _)].
  pose proof (callWorkers_keepsIndex _ _ _ _ _ _ Hkeep Hcall) as Hext.
  apply removeBlockWrites_inv_Ok in Hw as (Hhead & Hbk & Hhk & _ & Hframe).
  exists block. split_and!; [done|..].
  - apply GetHeadBlockIdentifier_Ok.
    by rewrite Hext by apply isIndexKey_head.
  - apply GetBlock_missing. by rewrite Hext by apply isIndexKey_block.
  - by rewrite Hext by apply isIndexKey_blockHash.
  - intros id' Hne. unfold GetBlock, NewDatabaseTransaction.
    rewrite Hext by apply isIndexKey_block. rewrite Hframe; [done|..].
    + intros Heq. by apply getBlockKey_inj in Heq.
    + apply not_eq_sym, head_ne_block.
    + apply block_ne_blockHash.
    + intros; apply block_ne_txHash.
Qed.

Lemma GetBlock_Ok_iff db id block :
  blocksOk db →
  GetBlock db id = Ok block ↔ db !! getBlockKey id = Some (encode block).
Proof.
  intros Hbok. split; [|apply GetBlock_Ok].
  intros (v & Hv & Hdec)%GetBlock_inv_Ok.
  destruct (Hbok _ _ Hv) as ((b & -> & _) & _).
  rewrite decode_encode in Hdec. by injection Hdec as ->.
Qed.

Lemma stored_block_indexed db id block T :
  blocksOk db → revIndexOk db →
  GetBlock db id = Ok block → T ∈ txIds block →
  ∃ m, db !! getTransactionHashKey T = Some (encode m)
       ∧ m !! Hash id = Some (Index id).
Proof.
  intros Hbok Hrev Hget HT. apply (GetBlock_Ok_iff _ _ _ Hbok) in Hget.
  apply (Hrev T (Hash id) (Index id)). exists block. by destruct id.
Qed.

(** X9: In a store built by [AddBlock] and [RemoveBlock] (with workers that leave
    the block index alone) [FindTransaction] never fails, not even with
    [ErrHeadBlockNotFound], and it returns exactly the identifiers of the
    stored blocks that contain the transaction: nil when there is none. *)
Theorem FindTransaction_exact workers db T :
  Forall keepsIndex workers →
  reachable emptyBytes workers db →
  ∃ ids distance,
    FindTransaction db T = (ids, distance, None)
    ∧ (∀ id, (∃ l, ids = Some l ∧ id ∈ l)
             ↔ (∃ block, GetBlock db id = Ok block ∧ T ∈ txIds block))
    ∧ ids ≠ Some [].
Proof.
  intros Hkeep Hreach.
  destruct (reachable_indexInv emptyBytes _ _ Hkeep Hreach)
    as (Hbok & Htok & Hrev & Hhok & Hewh & _).
  destruct (db !! getTransactionHashKey T) as [v|] eqn:Hv.
  - destruct (Htok _ _ Hv) as (m & -> & Hne).
    destruct (db !! getHeadBlockKey) as [hv|] eqn:Hhead; last first.
    { rewrite (Hewh Hhead _ (isIndexKey_txHash T)) in Hv. done. }
    destruct (Hhok _ Hhead) as (head & ->).
    destruct (FindTransaction_stored db T m head Hv Hhead)
      as (ids & distance & Hfind & Hids).
    exists (Some ids), distance. split_and!; [done| |].
    + intros id. split.
      * intros (l & [= <-] & Hin). apply Hids in Hin.
        destruct (proj1 (Hrev T (Hash id) (Index id))) as (b & Hb & HT);
          [by eauto|].
        exists b. split; [|done]. apply GetBlock_Ok. by destruct id.
      * intros (b & Hget & HT). exists ids. split; [done|]. apply Hids.
        destruct (stored_block_indexed _ _ _ _ Hbok Hrev Hget HT)
          as (m' & Hm' & Hmh).
        rewrite Hv in Hm'. by injection Hm' as ->%encode_inj.
    + intros [= ->]. destruct (map_choose m Hne) as (h & i & Hmh).
      specialize (Hids (mkBlockIdentifier h i)). simpl in Hids.
      apply Hids in Hmh. by apply elem_of_nil in Hmh.
  - exists None, (-1). unfold FindTransaction, NewDatabaseTransaction.
    rewrite Hv. split_and!; [done| |done].
    intros id. split; [by intros (l & [=] & _)|].
    intros (b & Hget & HT).
    destruct (stored_block_indexed _ _ _ _ Hbok Hrev Hget HT)
      as (m' & Hm' & _). congruence.
Qed.

(** X10: A store built by [AddBlock] and [RemoveBlock] that has no head has no
    block record, no block-hash marker and no reverse-index entry: every
    read of the block index comes back empty. *)
Theorem no_head_no_index workers db :
  Forall keepsIndex workers →
  reachable emptyBytes workers db →
  db !! getHeadBlockKey = None →
  (∀ key, isIndexKey key = true → db !! key = None)
  ∧ (∀ id, ∃ e, GetBlock db id = Err e)
  ∧ (∀ T, FindTransaction db T = (None, -1, None))
  ∧ (∀ PastBlockSize, CreateBlockCache PastBlockSize db = []).
Proof.
  intros Hkeep Hreach Hnone.
  destruct (reachable_indexInv emptyBytes _ _ Hkeep Hreach)
    as (_ & _ & _ & _ & Hewh & _).
  specialize (Hewh Hnone). split_and!; [done|..].
  - intros id. destruct (GetBlock_missing db id) as (e & He & _); [|by eauto].
    apply Hewh, isIndexKey_block.
  - intros T. unfold FindTransaction, NewDatabaseTransaction.
    by rewrite (Hewh _ (isIndexKey_txHash T)).
  - intros P. unfold CreateBlockCache, GetHeadBlockIdentifier,
      NewDatabaseTransaction. by rewrite Hnone.
Qed.

Lemma removeBlockWrites_total db id block :
  indexInv emptyBytes db →
  GetBlock db id = Ok block →
  ∃ t, removeBlockWrites block id db = (t, Ok ()).
Proof.
  intros (Hbok & Htok & Hrev & _) Hget.
  pose proof (proj1 (GetBlock_Ok_iff _ _ _ Hbok) Hget) as Hv.
  destruct (Hbok _ _ Hv) as ((b & Hb%encode_inj & _ & Hnodup) & _). subst b.
  destruct (removeLoop_total id (Transactions block) db) as [t1 Hloop].
  - by apply NoDup_txKeys.
  - intros txn Hin.
    destruct (stored_block_indexed db id block (TransactionIdentifier_ txn)
                Hbok Hrev Hget) as (m & Hm & Hmh).
    { apply list_elem_of_fmap. by exists txn. }
    exists (encode m), m. split_and!; [done|apply decode_encode|by eexists].
  - eexists. by rewrite removeBlockWrites_run, Hloop.
Qed.

(** X4: In a store built by [AddBlock] and [RemoveBlock] (with workers that leave
    the block index alone) the index writes of [RemoveBlock] go through for
    every stored block: its integrity errors cannot occur.  Without workers
    and with a commit that goes through, [RemoveBlock] of a stored block
    returns no error. *)
Theorem RemoveBlock_stored_succeeds workers db world id block :
  Forall keepsIndex workers →
  reachable emptyBytes workers db →
  GetBlock db id = Ok block →
  (∃ t, removeBlockWrites block id db = (t, Ok ()))
  ∧ (workers = [] →
     ∃ db', RemoveBlock workers None db world id = (db', world, None)).
Proof.
  intros Hkeep Hreach Hget.
  pose proof (reachable_indexInv emptyBytes _ _ Hkeep Hreach) as Hinv.
  destruct (removeBlockWrites_total db id block Hinv Hget) as [t Hw].
  split; [by eauto|]. intros ->. exists t.
  unfold RemoveBlock, NewDatabaseTransaction. rewrite Hget, Hw. done.
Qed.

Lemma storeLoop_total id (txs : list Transaction) t :
  NoDup (txKey <$> txs) →
  (∀ txn, txn ∈ txs →
     ∃ m, sightings t (TransactionIdentifier_ txn) = Some m
          ∧ m !! Hash id = None) →
  ∃ t',
    forEach (λ txn : Transaction,
               wrapErr ": unable to store transaction hash"
                 (storeTransactionHash id (TransactionIdentifier_ txn)))
      txs t = (t', Ok ()).
Proof.
  revert t. induction txs as [|txn txs IH]; intros t; simpl; [by eauto|].
  intros [Hnotin Hnodup]%NoDup_cons Htxs.
  destruct (Htxs txn) as (m & Hm & Hfresh); [by left|].
  destruct (storeTransactionHash_run id (TransactionIdentifier_ txn) t)
    as (e1 & e2 & Hrun).
  rewrite Hm, Hfresh in Hrun.
  destruct (IH (<[txKey txn := encode (<[Hash id := Index id]> m)]> t)
              Hnodup) as [t' Hrest].
  { intros txn' Hin'. destruct (Htxs txn') as (m' & Hm' & Hfresh');
      [by right|].
    exists m'. split; [|done]. rewrite <-Hm'. apply sightings_frame.
    apply lookup_insert_ne. intros Heq. apply Hnotin. rewrite Heq.
    apply list_elem_of_fmap. by exists txn'. }
  exists t'. unfold bind, wrapErr. by rewrite Hrun.
Qed.

(** A store that agrees on the index keys with the working copy after the
    index writes of [RemoveBlock] lets the index writes of [AddBlock] of the
    removed block go through, and they put every index key except the head
    back to its value in [db]. *)
Lemma add_after_remove block id db t db1 :
  indexInv emptyBytes db →
  GetBlock db id = Ok block →
  removeBlockWrites block id db = (t, Ok ()) →
  (∀ k, isIndexKey k = true → db1 !! k = t !! k) →
  ∃ t2, addBlockWrites emptyBytes block db1 = (t2, Ok ())
        ∧ t2 !! getHeadBlockKey = Some (encode id)
        ∧ (∀ k, isIndexKey k = true → k ≠ getHeadBlockKey →
                t2 !! k = db !! k)
        ∧ (∀ k, isIndexKey k = false → t2 !! k = db1 !! k).
Proof.
  intros (Hbok & Htok & Hrev & _ & _ & Hmok) Hget Hrem Hagree.
  pose proof (proj1 (GetBlock_Ok_iff _ _ _ Hbok) Hget) as Hv.
  destruct (Hbok _ _ Hv)
    as ((b & Hb%encode_inj & Hid & Hnodup) & [mv Hmark] & _). subst b.
  pose proof (Hmok _ _ Hmark) as ->.
  apply removeBlockWrites_inv_Ok in Hrem
    as (_ & Hbk & Hhk & Htxs & Hframe).
  assert (∀ txn, txn ∈ Transactions block →
            ∃ m, db !! txKey txn = Some (encode m)
                 ∧ m !! Hash id = Some (Index id)
                 ∧ sightings db1 (TransactionIdentifier_ txn)
                   = Some (delete (Hash id) m)) as Hsight.
  { intros txn Hin.
    destruct (stored_block_indexed db id block (TransactionIdentifier_ txn)
                Hbok Hrev Hget) as (m & Hm & Hmh).
    { apply list_elem_of_fmap. by exists txn. }
    exists m. split_and!; [done..|].
    destruct (Htxs _ Hin) as (v' & m' & Hv' & Hm' & _ & Hval).
    unfold txKey in Hv'. rewrite Hm in Hv'. injection Hv' as <-.
    rewrite decode_encode in Hm'. injection Hm' as <-.
    unfold sightings. rewrite Hagree by apply isIndexKey_txHash.
    fold (txKey txn). rewrite Hval.
    case_decide as Hempty; [by rewrite Hempty|apply decode_encode]. }
  assert (∃ t2, addBlockWrites emptyBytes block db1 = (t2, Ok ()))
    as [t2 Hadd].
  { rewrite addBlockWrites_run, Hid.
    rewrite Hagree, Hhk by apply isIndexKey_blockHash.
    apply storeLoop_total; [by apply NoDup_txKeys|].
    intros txn Hin. destruct (Hsight _ Hin) as (m & _ & _ & Hs).
    exists (delete (Hash id) m). split; [|apply lookup_delete_eq].
    rewrite <-Hs. apply sightings_frame.
    rewrite lookup_insert_ne by apply blockHash_ne_txHash.
    unfold blockAndHead.
    rewrite lookup_insert_ne by apply head_ne_txHash.
    by rewrite lookup_insert_ne by apply block_ne_txHash. }
  exists t2. split; [done|].
  apply addBlockWrites_inv_Ok in Hadd
    as (_ & _ & Hbk2 & Hhead2 & Hhk2 & Htxs2 & Hframe2).
  rewrite Hid in Hbk2, Hhead2, Hhk2, Htxs2, Hframe2.
  split_and!; [done| |].
  - intros k Hk Hnothead.
    destruct (decide (k = getBlockKey id)) as [->|Hk1]; [congruence|].
    destruct (decide (k = getBlockHashKey id)) as [->|Hk2]; [congruence|].
    destruct (decide (k ∈ txKey <$> Transactions block)) as [Hin|Hnotin].
    + apply list_elem_of_fmap in Hin as (txn & -> & Hin).
      destruct (Hsight _ Hin) as (m & Hm & Hmh & Hs).
      destruct (Htxs2 _ Hin) as (m' & Hs' & _ & Hval).
      rewrite Hs in Hs'. injection Hs' as <-.
      by rewrite Hval, Hm, insert_delete_id.
    + assert (∀ txn, txn ∈ Transactions block → k ≠ txKey txn) as Hk4.
      { intros txn Hin ->. apply Hnotin.
        apply list_elem_of_fmap. by exists txn. }
      rewrite Hframe2, Hagree, Hframe by done. done.
  - intros k Hk. apply Hframe2.
    + intros ->. by rewrite isIndexKey_block in Hk.
    + intros ->. by rewrite isIndexKey_head in Hk.
    + intros ->. by rewrite isIndexKey_blockHash in Hk.
    + intros txn _ ->. unfold txKey in Hk.
      by rewrite isIndexKey_txHash in Hk.
Qed.

(** X6: The other way round from adding and removing: in a store built by
    [AddBlock] and [RemoveBlock], after a successful [RemoveBlock] of a
    stored block the index writes of an [AddBlock] of that same block cannot
    fail (no duplicate guard fires), and a successful [AddBlock] gives every
    block, block-hash and transaction-hash key its value from before the
    removal, with the block as head.  Without workers, when the block was the
    head, the store is again the one before the removal. *)
Theorem remove_then_add_restores workers fault db world id block db1 world1 :
  Forall keepsIndex workers →
  reachable emptyBytes workers db →
  GetBlock db id = Ok block →
  RemoveBlock workers fault db world id = (db1, world1, None) →
  (∃ t2, addBlockWrites emptyBytes block db1 = (t2, Ok ()))
  ∧ (∀ fault2 db2 world2,
       AddBlock emptyBytes workers fault2 db1 world1 block
         = (db2, world2, None) →
       db2 !! getHeadBlockKey = Some (encode id)
       ∧ ∀ k, isIndexKey k = true → k ≠ getHeadBlockKey →
              db2 !! k = db !! k)
  ∧ (workers = [] →
     db !! getHeadBlockKey = Some (encode id) →
     AddBlock emptyBytes workers None db1 world1 block = (db, world1, None)).
Proof.
  intros Hkeep Hreach Hget Hrem.
  pose proof (reachable_indexInv emptyBytes _ _ Hkeep Hreach) as Hinv.
  apply RemoveBlock_inv in Hrem
    as [(_ & _ & [? [=]])|(b & t & cws & Hget' & Hw & Hcall & _ & Hcb)].
  rewrite Hget in Hget'. injection Hget' as <-.
  pose proof (callWorkers_keepsIndex _ _ _ _ _ _ Hkeep Hcall) as Hagree.
  destruct (add_after_remove block id db t db1 Hinv Hget Hw Hagree)
    as (t2 & Hadd & Hhead2 & Hindex & Hother).
  split_and!; [by eauto| |].
  - intros fault2 db2 world2 Hadd2.
    apply AddBlock_inv in Hadd2
      as [(_ & _ & [? [=]])|(t2' & cws2 & Hw2 & Hcall2 & _)].
    rewrite Hadd in Hw2. injection Hw2 as <-.
    pose proof (callWorkers_keepsIndex _ _ _ _ _ _ Hkeep Hcall2) as Hagree2.
    split.
    + by rewrite Hagree2 by apply isIndexKey_head.
    + intros k Hk Hnothead. rewrite Hagree2 by done. by apply Hindex.
  - intros -> Hhead. simpl in Hcall. injection Hcall as <- <-.
    unfold AddBlock, NewDatabaseTransaction.
    rewrite Hadd. unfold callWorkersAndCommit. simpl.
    f_equal. f_equal. apply map_eq. intros k.
    destruct (isIndexKey k) eqn:Hk.
    + destruct (decide (k = getHeadBlockKey)) as [->|Hne]; [congruence|].
      by apply Hindex.
    + rewrite Hother by done.
      apply removeBlockWrites_inv_Ok in Hw as (_ & _ & _ & _ & Hframe).
      apply Hframe.
      * intros ->. by rewrite isIndexKey_block in Hk.
      * intros ->. by rewrite isIndexKey_head in Hk.
      * intros ->. by rewrite isIndexKey_blockHash in Hk.
      * intros txn _ ->. unfold txKey in Hk.
        by rewrite isIndexKey_txHash in Hk.
Qed.

Lemma removeBlocksLoop_error_kind fuel db world curr startIndex
    db' world' e :
  reachable emptyBytes ([] : list (@BlockWorker bytes World)) db →
  removeBlocksLoop [] fuel [] db world curr startIndex
    = Some (db', world', Some e) →
  errors_Is e ErrBlockNotFound = true.
Proof.
  revert db world curr.
  induction fuel as [|fuel IH]; intros db world curr Hreach; simpl.
  - by case_decide.
  - case_decide; [|done].
    pose proof (reachable_indexInv emptyBytes _ _ (List.Forall_nil _) Hreach)
      as Hinv.
    destruct (GetBlock db curr) as [block|e0] eqn:Hget.
    + pose proof Hinv as (Hbok & _).
      pose proof (proj1 (GetBlock_Ok_iff _ _ _ Hbok) Hget) as Hv.
      destruct (Hbok _ _ Hv) as ((b & Hb%encode_inj & Hid & _) & _). subst b.
      rewrite Hid.
      destruct (removeBlockWrites_total db curr block Hinv Hget) as [t Hw].
      assert (RemoveBlock [] None db world curr = (t, world, None)) as Hrem.
      { unfold RemoveBlock, NewDatabaseTransaction. by rewrite Hget, Hw. }
      simpl. rewrite Hrem. apply IH.
      pose proof (reachable_RemoveBlock emptyBytes [] db None world curr
                    Hreach) as Hreach'.
      by rewrite Hrem in Hreach'.
    + intros [= <- <- <-].
      destruct (db !! getBlockKey curr) as [v|] eqn:Hv.
      * destruct Hinv as (Hbok & _).
        destruct (Hbok _ _ Hv) as ((b & -> & _) & _).
        unfold GetBlock, NewDatabaseTransaction in Hget.
        by rewrite Hv, decode_encode in Hget.
      * destruct (GetBlock_missing db curr Hv) as (e & He & His). congruence.
Qed.

(** X11: In a store built by [AddBlock] and [RemoveBlock], without workers and
    with commits that go through, [SetNewStartIndex] can fail in two ways
    only: the head is below the start index (nothing is removed), or the walk
    along the parents meets an identifier that has no stored block
    ([ErrBlockNotFound]). *)
Theorem SetNewStartIndex_errors fuel db world startIndex db' world' e :
  reachable emptyBytes ([] : list (@BlockWorker bytes World)) db →
  SetNewStartIndex [] fuel [] db world startIndex
    = Some (db', world', Some e) →
  (∃ head, GetHeadBlockIdentifier db = Ok head
           ∧ Index head < startIndex ∧ db' = db)
  ∨ errors_Is e ErrBlockNotFound = true.
Proof.
  intros Hreach. unfold SetNewStartIndex.
  pose proof (reachable_indexInv emptyBytes _ _ (List.Forall_nil _) Hreach)
    as (_ & _ & _ & Hhok & _).
  destruct (GetHeadBlockIdentifier db) as [head|e0] eqn:Hhead.
  - case_decide.
    + intros [= <- <- <-]. left. by exists head.
    + intros Hloop. right. by eapply removeBlocksLoop_error_kind.
  - unfold GetHeadBlockIdentifier, NewDatabaseTransaction in Hhead.
    destruct (db !! getHeadBlockKey) as [v|] eqn:Hv.
    + destruct (Hhok _ Hv) as (id & ->). by rewrite decode_encode in Hhead.
    + injection Hhead as <-. by rewrite errors_Is_refl.
Qed.

End BlockIndexProperties.

(** ** More about CreateBlockCache *)

Section CacheChain.
Context {bytes : Type}.
Context `{!Codec bytes Block, !Codec bytes BlockIdentifier}.
Variable PastBlockSize : nat.
Implicit Types (db : gmap string bytes) (head : BlockIdentifier).

Lemma walk_chainFrom n db head :
  keyedById db →
  chainFrom db head (BlockIdentifier_ <$> walk n db head).
Proof.
  intros Hkeyed. revert head. induction n as [|n IH]; intros head; simpl;
    [done|].
  destruct (GetBlock db head) as [block|] eqn:Hget; simpl; [|done].
  pose proof (Hkeyed _ _ Hget) as Hid. split; [done|].
  exists block. rewrite Hid. split; [done|]. apply IH.
Qed.

(** X12: When blocks are stored under the identifier they carry, the cache read
    from its end is a chain: it starts at the head, every identifier has a
    stored block, and each next one is the parent named by that block.  If
    the head block is stored and the cache may hold anything, its last
    element is the head. *)
Theorem CreateBlockCache_chain db head :
  keyedById db →
  GetHeadBlockIdentifier db = Ok head →
  chainFrom db head (rev (CreateBlockCache PastBlockSize db))
  ∧ (∀ block, GetBlock db head = Ok block → (0 < PastBlockSize)%nat →
              last (CreateBlockCache PastBlockSize db) = Some head).
Proof.
  intros Hkeyed Hhead. unfold CreateBlockCache. rewrite Hhead.
  rewrite blockCacheLoop_walk by (simpl; lia). simpl.
  rewrite Nat.sub_0_r, app_nil_r. split.
  - rewrite rev_involutive. by apply walk_chainFrom.
  - intros block Hget Hpos.
    destruct PastBlockSize as [|n]; [lia|]. simpl. rewrite Hget. simpl.
    rewrite last_snoc. f_equal. by apply Hkeyed.
Qed.

End CacheChain.

(** ** More about CoinStorage *)

Section CoinProperties.
Context {bytes : Type}.
Context `{!Codec bytes Coin, !Codec bytes (gset string)}.
Context {World : Type}.
Variable typesHash : AccountIdentifier → string.
Variable PrettyPrintStruct : AccountIdentifier → string.
Implicit Types (t db : gmap string bytes) (c : CoinStorage).
Implicit Types (txn : Transaction) (operation : Operation).
Implicit Types (coins : gset string).

Lemma coin_ne_coinAccount coinIdentifier accountIdentifier :
  getCoinKey coinIdentifier ≠ getCoinAccountKey typesHash accountIdentifier.
Proof. done. Qed.

(** [tryAddingCoin] on an operation whose metadata names a coin, step by
    step. *)
Lemma tryAddingCoin_run txn operation identiferKey coinIdentifier t :
  Metadata operation !! identiferKey = Some (MetaString coinIdentifier) →
  let t1 := <[getCoinKey coinIdentifier
               := encode (mkCoin coinIdentifier txn operation)]> t in
  ∃ e,
  tryAddingCoin typesHash PrettyPrintStruct txn operation identiferKey t =
    match t !! getCoinAccountKey typesHash (Account operation) with
    | Some val =>
        match (decode val : option (gset string)) with
        | None => (t1, Err e)
        | Some coins =>
            if decide (coinIdentifier ∈ coins) then
              (t1, Err (Errorf ("coin " +:+ coinIdentifier
                                  +:+ " already exists in account "
                                  +:+ PrettyPrintStruct (Account operation))))
            else
              (<[getCoinAccountKey typesHash (Account operation)
                  := encode ({[coinIdentifier]} ∪ coins)]> t1, Ok ())
        end
    | None =>
        (<[getCoinAccountKey typesHash (Account operation)
            := encode ({[coinIdentifier]} ∪ (∅ : gset string))]> t1, Ok ())
    end.
Proof.
  intros Hmeta t1. unfold tryAddingCoin. rewrite Hmeta.
  unfold bind at 1. unfold wrapErr at 1. unfold Set_ at 1. fold t1.
  unfold bind at 1. unfold wrapErr at 1.
  destruct (getAndDecodeCoins_run typesHash (Account operation) t1)
    as [e Hrun].
  rewrite Hrun.
  assert (t1 !! getCoinAccountKey typesHash (Account operation)
          = t !! getCoinAccountKey typesHash (Account operation)) as ->.
  { unfold t1. apply lookup_insert_ne, coin_ne_coinAccount. }
  eexists.
  destruct (t !! getCoinAccountKey typesHash (Account operation)) as [val|].
  - destruct (decode val) as [coins|]; [|reflexivity].
    case_decide; [done|].
    by unfold wrapErr, encodeAndSetCoins, Set_.
  - case_decide as Hin; [by apply elem_of_empty in Hin|].
    by unfold wrapErr, encodeAndSetCoins, Set_.
Qed.

(** [tryRemovingCoin] on an operation whose metadata names a coin, step by
    step. *)
Lemma tryRemovingCoin_run operation identiferKey coinIdentifier t :
  Metadata operation !! identiferKey = Some (MetaString coinIdentifier) →
  let t1 := delete (getCoinKey coinIdentifier) t in
  ∃ e,
  tryRemovingCoin typesHash PrettyPrintStruct operation identiferKey t =
    match t !! getCoinKey coinIdentifier with
    | None => (t, Ok ())
    | Some _ =>
        match t !! getCoinAccountKey typesHash (Account operation) with
        | None =>
            (t1, Err (Errorf "%!w(<nil>): unable to find owner of coin"))
        | Some val =>
            match (decode val : option (gset string)) with
            | None => (t1, Err e)
            | Some coins =>
                if decide (coinIdentifier ∈ coins) then
                  (<[getCoinAccountKey typesHash (Account operation)
                      := encode (coins ∖ {[coinIdentifier]})]> t1, Ok ())
                else
                  (t1, Err (Errorf ("unable to find coin " +:+ coinIdentifier
                                      +:+ " in account "
                                      +:+ PrettyPrintStruct
                                            (Account operation))))
            end
        end
    end.
Proof.
  intros Hmeta t1. unfold tryRemovingCoin. rewrite Hmeta.
  unfold bind at 1. unfold wrapErr at 1. unfold Get at 1.
  destruct (t !! getCoinKey coinIdentifier) as [v|];
    [|by exists (Errorf EmptyString)].
  unfold bind at 1. unfold wrapErr at 1. unfold Delete at 1. fold t1.
  unfold bind at 1. unfold wrapErr at 1.
  destruct (getAndDecodeCoins_run typesHash (Account operation) t1)
    as [e Hrun].
  rewrite Hrun.
  assert (t1 !! getCoinAccountKey typesHash (Account operation)
          = t !! getCoinAccountKey typesHash (Account operation)) as ->.
  { unfold t1. apply lookup_delete_ne, coin_ne_coinAccount. }
  eexists.
  destruct (t !! getCoinAccountKey typesHash (Account operation)) as [val|]; [|done].
  destruct (decode val) as [coins|]; [|reflexivity].
  case_decide; [|done].
  by unfold wrapErr, encodeAndSetCoins, Set_.
Qed.

(** X14: [tryAddingCoin] on an operation that names a coin succeeds exactly when
    the account does not hold the coin yet (a record of the coin under
    another account does not count).  After a success the record of the coin
    reads back as the coin of this transaction and operation, the set of the
    account is the old one with the coin added, and no other key has
    changed. *)
Theorem tryAddingCoin_contract txn operation identiferKey coinIdentifier t :
  Metadata operation !! identiferKey = Some (MetaString coinIdentifier) →
  (∀ coins, heldCoins typesHash t (Account operation) coins →
            coinIdentifier ∉ coins →
            ∃ t', tryAddingCoin typesHash PrettyPrintStruct txn operation
                    identiferKey t = (t', Ok ()))
  ∧ (∀ t', tryAddingCoin typesHash PrettyPrintStruct txn operation
             identiferKey t = (t', Ok ()) →
       ∃ coins,
         heldCoins typesHash t (Account operation) coins
         ∧ (coinIdentifier ∉ coins)
         ∧ getAndDecodeCoin coinIdentifier t'
           = (t', Ok (Some (mkCoin coinIdentifier txn operation)))
         ∧ getAndDecodeCoins typesHash (Account operation) t'
           = (t', Ok (Some ({[coinIdentifier]} ∪ coins)))
         ∧ ∀ key, key ≠ getCoinKey coinIdentifier →
                  key ≠ getCoinAccountKey typesHash (Account operation) →
                  t' !! key = t !! key).
Proof.
  intros Hmeta.
  destruct (tryAddingCoin_run txn operation identiferKey coinIdentifier t
              Hmeta) as [e Hrun].
  rewrite Hrun. clear Hrun. unfold heldCoins. split.
  - intros coins Hheld Hnin.
    destruct (t !! getCoinAccountKey typesHash (Account operation))
      as [val|]; [|by eexists].
    rewrite Hheld. rewrite decide_False by done. by eexists.
  - intros t' Hrun.
    assert (∃ coins,
      match t !! getCoinAccountKey typesHash (Account operation) with
      | Some val => decode val = Some coins
      | None => coins = ∅
      end
      ∧ (coinIdentifier ∉ coins)
      ∧ t' = <[getCoinAccountKey typesHash (Account operation)
                := encode ({[coinIdentifier]} ∪ coins)]>
               (<[getCoinKey coinIdentifier
                   := encode (mkCoin coinIdentifier txn operation)]> t))
      as (coins & Hheld & Hnin & ->).
    { destruct (t !! getCoinAccountKey typesHash (Account operation))
        as [val|].
      - destruct (decode val : option (gset string)) as [coins|] eqn:Hdec;
          [|done].
        case_decide; [done|]. injection Hrun as <-. by exists coins.
      - injection Hrun as <-. exists ∅. split_and!; [done|set_solver|done]. }
    exists coins. split_and!; [done|done|..].
    + destruct (getAndDecodeCoin_run coinIdentifier
        (<[getCoinAccountKey typesHash (Account operation)
            := encode ({[coinIdentifier]} ∪ coins)]>
           (<[getCoinKey coinIdentifier
               := encode (mkCoin coinIdentifier txn operation)]> t)))
        as [e' ->].
      rewrite lookup_insert_ne by (apply not_eq_sym, coin_ne_coinAccount).
      by rewrite lookup_insert_eq, decode_encode.
    + destruct (getAndDecodeCoins_run typesHash (Account operation)
        (<[getCoinAccountKey typesHash (Account operation)
            := encode ({[coinIdentifier]} ∪ coins)]>
           (<[getCoinKey coinIdentifier
               := encode (mkCoin coinIdentifier txn operation)]> t)))
        as [e' ->].
      by rewrite lookup_insert_eq, decode_encode.
    + intros key Hk1 Hk2. by rewrite !lookup_insert_ne.
Qed.

(** X15: A successful operation with an amount that creates a coin its account
    already holds makes [AddingBlock] fail: the error names the coin and the
    account, wrapped as [unable to add coin]. *)
Theorem addingOperation_duplicate_coin c txn operation amount coinIdentifier
    coins t :
  OperationSuccessful c operation = Ok true →
  OpAmount operation = Some amount →
  Metadata operation !! coinCreated = Some (MetaString coinIdentifier) →
  heldCoins typesHash t (Account operation) coins →
  coinIdentifier ∈ coins →
  ∃ t',
    addingOperation typesHash PrettyPrintStruct c txn operation t
    = (t', Err (Wrapf (Errorf ("coin " +:+ coinIdentifier
                                 +:+ " already exists in account "
                                 +:+ PrettyPrintStruct (Account operation)))
                  ": unable to add coin")).
Proof.
  intros Hsucc Hamount Hmeta Hheld Hin.
  unfold addingOperation. rewrite Hsucc, Hamount. simpl.
  unfold bind at 1. unfold wrapErr at 1.
  destruct (tryAddingCoin_run txn operation coinCreated coinIdentifier t
              Hmeta) as [e ->].
  unfold heldCoins in Hheld.
  destruct (t !! getCoinAccountKey typesHash (Account operation)) as [val|].
  - rewrite Hheld. rewrite decide_True by done. by eexists.
  - subst coins. by apply elem_of_empty in Hin.
Qed.

(** X16: [tryRemovingCoin] on an operation that names a coin: a coin without a
    record is passed over, nothing changes and there is no error, even when
    the set of the account lists it.  A coin with a record is removed exactly
    when the stored set of the account holds it: the record is deleted and
    the set is stored without the coin.  When the coin has a record and the
    account has no set, the error wraps nothing. *)
Theorem tryRemovingCoin_contract operation identiferKey coinIdentifier t :
  Metadata operation !! identiferKey = Some (MetaString coinIdentifier) →
  (t !! getCoinKey coinIdentifier = None →
   tryRemovingCoin typesHash PrettyPrintStruct operation identiferKey t
   = (t, Ok ()))
  ∧ (is_Some (t !! getCoinKey coinIdentifier) →
     (∀ t', tryRemovingCoin typesHash PrettyPrintStruct operation
              identiferKey t = (t', Ok ()) ↔
            ∃ val coins,
              t !! getCoinAccountKey typesHash (Account operation) = Some val
              ∧ decode val = Some coins
              ∧ coinIdentifier ∈ coins
              ∧ t' = <[getCoinAccountKey typesHash (Account operation)
                        := encode (coins ∖ {[coinIdentifier]})]>
                       (delete (getCoinKey coinIdentifier) t))
     ∧ (t !! getCoinAccountKey typesHash (Account operation) = None →
        tryRemovingCoin typesHash PrettyPrintStruct operation identiferKey t
        = (delete (getCoinKey coinIdentifier) t,
           Err (Errorf "%!w(<nil>): unable to find owner of coin")))).
Proof.
  intros Hmeta.
  destruct (tryRemovingCoin_run operation identiferKey coinIdentifier t
              Hmeta) as [e Hrun].
  rewrite Hrun. clear Hrun. split; [by intros ->|].
  intros [v ->]. split; [|by intros ->].
  intros t'.
  destruct (t !! getCoinAccountKey typesHash (Account operation)) as [val|].
  - destruct (decode val : option (gset string)) as [coins|] eqn:Hdec.
    + case_decide as Hin.
      * split.
        -- intros [= <-]. by exists val, coins.
        -- intros (? & coins' & [= <-] & Hdec' & _ & ->).
           rewrite Hdec in Hdec'. by injection Hdec' as <-.
      * split; [done|].
        intros (? & coins' & [= <-] & Hdec' & Hin' & _).
        rewrite Hdec in Hdec'. by injection Hdec' as <-.
    + split; [done|]. intros (? & coins' & [= <-] & Hdec' & _).
      by rewrite Hdec in Hdec'.
  - split; [done|]. by intros (? & ? & [=] & _).
Qed.

(** X17: The life of a coin: one operation creates it and a later operation of
    the same account spends it, both through [AddingBlock].  The second
    operation succeeds, the record of the coin is gone, the set of the
    account is what it was before the coin was created (now stored, also when
    the account had no set before), and no other key has changed. *)
Theorem created_coin_is_spent c txn operation amount txn' operation' amount'
    coinIdentifier t t1 :
  OperationSuccessful c operation = Ok true →
  OpAmount operation = Some amount →
  Metadata operation !! coinCreated = Some (MetaString coinIdentifier) →
  Metadata operation !! coinSpent = None →
  OperationSuccessful c operation' = Ok true →
  OpAmount operation' = Some amount' →
  Metadata operation' !! coinCreated = None →
  Metadata operation' !! coinSpent = Some (MetaString coinIdentifier) →
  Account operation' = Account operation →
  addingOperation typesHash PrettyPrintStruct c txn operation t
    = (t1, Ok ()) →
  ∃ t2 coins,
    addingOperation typesHash PrettyPrintStruct c txn' operation' t1
      = (t2, Ok ())
    ∧ heldCoins typesHash t (Account operation) coins
    ∧ getAndDecodeCoin coinIdentifier t2 = (t2, Ok None)
    ∧ getAndDecodeCoins typesHash (Account operation) t2
      = (t2, Ok (Some coins))
    ∧ ∀ key, key ≠ getCoinKey coinIdentifier →
             key ≠ getCoinAccountKey typesHash (Account operation) →
             t2 !! key = t !! key.
Proof.
  intros Hsucc Hamount Hcreated Hspent Hsucc' Hamount' Hcreated' Hspent'
    Hacc.
  unfold addingOperation.
  rewrite Hsucc, Hamount, Hsucc', Hamount'. simpl.
  unfold bind, wrapErr.
  destruct (tryAddingCoin_run txn operation coinCreated coinIdentifier t
              Hcreated) as [e ->].
  unfold tryRemovingCoin at 1. rewrite Hspent. unfold ret.
  unfold tryAddingCoin at 1. rewrite Hcreated'. unfold ret.
  intros Hrun.
  assert (∃ coins,
    heldCoins typesHash t (Account operation) coins
    ∧ (coinIdentifier ∉ coins)
    ∧ t1 = <[getCoinAccountKey typesHash (Account operation)
              := encode ({[coinIdentifier]} ∪ coins)]>
             (<[getCoinKey coinIdentifier
                 := encode (mkCoin coinIdentifier txn operation)]> t))
    as (coins & Hheld & Hnin & ->).
  { unfold heldCoins.
    destruct (t !! getCoinAccountKey typesHash (Account operation))
      as [val|].
    - destruct (decode val : option (gset string)) as [coins|] eqn:Hdec;
        [|done].
      case_decide; [done|]. injection Hrun as <-. by exists coins.
    - injection Hrun as <-. exists ∅. split_and!; [done|set_solver|done]. }
  clear Hrun.
  destruct (tryRemovingCoin_run operation' coinSpent coinIdentifier
    (<[getCoinAccountKey typesHash (Account operation)
        := encode ({[coinIdentifier]} ∪ coins)]>
       (<[getCoinKey coinIdentifier
           := encode (mkCoin coinIdentifier txn operation)]> t))
    Hspent') as [e' ->].
  rewrite Hacc.
  rewrite lookup_insert_ne by (apply not_eq_sym, coin_ne_coinAccount).
  rewrite !lookup_insert_eq, decode_encode.
  rewrite decide_True by set_solver.
  eexists _, coins. split; [reflexivity|]. split; [done|].
  assert (({[coinIdentifier]} ∪ coins) ∖ {[coinIdentifier]} = coins) as ->.
  { apply set_eq. intros x. rewrite elem_of_difference, elem_of_union,
      elem_of_singleton. split.
    - by intros [[->|Hx] Hne].
    - intros Hx. split; [by right|]. by intros ->. }
  split_and!.
  - match goal with |- getAndDecodeCoin _ ?t2 = _ =>
      destruct (getAndDecodeCoin_run coinIdentifier t2) as [e2 ->] end.
    rewrite lookup_insert_ne by (apply not_eq_sym, coin_ne_coinAccount).
    by rewrite lookup_delete_eq.
  - match goal with |- getAndDecodeCoins _ _ ?t2 = _ =>
      destruct (getAndDecodeCoins_run typesHash (Account operation) t2)
        as [e2 ->] end.
    by rewrite lookup_insert_eq, decode_encode.
  - intros key Hk1 Hk2.
    by rewrite lookup_insert_ne, lookup_delete_ne, !lookup_insert_ne.
Qed.

Ltac lookup_simpl :=
  repeat first
    [ rewrite lookup_insert_eq
    | rewrite lookup_delete_eq
    | rewrite lookup_insert_ne by done
    | rewrite lookup_delete_ne by done ].

Lemma add_remove_same coinIdentifier coins :
  coinIdentifier ∉ coins →
  ({[coinIdentifier]} ∪ coins) ∖ {[coinIdentifier]} = coins.
Proof.
  intros Hnin. apply set_eq. intros x.
  rewrite elem_of_difference, elem_of_union, elem_of_singleton. split.
  - by intros [[->|Hx] Hne].
  - intros Hx. split; [by right|]. by intros ->.
Qed.

Lemma remove_add_same coinIdentifier coins :
  coinIdentifier ∈ coins →
  {[coinIdentifier]} ∪ coins ∖ {[coinIdentifier]} = coins.
Proof.
  intros Hin. apply set_eq. intros x.
  rewrite elem_of_union, elem_of_difference, elem_of_singleton. split.
  - by intros [->|[Hx _]].
  - intros Hx. destruct (decide (x = coinIdentifier)); [by left|by right].
Qed.

(** X18: A re-org of an operation that created a coin: [RemovingBlock] after
    [AddingBlock] succeeds and deletes the record of the coin.  The set of
    the account holds the coins it held before, and is stored also when the
    account had no set before; no other key has changed. *)
Theorem reorg_removes_created_coin c txn operation amount coinIdentifier
    coins t :
  OperationSuccessful c operation = Ok true →
  OpAmount operation = Some amount →
  Metadata operation !! coinCreated = Some (MetaString coinIdentifier) →
  Metadata operation !! coinSpent = None →
  heldCoins typesHash t (Account operation) coins →
  coinIdentifier ∉ coins →
  ∃ t1,
    addingOperation typesHash PrettyPrintStruct c txn operation t
      = (t1, Ok ())
    ∧ removingOperation typesHash PrettyPrintStruct c txn operation t1
      = (<[getCoinAccountKey typesHash (Account operation) := encode coins]>
           (delete (getCoinKey coinIdentifier) t), Ok ()).
Proof.
  intros Hsucc Hamount Hcreated Hspent Hheld Hnin.
  unfold addingOperation, removingOperation.
  rewrite Hsucc, Hamount. simpl. unfold bind, wrapErr.
  destruct (tryAddingCoin_run txn operation coinCreated coinIdentifier t
              Hcreated) as [e ->].
  unfold tryRemovingCoin at 1. rewrite Hspent. unfold ret.
  unfold tryAddingCoin at 1. rewrite Hspent. unfold ret.
  assert (∃ t1,
    t1 = <[getCoinAccountKey typesHash (Account operation)
            := encode ({[coinIdentifier]} ∪ coins)]>
           (<[getCoinKey coinIdentifier
               := encode (mkCoin coinIdentifier txn operation)]> t)
    ∧ match t !! getCoinAccountKey typesHash (Account operation) with
      | Some val =>
          match (decode val : option (gset string)) with
          | Some coins0 =>
              if decide (coinIdentifier ∈ coins0) then
                (<[getCoinKey coinIdentifier
                    := encode (mkCoin coinIdentifier txn operation)]> t,
                 Err (Errorf ("coin " +:+ coinIdentifier
                                +:+ " already exists in account "
                                +:+ PrettyPrintStruct (Account operation))))
              else
                (<[getCoinAccountKey typesHash (Account operation)
                    := encode ({[coinIdentifier]} ∪ coins0)]>
                   (<[getCoinKey coinIdentifier
                       := encode (mkCoin coinIdentifier txn operation)]> t),
                 Ok ())
          | None =>
              (<[getCoinKey coinIdentifier
                  := encode (mkCoin coinIdentifier txn operation)]> t, Err e)
          end
      | None =>
          (<[getCoinAccountKey typesHash (Account operation)
              := encode ({[coinIdentifier]} ∪ (∅ : gset string))]>
             (<[getCoinKey coinIdentifier
                 := encode (mkCoin coinIdentifier txn operation)]> t), Ok ())
      end = (t1, Ok ())) as (t1 & Ht1 & ->).
  { eexists. split; [reflexivity|]. unfold heldCoins in Hheld.
    destruct (t !! getCoinAccountKey typesHash (Account operation))
      as [val|].
    - rewrite Hheld. by rewrite decide_False.
    - by subst coins. }
  exists t1. split; [done|].
  destruct (tryRemovingCoin_run operation coinCreated coinIdentifier t1
              Hcreated) as [e' ->].
  subst t1.
  rewrite lookup_insert_ne by (apply not_eq_sym, coin_ne_coinAccount).
  rewrite !lookup_insert_eq, decode_encode.
  rewrite decide_True
    by (apply elem_of_union; left; by apply elem_of_singleton).
  rewrite add_remove_same by done. f_equal.
  apply map_eq. intros key.
  pose proof (coin_ne_coinAccount coinIdentifier (Account operation)).
  destruct (decide (key = getCoinAccountKey typesHash (Account operation)))
    as [->|Hk1]; [by lookup_simpl|].
  destruct (decide (key = getCoinKey coinIdentifier)) as [->|Hk2];
    by lookup_simpl.
Qed.

(** X19: A re-org of an operation that spent a coin: [RemovingBlock] after
    [AddingBlock] succeeds and brings the coin back to the set of the
    account, but the record it stores is not the one that was there: it
    carries the transaction and the operation that spent the coin.  No other
    key has changed. *)
Theorem reorg_restores_spent_coin c txn operation amount coinIdentifier
    v val coins t :
  OperationSuccessful c operation = Ok true →
  OpAmount operation = Some amount →
  Metadata operation !! coinSpent = Some (MetaString coinIdentifier) →
  Metadata operation !! coinCreated = None →
  t !! getCoinKey coinIdentifier = Some v →
  t !! getCoinAccountKey typesHash (Account operation) = Some val →
  decode val = Some coins →
  coinIdentifier ∈ coins →
  ∃ t1,
    addingOperation typesHash PrettyPrintStruct c txn operation t
      = (t1, Ok ())
    ∧ t1 !! getCoinKey coinIdentifier = None
    ∧ removingOperation typesHash PrettyPrintStruct c txn operation t1
      = (<[getCoinAccountKey typesHash (Account operation) := encode coins]>
           (<[getCoinKey coinIdentifier
               := encode (mkCoin coinIdentifier txn operation)]> t), Ok ()).
Proof.
  intros Hsucc Hamount Hspent Hcreated Hv Hval Hdec Hin.
  unfold addingOperation, removingOperation.
  rewrite Hsucc, Hamount. simpl. unfold bind, wrapErr.
  unfold tryAddingCoin at 1. rewrite Hcreated. unfold ret.
  destruct (tryRemovingCoin_run operation coinSpent coinIdentifier t
              Hspent) as [e ->].
  rewrite Hv, Hval, Hdec. rewrite decide_True by done.
  eexists. split; [reflexivity|]. split.
  { rewrite lookup_insert_ne by (apply not_eq_sym, coin_ne_coinAccount).
    by rewrite lookup_delete_eq. }
  unfold tryRemovingCoin at 1. rewrite Hcreated. unfold ret.
  match goal with |- context [tryAddingCoin _ _ _ _ _ ?t1] =>
    destruct (tryAddingCoin_run txn operation coinSpent coinIdentifier t1
                Hspent) as [e' ->] end.
  rewrite !lookup_insert_eq, decode_encode.
  rewrite decide_False
    by (rewrite elem_of_difference, elem_of_singleton; by intros [_ ?]).
  rewrite remove_add_same by done. f_equal.
  apply map_eq. intros key.
  pose proof (coin_ne_coinAccount coinIdentifier (Account operation)).
  destruct (decide (key = getCoinAccountKey typesHash (Account operation)))
    as [->|Hk1]; [by lookup_simpl|].
  destruct (decide (key = getCoinKey coinIdentifier)) as [->|Hk2];
    by lookup_simpl.
Qed.

Lemma getCoinsLoop_all t coinIdentifiers coinArr :
  (∀ x, x ∈ coinIdentifiers →
        ∃ v (coin : Coin), t !! getCoinKey x = Some v ∧ decode v = Some coin) →
  ∃ coinArr',
    getCoinsLoop t coinIdentifiers coinArr = (Some (coinArr ++ coinArr'), None)
    ∧ Forall2 (λ x coin, ∃ v, t !! getCoinKey x = Some v
                              ∧ decode v = Some coin)
        coinIdentifiers coinArr'.
Proof.
  revert coinArr. induction coinIdentifiers as [|x rest IH]; intros coinArr
    Hall; simpl.
  - exists []. by rewrite app_nil_r.
  - destruct (getAndDecodeCoin_run x t) as [e ->].
    destruct (Hall x) as (v & coin & Hv & Hdec); [by left|].
    rewrite Hv, Hdec.
    destruct (IH (coinArr ++ [coin])) as (coinArr' & -> & Hall').
    { intros y Hy. apply Hall. by right. }
    exists (coin :: coinArr'). rewrite <- app_assoc. split; [done|].
    constructor; [by exists v|done].
Qed.

(** X20: [GetCoins] of an account without a stored set returns the empty list and
    no error.  When every coin of the stored set has a record that decodes,
    [GetCoins] returns no error and a list with one entry for each
    identifier of the set: the coins of the list are exactly the coins of the
    records of these identifiers. *)
Theorem GetCoins_complete db accountIdentifier :
  (db !! getCoinAccountKey typesHash accountIdentifier = None →
   GetCoins typesHash db accountIdentifier = (Some [], None))
  ∧ (∀ val coins,
       db !! getCoinAccountKey typesHash accountIdentifier = Some val →
       decode val = Some coins →
       (∀ x, x ∈ coins →
             ∃ v (coin : Coin),
               db !! getCoinKey x = Some v ∧ decode v = Some coin) →
       ∃ coinArr,
         GetCoins typesHash db accountIdentifier = (Some coinArr, None)
         ∧ length coinArr = size coins
         ∧ ∀ coin, coin ∈ coinArr ↔
             ∃ x v, x ∈ coins ∧ db !! getCoinKey x = Some v
                    ∧ decode v = Some coin).
Proof.
  unfold GetCoins, NewDatabaseTransaction.
  destruct (getAndDecodeCoins_run typesHash accountIdentifier db) as [e ->].
  split; [by intros ->|].
  intros val coins -> -> Hall.
  destruct (getCoinsLoop_all db (elements coins) []) as (coinArr & -> & HF).
  { intros x Hx. apply Hall. by apply elem_of_elements. }
  exists coinArr. split_and!; [done| |].
  - apply Forall2_length in HF. by rewrite <- HF.
  - intros coin. split.
    + intros Hin. apply list_elem_of_lookup in Hin as [i Hi].
      destruct (Forall2_lookup_r _ _ _ _ _ HF Hi) as (x & Hx & v & Hv & Hdec).
      exists x, v. split_and!; [|done..].
      apply elem_of_elements. by apply list_elem_of_lookup; exists i.
    + intros (x & v & Hx & Hv & Hdec).
      apply elem_of_elements, list_elem_of_lookup in Hx as [i Hi].
      destruct (Forall2_lookup_l _ _ _ _ _ HF Hi)
        as (coin' & Hc & v' & Hv' & Hdec').
      rewrite Hv in Hv'. injection Hv' as <-.
      rewrite Hdec in Hdec'. injection Hdec' as <-.
      by apply list_elem_of_lookup; exists i.
Qed.

(** X21: [CoinStorage] never touches the block index: whatever [AddingBlock] and
    [RemovingBlock] do to the transaction and whatever they return, the head
    key and the block, block-hash and transaction-hash keys hold what they
    held.  Neither of them ever returns a commit callback. *)
Theorem CoinStorage_leaves_block_index c block :
  leavesIndex
    (@CoinAddingBlock bytes _ _ World typesHash PrettyPrintStruct c block)
  ∧ leavesIndex
      (@CoinRemovingBlock bytes _ _ World typesHash PrettyPrintStruct c block)
  ∧ ∀ adding t t' cw,
      workOn adding
        (@CoinStorage_BlockWorker bytes _ _ World typesHash PrettyPrintStruct
           c) block t = (t', Ok cw) →
      cw = None.
Proof.
  split_and!.
  - apply leavesIndex_bind; [|intros _; apply leavesIndex_ret].
    apply leavesIndex_forEach. intros txn.
    apply leavesIndex_forEach. intros operation.
    apply leavesIndex_addingOperation.
  - apply leavesIndex_bind; [|intros _; apply leavesIndex_ret].
    apply leavesIndex_forEach. intros txn.
    apply leavesIndex_forEach. intros operation.
    apply leavesIndex_removingOperation.
  - intros adding t t' cw. destruct adding; simpl;
      unfold CoinAddingBlock, CoinRemovingBlock, bind, ret.
    + destruct (forEach _ _ t) as [t1 [[]|e]]; by intros [= _ <-].
    + destruct (forEach _ _ t) as [t1 [[]|e]]; by intros [= _ <-].
Qed.

End CoinProperties.

(** ** When AddBlock goes through, and what the index keeps true *)

Section BlockIndexOutcomes.
Context {bytes : Type} (emptyBytes : bytes).
Context `{!Codec bytes Block, !Codec bytes BlockIdentifier,
          !Codec bytes (gmap string Z)}.
Context {World : Type}.
Implicit Types (t db : gmap string bytes) (world : World).
Implicit Types (workers : list (@BlockWorker bytes World)).
Implicit Types (id : BlockIdentifier) (T : TransactionIdentifier).
Implicit Types (m : gmap string Z).




(** X8: What every store built from the empty store by [AddBlock] and
    [RemoveBlock] keeps true, whatever the calls returned, when the workers
    leave the block index alone: a block record sits under the key of the
    identifier it carries, decodes, has a marker for its hash and is the only
    record with that hash; a stored reverse-index mapping decodes, is not
    empty, and has the entry (hash, index) exactly when the block stored
    under that identifier contains the transaction; the head key holds an
    encoded identifier, and a store without head has no index key at all. *)
Theorem reachable_store_invariant workers db :
  Forall keepsIndex workers →
  reachable emptyBytes workers db →
  (∀ id v, db !! getBlockKey id = Some v →
     (∃ b, v = encode b ∧ GetBlock db id = Ok b ∧ BlockIdentifier_ b = id
           ∧ NoDup (txHashes b))
     ∧ is_Some (db !! getBlockHashKey id)
     ∧ ∀ id', Hash id' = Hash id → is_Some (db !! getBlockKey id') →
              id' = id)
  ∧ (∀ T v, db !! getTransactionHashKey T = Some v →
       ∃ m, v = encode m ∧ m ≠ ∅
            ∧ ∀ h i, m !! h = Some i ↔
                ∃ b, GetBlock db (mkBlockIdentifier h i) = Ok b
                     ∧ T ∈ txIds b)
  ∧ (∀ v, db !! getHeadBlockKey = Some v →
       ∃ id, v = encode id ∧ GetHeadBlockIdentifier db = Ok id)
  ∧ (db !! getHeadBlockKey = None →
     ∀ key, isIndexKey key = true → db !! key = None).
Proof.
  intros Hkeep Hreach.
  pose proof (reachable_indexInv emptyBytes _ _ Hkeep Hreach)
    as (Hbok & Htx & Hrev & Hhead & Hempty & _).
  split_and!; [| | |done].
  - intros id v Hv. destruct (Hbok _ _ Hv) as ((b & -> & Hid & Hnd) & Hm & Hu).
    split_and!; [|done..]. exists b. split_and!; [done| |done..].
    by apply GetBlock_Ok_iff.
  - intros T v Hv. destruct (Htx _ _ Hv) as (m & -> & Hne).
    exists m. split_and!; [done..|]. intros h i. split.
    + intros Hm. destruct (proj1 (Hrev T h i)) as (b & Hb & HT);
        [by exists m|].
      exists b. split; [|done]. by apply GetBlock_Ok_iff.
    + intros (b & Hb & HT). apply (GetBlock_Ok_iff _ _ _ Hbok) in Hb.
      destruct (proj2 (Hrev T h i)) as (m' & Hm' & Hi); [by exists b|].
      rewrite Hv in Hm'. injection Hm' as Heq%encode_inj. by subst m'.
  - intros v Hv. destruct (Hhead _ Hv) as (id & ->).
    exists id. split; [done|]. by apply GetHeadBlockIdentifier_Ok.
Qed.

End BlockIndexOutcomes.

(** ** The keys of the two indexes *)

Section Keys.
Variable typesHash : AccountIdentifier → string.

(** X13: Keys do not collide.  A block key determines the identifier, also when
    the hash has a slash in it; a block-hash key depends on the hash alone;
    a transaction-hash key and a coin key determine the identifier; a coin
    account key determines the hash of the account.  Keys of different kinds
    are different, and no coin key or coin account key is a key of the block
    index. *)
Theorem keys_do_not_collide :
  (∀ id1 id2, getBlockKey id1 = getBlockKey id2 → id1 = id2)
  ∧ (∀ id1 id2,
       getBlockHashKey id1 = getBlockHashKey id2 ↔ Hash id1 = Hash id2)
  ∧ (∀ T1 T2,
       getTransactionHashKey T1 = getTransactionHashKey T2 → T1 = T2)
  ∧ (∀ c1 c2, getCoinKey c1 = getCoinKey c2 → c1 = c2)
  ∧ (∀ a1 a2,
       getCoinAccountKey typesHash a1 = getCoinAccountKey typesHash a2 →
       typesHash a1 = typesHash a2)
  ∧ (∀ id id' T c a,
       getHeadBlockKey ≠ getBlockKey id
       ∧ getHeadBlockKey ≠ getBlockHashKey id
       ∧ getHeadBlockKey ≠ getTransactionHashKey T
       ∧ getBlockKey id ≠ getBlockHashKey id'
       ∧ getBlockKey id ≠ getTransactionHashKey T
       ∧ getBlockHashKey id ≠ getTransactionHashKey T
       ∧ getCoinKey c ≠ getCoinAccountKey typesHash a
       ∧ isIndexKey (getCoinKey c) = false
       ∧ isIndexKey (getCoinAccountKey typesHash a) = false
       ∧ isIndexKey getHeadBlockKey = true
       ∧ isIndexKey (getBlockKey id) = true
       ∧ isIndexKey (getBlockHashKey id) = true
       ∧ isIndexKey (getTransactionHashKey T) = true).
Proof.
  split_and!.
  - apply getBlockKey_inj.
  - apply getBlockHashKey_eq.
  - apply getTransactionHashKey_inj.
  - apply getCoinKey_inj.
  - intros a1 a2. unfold getCoinAccountKey. simpl. intros Heq.
    by simplify_eq.
  - intros id id' T c a. by split_and!.
Qed.

End Keys.

(** ** RemoveBlock is atomic *)

Section RemoveAtomic.
Context {bytes : Type}.
Context `{!Codec bytes Block, !Codec bytes BlockIdentifier,
          !Codec bytes (gmap string Z)}.
Context {World : Type}.
Implicit Types (t db : gmap string bytes) (world : World).
Implicit Types (workers : list (@BlockWorker bytes World)).
Implicit Types (id : BlockIdentifier).

(** X5: When the index writes of [RemoveBlock] have gone through and a worker's
    [RemovingBlock] fails, [RemoveBlock] returns that worker's error and the
    store and the world are as before: the staged writes (head moved to the
    parent, block record and marker deleted) and the writes of the workers
    that ran are dropped, and no callback runs.  The same holds when all
    workers succeed and the commit fails. *)
Theorem RemoveBlock_error_atomic fault db world id block t :
  GetBlock db id = Ok block →
  removeBlockWrites block id (NewDatabaseTransaction db true) = (t, Ok ()) →
  (∀ workers1 w workers2 t1 cws t2 e,
     callWorkers false block workers1 t = (t1, Ok cws) →
     RemovingBlock w block t1 = (t2, Err e) →
     RemoveBlock (workers1 ++ w :: workers2) fault db world id
     = (db, world, Some e))
  ∧ (∀ workers t' cws e,
       callWorkers false block workers t = (t', Ok cws) →
       RemoveBlock workers (Some e) db world id = (db, world, Some e))
  ∧ t !! getHeadBlockKey = Some (encode (ParentBlockIdentifier block))
  ∧ t !! getBlockKey id = None
  ∧ t !! getBlockHashKey id = None.
Proof.
  intros Hget Hwrites. split_and!.
  - intros workers1 w workers2 t1 cws t2 e Hpre Hw.
    unfold RemoveBlock. rewrite Hget, Hwrites. unfold callWorkersAndCommit.
    by rewrite (callWorkers_app_Err false block _ _ _ _ _ _ _ _ Hpre Hw).
  - intros workers t' cws e Hcall.
    unfold RemoveBlock. rewrite Hget, Hwrites. unfold callWorkersAndCommit.
    by rewrite Hcall.
  - by apply removeBlockWrites_inv_Ok in Hwrites as (? & _).
  - by apply removeBlockWrites_inv_Ok in Hwrites as (_ & ? & _).
  - by apply removeBlockWrites_inv_Ok in Hwrites as (_ & _ & ? & _).
Qed.

End RemoveAtomic.

(** ** More runs on the sample store *)

Lemma reachable_db2 :
  reachable SEmpty ([] : list (@BlockWorker Stored World)) db2.
Proof.
  apply (reachable_AddBlock SEmpty [] db1 None [] newBlock2).
  apply reachable_db1.
Qed.

Lemma keyedById_db2 : keyedById db2.
Proof. intros id block Hget. by apply chainOk_db2. Qed.

Lemma AddBlock_success_reads_witness :
  GetHeadBlockIdentifier db1 = Ok (BlockIdentifier_ newBlock)
  ∧ GetBlock db1 (BlockIdentifier_ newBlock) = Ok newBlock
  ∧ db1 !! getBlockHashKey (BlockIdentifier_ newBlock) = Some SEmpty
  ∧ ∀ txn, txn ∈ Transactions newBlock →
      ∃ ids distance,
        FindTransaction db1 (TransactionIdentifier_ txn)
          = (Some ids, distance, None)
        ∧ BlockIdentifier_ newBlock ∈ ids.
Proof.
  apply (AddBlock_success_reads SEmpty
           ([] : list (@BlockWorker Stored World)) None emptyDb
           ([] : World) newBlock db1 []).
  - constructor.
  - vm_compute. reflexivity.
Defined.

Lemma RemoveBlock_missing_block_witness :
  ∃ e, GetBlock db1 (mkBlockIdentifier "blah 2" 2) = Err e
       ∧ RemoveBlock ([] : list (@BlockWorker Stored World)) None db1
           ([] : World) (mkBlockIdentifier "blah 2" 2)
         = (db1, [], Some e)
       ∧ errors_Is e ErrBlockNotFound = true.
Proof.
  apply (RemoveBlock_missing_block
           ([] : list (@BlockWorker Stored World)) None db1 ([] : World)
           (mkBlockIdentifier "blah 2" 2)).
  vm_compute. reflexivity.
Defined.

Lemma RemoveBlock_success_effects_witness :
  ∃ block,
    GetBlock db2 (mkBlockIdentifier "blah 2" 2) = Ok block
    ∧ GetHeadBlockIdentifier db1 = Ok (ParentBlockIdentifier block)
    ∧ (∃ e, GetBlock db1 (mkBlockIdentifier "blah 2" 2) = Err e
            ∧ errors_Is e ErrBlockNotFound = true)
    ∧ db1 !! getBlockHashKey (mkBlockIdentifier "blah 2" 2) = None
    ∧ ∀ id', id' ≠ mkBlockIdentifier "blah 2" 2 →
             GetBlock db1 id' = GetBlock db2 id'.
Proof.
  apply (RemoveBlock_success_effects
           ([] : list (@BlockWorker Stored World)) None db2 ([] : World)
           (mkBlockIdentifier "blah 2" 2) db1 []).
  - constructor.
  - vm_compute. reflexivity.
Defined.

Lemma FindTransaction_exact_witness :
  ∃ ids distance,
    FindTransaction db2 (mkTransactionIdentifier "blahTx")
      = (ids, distance, None)
    ∧ (∀ id, (∃ l, ids = Some l ∧ id ∈ l)
             ↔ (∃ block, GetBlock db2 id = Ok block
                         ∧ mkTransactionIdentifier "blahTx" ∈ txIds block))
    ∧ ids ≠ Some [].
Proof.
  apply (FindTransaction_exact SEmpty
           ([] : list (@BlockWorker Stored World)) db2
           (mkTransactionIdentifier "blahTx")).
  - constructor.
  - apply reachable_db2.
Defined.

Lemma no_head_no_index_witness :
  (∀ key, isIndexKey key = true → emptyDb !! key = None)
  ∧ (∀ id, ∃ e, GetBlock emptyDb id = Err e)
  ∧ (∀ T, FindTransaction emptyDb T = (None, -1, None))
  ∧ (∀ PastBlockSize, CreateBlockCache PastBlockSize emptyDb = []).
Proof.
  apply (no_head_no_index SEmpty
           ([] : list (@BlockWorker Stored World)) emptyDb).
  - constructor.
  - apply reachable_empty.
  - reflexivity.
Defined.

Lemma RemoveBlock_stored_succeeds_witness :
  (∃ t, removeBlockWrites newBlock2 (mkBlockIdentifier "blah 2" 2) db2
        = (t, Ok ()))
  ∧ (([] : list (@BlockWorker Stored World)) = [] →
     ∃ db', RemoveBlock ([] : list (@BlockWorker Stored World)) None db2
              ([] : World) (mkBlockIdentifier "blah 2" 2)
            = (db', [], None)).
Proof.
  apply (RemoveBlock_stored_succeeds SEmpty
           ([] : list (@BlockWorker Stored World)) db2 ([] : World)
           (mkBlockIdentifier "blah 2" 2) newBlock2).
  - constructor.
  - apply reachable_db2.
  - vm_compute. reflexivity.
Defined.

Lemma remove_then_add_restores_witness :
  (∃ t2, addBlockWrites SEmpty newBlock2 db1 = (t2, Ok ()))
  ∧ (∀ fault2 db' (world2 : World),
       AddBlock SEmpty ([] : list (@BlockWorker Stored World)) fault2 db1 []
         newBlock2 = (db', world2, None) →
       db' !! getHeadBlockKey = Some (encode (mkBlockIdentifier "blah 2" 2))
       ∧ ∀ k, isIndexKey k = true → k ≠ getHeadBlockKey →
              db' !! k = db2 !! k)
  ∧ (([] : list (@BlockWorker Stored World)) = [] →
     db2 !! getHeadBlockKey = Some (encode (mkBlockIdentifier "blah 2" 2)) →
     AddBlock SEmpty ([] : list (@BlockWorker Stored World)) None db1
       ([] : World) newBlock2 = (db2, [], None)).
Proof.
  apply (remove_then_add_restores SEmpty
           ([] : list (@BlockWorker Stored World)) None db2 ([] : World)
           (mkBlockIdentifier "blah 2" 2) newBlock2 db1 []).
  - constructor.
  - apply reachable_db2.
  - vm_compute. reflexivity.
  - vm_compute. reflexivity.
Defined.

Lemma SetNewStartIndex_errors_witness :
  ∃ db' (world' : World) e,
    SetNewStartIndex ([] : list (@BlockWorker Stored World)) 3 [] db1 [] 0
      = Some (db', world', Some e)
    ∧ ((∃ head, GetHeadBlockIdentifier db1 = Ok head
                ∧ Index head < 0 ∧ db' = db1)
       ∨ errors_Is e ErrBlockNotFound = true).
Proof.
  eexists _, _, _. split; [vm_compute; reflexivity|].
  eapply (SetNewStartIndex_errors SEmpty 3 db1 ([] : World) 0).
  - apply reachable_db1.
  - vm_compute. reflexivity.
Defined.

Lemma CreateBlockCache_chain_witness :
  chainFrom db2 (mkBlockIdentifier "blah 2" 2) (rev (CreateBlockCache 5 db2))
  ∧ (∀ block, GetBlock db2 (mkBlockIdentifier "blah 2" 2) = Ok block →
              (0 < 5)%nat →
              last (CreateBlockCache 5 db2)
              = Some (mkBlockIdentifier "blah 2" 2)).
Proof.
  apply (CreateBlockCache_chain 5 db2 (mkBlockIdentifier "blah 2" 2)).
  - apply keyedById_db2.
  - vm_compute. reflexivity.
Defined.


Lemma reachable_store_invariant_witness :
  (∀ id v, db2 !! getBlockKey id = Some v →
     (∃ b, v = encode b ∧ GetBlock db2 id = Ok b ∧ BlockIdentifier_ b = id
           ∧ NoDup (txHashes b))
     ∧ is_Some (db2 !! getBlockHashKey id)
     ∧ ∀ id', Hash id' = Hash id → is_Some (db2 !! getBlockKey id') →
              id' = id)
  ∧ (∀ T v, db2 !! getTransactionHashKey T = Some v →
       ∃ m : gmap string Z, v = encode m ∧ m ≠ ∅
            ∧ ∀ h i, m !! h = Some i ↔
                ∃ b, GetBlock db2 (mkBlockIdentifier h i) = Ok b
                     ∧ T ∈ txIds b)
  ∧ (∀ v, db2 !! getHeadBlockKey = Some v →
       ∃ id, v = encode id ∧ GetHeadBlockIdentifier db2 = Ok id)
  ∧ (db2 !! getHeadBlockKey = None →
     ∀ key, isIndexKey key = true → db2 !! key = None).
Proof.
  apply (reachable_store_invariant SEmpty
           ([] : list (@BlockWorker Stored World)) db2).
  - constructor.
  - apply reachable_db2.
Defined.

Lemma tryAddingCoin_contract_witness :
  (∀ coins, heldCoins sampleHash emptyDb (Account utxoOperation) coins →
            "coin1" ∉ coins →
            ∃ t', tryAddingCoin sampleHash samplePretty utxoTransaction
                    utxoOperation coinCreated emptyDb = (t', Ok ()))
  ∧ (∀ t', tryAddingCoin sampleHash samplePretty utxoTransaction
             utxoOperation coinCreated emptyDb = (t', Ok ()) →
       ∃ coins,
         heldCoins sampleHash emptyDb (Account utxoOperation) coins
         ∧ ("coin1" ∉ coins)
         ∧ getAndDecodeCoin "coin1" t'
           = (t', Ok (Some (mkCoin "coin1" utxoTransaction utxoOperation)))
         ∧ getAndDecodeCoins sampleHash (Account utxoOperation) t'
           = (t', Ok (Some ({["coin1"]} ∪ coins)))
         ∧ ∀ key, key ≠ getCoinKey "coin1" →
                  key ≠ getCoinAccountKey sampleHash (Account utxoOperation) →
                  t' !! key = emptyDb !! key).
Proof.
  apply (tryAddingCoin_contract sampleHash samplePretty utxoTransaction
           utxoOperation coinCreated "coin1" emptyDb).
  vm_compute. reflexivity.
Defined.

Lemma addingOperation_duplicate_coin_witness :
  ∃ t',
    addingOperation sampleHash samplePretty sampleCoinStorage utxoTransaction
      utxoOperation dbCoins
    = (t', Err (Wrapf (Errorf ("coin " +:+ "coin1"
                                 +:+ " already exists in account "
                                 +:+ samplePretty (Account utxoOperation)))
                  ": unable to add coin")).
Proof.
  apply (addingOperation_duplicate_coin sampleHash samplePretty
           sampleCoinStorage utxoTransaction utxoOperation
           (mkAmount "10" "") "coin1" {["coin1"]} dbCoins).
  - reflexivity.
  - reflexivity.
  - vm_compute. reflexivity.
  - vm_compute. reflexivity.
  - by apply elem_of_singleton.
Defined.

Lemma tryRemovingCoin_contract_witness :
  (dbCoins !! getCoinKey "coin1" = None →
   tryRemovingCoin sampleHash samplePretty spendOperation coinSpent dbCoins
   = (dbCoins, Ok ()))
  ∧ (is_Some (dbCoins !! getCoinKey "coin1") →
     (∀ t', tryRemovingCoin sampleHash samplePretty spendOperation coinSpent
              dbCoins = (t', Ok ()) ↔
            ∃ val (coins : gset string),
              dbCoins !! getCoinAccountKey sampleHash (Account spendOperation)
                = Some val
              ∧ decode val = Some coins
              ∧ "coin1" ∈ coins
              ∧ t' = <[getCoinAccountKey sampleHash (Account spendOperation)
                        := encode (coins ∖ {["coin1"]})]>
                       (delete (getCoinKey "coin1") dbCoins))
     ∧ (dbCoins !! getCoinAccountKey sampleHash (Account spendOperation)
          = None →
        tryRemovingCoin sampleHash samplePretty spendOperation coinSpent
          dbCoins
        = (delete (getCoinKey "coin1") dbCoins,
           Err (Errorf "%!w(<nil>): unable to find owner of coin")))).
Proof.
  apply (tryRemovingCoin_contract sampleHash samplePretty spendOperation
           coinSpent "coin1" dbCoins).
  vm_compute. reflexivity.
Defined.

Lemma created_coin_is_spent_witness :
  ∃ t2 coins,
    addingOperation sampleHash samplePretty sampleCoinStorage
      spendTransaction spendOperation
      (addingOperation sampleHash samplePretty sampleCoinStorage
         utxoTransaction utxoOperation emptyDb).1
      = (t2, Ok ())
    ∧ heldCoins sampleHash emptyDb (Account utxoOperation) coins
    ∧ getAndDecodeCoin "coin1" t2 = (t2, Ok None)
    ∧ getAndDecodeCoins sampleHash (Account utxoOperation) t2
      = (t2, Ok (Some coins))
    ∧ ∀ key, key ≠ getCoinKey "coin1" →
             key ≠ getCoinAccountKey sampleHash (Account utxoOperation) →
             t2 !! key = emptyDb !! key.
Proof.
  apply (created_coin_is_spent sampleHash samplePretty sampleCoinStorage
           utxoTransaction utxoOperation (mkAmount "10" "")
           spendTransaction spendOperation (mkAmount "-10" "") "coin1"
           emptyDb).
  all: vm_compute; reflexivity.
Defined.

Lemma reorg_removes_created_coin_witness :
  ∃ t1,
    addingOperation sampleHash samplePretty sampleCoinStorage utxoTransaction
      utxoOperation emptyDb = (t1, Ok ())
    ∧ removingOperation sampleHash samplePretty sampleCoinStorage
        utxoTransaction utxoOperation t1
      = (<[getCoinAccountKey sampleHash (Account utxoOperation)
            := encode (∅ : gset string)]>
           (delete (getCoinKey "coin1") emptyDb), Ok ()).
Proof.
  apply (reorg_removes_created_coin sampleHash samplePretty
           sampleCoinStorage utxoTransaction utxoOperation
           (mkAmount "10" "") "coin1" ∅ emptyDb).
  - reflexivity.
  - reflexivity.
  - vm_compute. reflexivity.
  - vm_compute. reflexivity.
  - vm_compute. reflexivity.
  - apply not_elem_of_empty.
Defined.

Lemma reorg_restores_spent_coin_witness :
  ∃ t1,
    addingOperation sampleHash samplePretty sampleCoinStorage
      spendTransaction spendOperation dbCoins = (t1, Ok ())
    ∧ t1 !! getCoinKey "coin1" = None
    ∧ removingOperation sampleHash samplePretty sampleCoinStorage
        spendTransaction spendOperation t1
      = (<[getCoinAccountKey sampleHash (Account spendOperation)
            := encode ({["coin1"]} : gset string)]>
           (<[getCoinKey "coin1"
               := encode (mkCoin "coin1" spendTransaction spendOperation)]>
              dbCoins), Ok ()).
Proof.
  apply (reorg_restores_spent_coin sampleHash samplePretty
           sampleCoinStorage spendTransaction spendOperation
           (mkAmount "-10" "") "coin1"
           (SCoin (mkCoin "coin1" utxoTransaction utxoOperation))
           (SCoins {["coin1"]}) {["coin1"]} dbCoins).
  - reflexivity.
  - reflexivity.
  - vm_compute. reflexivity.
  - vm_compute. reflexivity.
  - vm_compute. reflexivity.
  - vm_compute. reflexivity.
  - reflexivity.
  - by apply elem_of_singleton.
Defined.

Lemma RemoveBlock_error_atomic_witness :
  let t := (removeBlockWrites newBlock2 (mkBlockIdentifier "blah 2" 2)
              db2).1 in
  RemoveBlock [loggingWorker "a"; failingRemover "boom"; nilWorker] None db2
    ([] : World) (mkBlockIdentifier "blah 2" 2)
  = (db2, [], Some (ErrExternal "boom"))
  ∧ t !! getHeadBlockKey = Some (encode (mkBlockIdentifier "blah 1" 1))
  ∧ t !! getBlockKey (mkBlockIdentifier "blah 2" 2) = None.
Proof.
  intros t.
  pose proof (RemoveBlock_error_atomic None db2 ([] : World)
                (mkBlockIdentifier "blah 2" 2) newBlock2 t) as H.
  destruct H as (Hworker & _ & Hhead & Hblock & _).
  - vm_compute. reflexivity.
  - vm_compute. reflexivity.
  - split; [|by split].
    apply (Hworker [loggingWorker "a"] (failingRemover "boom") [nilWorker]
             (delete "aux/a" t)
             [Some (logLine "a")]
             (<["aux/boom" := SEmpty]> (delete "aux/a" t))
             (ErrExternal "boom")).
    + vm_compute. reflexivity.
    + vm_compute. reflexivity.
Defined.
